(** * BinarySearchTree.hpp: a binary search tree with parent pointers

    A shallow embedding of [BinarySearchTree<Key, Value>] (duplicate keys
    allowed) and of the demonstration program that drives it.  Nodes live
    in a heap indexed by addresses, tree objects hold a [root_] pointer,
    and every member function is a computation in a small state monad over
    that store.  Loops and recursive calls are bounded by a fuel argument;
    running out of fuel, dereferencing a null or a released pointer, and
    naming an object that does not exist all yield [None]. *)

From Stdlib Require Import ZArith QArith String Ascii.
From stdpp Require Import gmap list sorting strings.

Local Open Scope Z_scope.
Local Open Scope nat_scope.

(** ** Keys

    The template parameter [Key] is used through [operator==] and
    [operator<] only.  The class bundles the two operations with the laws
    of a strict total order whose equality test decides equality. *)

Class KeyType (K : Type) := {
  key_eqb : K → K → bool;
  key_ltb : K → K → bool;
  key_eqb_eq : ∀ a b, key_eqb a b = true ↔ a = b;
  key_ltb_irrefl : ∀ a, key_ltb a a = false;
  key_ltb_trans : ∀ a b c, key_ltb a b = true → key_ltb b c = true → key_ltb a c = true;
  key_ltb_total : ∀ a b, key_ltb a b = false → key_ltb b a = false → a = b
}.

(** [a] is not greater than [b]. *)
Definition key_le {K} `{KeyType K} (a b : K) : Prop := key_ltb b a = false.

(** [std::string] keys: [operator==] and the lexicographic [operator<]. *)

Lemma ascii_compare_trans a b c :
  Ascii.compare a b = Lt → Ascii.compare b c = Lt → Ascii.compare a c = Lt.
Proof. unfold Ascii.compare. rewrite !N.compare_lt_iff. lia. Qed.

Lemma string_compare_trans : ∀ a b c,
  String.compare a b = Lt → String.compare b c = Lt → String.compare a c = Lt.
Proof.
  induction a as [|x a IH]; intros [|y b] [|z c]; simpl; try done.
  destruct (Ascii.compare x y) eqn:Exy; try done.
  - apply Ascii.compare_eq_iff in Exy as ->.
    destruct (Ascii.compare y z) eqn:Eyz; try done. apply IH.
  - intros _. destruct (Ascii.compare y z) eqn:Eyz; try done.
    + apply Ascii.compare_eq_iff in Eyz as <-. by rewrite Exy.
    + by rewrite (ascii_compare_trans _ _ _ Exy Eyz).
Qed.

Lemma string_ltb_irrefl a : String.ltb a a = false.
Proof.
  unfold String.ltb. pose proof (String.compare_antisym a a) as A.
  destruct (String.compare a a); simpl in A; congruence.
Qed.

Lemma string_ltb_trans a b c :
  String.ltb a b = true → String.ltb b c = true → String.ltb a c = true.
Proof.
  unfold String.ltb.
  destruct (String.compare a b) eqn:E1; try done.
  destruct (String.compare b c) eqn:E2; try done.
  by rewrite (string_compare_trans _ _ _ E1 E2).
Qed.

Lemma string_ltb_total a b :
  String.ltb a b = false → String.ltb b a = false → a = b.
Proof.
  unfold String.ltb. destruct (String.compare a b) eqn:E1; try done.
  - intros _ _. by apply String.compare_eq_iff.
  - rewrite String.compare_antisym. by rewrite E1.
Qed.

#[global] Instance string_KeyType : KeyType string := {|
  key_eqb := String.eqb;
  key_ltb := String.ltb;
  key_eqb_eq := String.eqb_eq;
  key_ltb_irrefl := string_ltb_irrefl;
  key_ltb_trans := string_ltb_trans;
  key_ltb_total := string_ltb_total
|}.

(** ** The store *)

Definition loc := positive.
Definition obj := positive.

(** A pointer is an address or [nullptr]. *)
Abbreviation ptr := (option loc).
Abbreviation nullptr := (@None loc).

Section Store.
Context {K V : Type}.

Record Node := mkNode {
  key_ : K;
  value_ : V;
  left_ : ptr;
  right_ : ptr;
  parent_ : ptr
}.

(** [nodes] is the free store; [trees] maps each live [BinarySearchTree]
    object to its [root_] member. *)
Record world := World {
  nodes : gmap loc Node;
  trees : gmap obj ptr
}.

Definition empty_world : world := World ∅ ∅.

Definition with_key (nd : Node) (k : K) : Node :=
  mkNode k (value_ nd) (left_ nd) (right_ nd) (parent_ nd).
Definition with_value (nd : Node) (v : V) : Node :=
  mkNode (key_ nd) v (left_ nd) (right_ nd) (parent_ nd).
Definition with_left (nd : Node) (p : ptr) : Node :=
  mkNode (key_ nd) (value_ nd) p (right_ nd) (parent_ nd).
Definition with_right (nd : Node) (p : ptr) : Node :=
  mkNode (key_ nd) (value_ nd) (left_ nd) p (parent_ nd).
Definition with_parent (nd : Node) (p : ptr) : Node :=
  mkNode (key_ nd) (value_ nd) (left_ nd) (right_ nd) p.

(** ** The monad *)

Definition M (A : Type) : Type := world → option (A * world).

Definition ret {A} (a : A) : M A := λ w, Some (a, w).

Definition bind {A B} (m : M A) (f : A → M B) : M B :=
  λ w, match m w with
       | Some (a, w') => f a w'
       | None => None
       end.

(** No result: the fuel ran out, or the behaviour is undefined. *)
Definition stuck {A} : M A := λ _, None.

End Store.

Arguments Node : clear implicits.
Arguments world : clear implicits.
Arguments M : clear implicits.

#[global] Instance M_ret {K V} : MRet (M K V) := λ A, ret.
#[global] Instance M_bind {K V} : MBind (M K V) := λ A B f m, bind m f.

Section Primitives.
Context {K V : Type}.
Local Abbreviation Node := (Node K V).
Local Abbreviation world := (world K V).
Local Abbreviation M := (M K V).

(** [p->...]: read the node [p] points to. *)
Definition deref (p : ptr) : M Node :=
  λ w, match p with
       | Some l => match nodes w !! l with
                   | Some nd => Some (nd, w)
                   | None => None
                   end
       | None => None
       end.

(** Overwrite the node [p] points to. *)
Definition store (p : ptr) (nd : Node) : M unit :=
  λ w, match p with
       | Some l => match nodes w !! l with
                   | Some _ => Some (tt, World (<[l := nd]> (nodes w)) (trees w))
                   | None => None
                   end
       | None => None
       end.

Definition set_key (p : ptr) (k : K) : M unit :=
  nd ← deref p; store p (with_key nd k).
Definition set_value (p : ptr) (v : V) : M unit :=
  nd ← deref p; store p (with_value nd v).
Definition set_left (p q : ptr) : M unit :=
  nd ← deref p; store p (with_left nd q).
Definition set_right (p q : ptr) : M unit :=
  nd ← deref p; store p (with_right nd q).
Definition set_parent (p q : ptr) : M unit :=
  nd ← deref p; store p (with_parent nd q).

(** [new Node<Key, Value>( key, value )]: the three links start as
    [nullptr] (default member initialisers). *)
Definition new_node (k : K) (v : V) : M ptr :=
  λ w, let l := fresh (dom (nodes w)) in
       Some (Some l, World (<[l := mkNode k v None None None]> (nodes w)) (trees w)).

(** [delete node] *)
Definition delete_node (p : ptr) : M unit :=
  λ w, match p with
       | Some l => match nodes w !! l with
                   | Some _ => Some (tt, World (delete l (nodes w)) (trees w))
                   | None => None
                   end
       | None => Some (tt, w)
       end.

(** [this->root_] *)
Definition get_root (this : obj) : M ptr :=
  λ w, match trees w !! this with
       | Some r => Some (r, w)
       | None => None
       end.

Definition set_root (this : obj) (r : ptr) : M unit :=
  λ w, match trees w !! this with
       | Some _ => Some (tt, World (nodes w) (<[this := r]> (trees w)))
       | None => None
       end.

(** Storage for a new tree object; [root_] starts as [nullptr]. *)
Definition new_tree : M obj :=
  λ w, let t := fresh (dom (trees w)) in
       Some (t, World (nodes w) (<[t := None]> (trees w))).

(** The tree object's storage goes away. *)
Definition drop_tree (this : obj) : M unit :=
  λ w, match trees w !! this with
       | Some _ => Some (tt, World (nodes w) (delete this (trees w)))
       | None => None
       end.

Definition is_null (p : ptr) : bool :=
  match p with None => true | Some _ => false end.

Definition ptr_eqb (p q : ptr) : bool := bool_decide (p = q).

End Primitives.

(** ** The member functions *)

(** Which of the two families of helper functions the header selects. *)
Inductive impl := USING_ITERATIVE_FUNCTIONS | USING_RECURSIVE_FUNCTIONS.

(** What [search] hands back to its caller. *)
Inductive search_result (V : Type) :=
  | Returns (v : V)
  | Throws_invalid_argument.
Arguments Returns {V} v.
Arguments Throws_invalid_argument {V}.

Section BinarySearchTree.
Context {K V : Type} `{KeyType K}.
Local Abbreviation Node := (Node K V).
Local Abbreviation world := (world K V).
Local Abbreviation M := (M K V).

(** The [while] loop of [searchIterative], started at [cur]. *)
Fixpoint searchIterative_loop (fuel : nat) (cur : ptr) (key : K) : M ptr :=
  match fuel with
  | O => stuck
  | S fuel =>
    if is_null cur then ret nullptr
    else
      c ← deref cur;
      if key_eqb key (key_ c) then ret cur
      else if key_ltb key (key_ c) then searchIterative_loop fuel (left_ c) key
      else searchIterative_loop fuel (right_ c) key
  end.

Definition searchIterative (fuel : nat) (this : obj) (key : K) : M ptr :=
  cur ← get_root this;
  searchIterative_loop fuel cur key.

Fixpoint searchRecursive (fuel : nat) (node : ptr) (key : K) : M ptr :=
  match fuel with
  | O => stuck
  | S fuel =>
    if negb (is_null node) then
      n ← deref node;
      if key_eqb key (key_ n) then ret node
      else if key_ltb key (key_ n) then searchRecursive fuel (left_ n) key
      else searchRecursive fuel (right_ n) key
    else ret nullptr
  end.

Definition find_node (mode : impl) (fuel : nat) (this : obj) (key : K) : M ptr :=
  match mode with
  | USING_ITERATIVE_FUNCTIONS => searchIterative fuel this key
  | USING_RECURSIVE_FUNCTIONS =>
      r ← get_root this; searchRecursive fuel r key
  end.

Definition search (mode : impl) (fuel : nat) (this : obj) (key : K)
  : M (search_result V) :=
  node ← find_node mode fuel this key;
  if is_null node then ret Throws_invalid_argument
  else n ← deref node; ret (Returns (value_ n)).

(** The [while] loop of [insertIterative]. *)
Fixpoint insertIterative_loop (fuel : nat) (cur node : ptr) : M unit :=
  match fuel with
  | O => stuck
  | S fuel =>
    if is_null cur then ret tt
    else
      n ← deref node;
      c ← deref cur;
      if key_ltb (key_ n) (key_ c) then
        if is_null (left_ c) then
          set_left cur node;;
          set_parent node cur;;
          insertIterative_loop fuel nullptr node
        else insertIterative_loop fuel (left_ c) node
      else
        if is_null (right_ c) then
          set_right cur node;;
          set_parent node cur;;
          insertIterative_loop fuel nullptr node
        else insertIterative_loop fuel (right_ c) node
  end.

Definition insertIterative (fuel : nat) (this : obj) (node : ptr) : M unit :=
  set_left node nullptr;;
  set_right node nullptr;;
  root ← get_root this;
  if is_null root then
    set_root this node;;
    set_parent node nullptr
  else
    insertIterative_loop fuel root node.

Fixpoint insertRecursive (fuel : nat) (parent nodeToInsert : ptr) : M unit :=
  match fuel with
  | O => stuck
  | S fuel =>
    n ← deref nodeToInsert;
    p ← deref parent;
    if key_ltb (key_ n) (key_ p) then
      if is_null (left_ p) then
        set_left parent nodeToInsert;;
        set_parent nodeToInsert parent
      else insertRecursive fuel (left_ p) nodeToInsert
    else
      if is_null (right_ p) then
        set_right parent nodeToInsert;;
        set_parent nodeToInsert parent
      else insertRecursive fuel (right_ p) nodeToInsert
  end.

Definition insert (mode : impl) (fuel : nat) (this : obj) (key : K) (value : V)
  : M unit :=
  node ← new_node key value;
  match mode with
  | USING_ITERATIVE_FUNCTIONS => insertIterative fuel this node
  | USING_RECURSIVE_FUNCTIONS =>
      root ← get_root this;
      if is_null root then set_root this node
      else insertRecursive fuel root node
  end.

Definition replaceChild (parent currentChild newChild : ptr) : M bool :=
  p ← deref parent;
  if negb (ptr_eqb (left_ p) currentChild) && negb (ptr_eqb (right_ p) currentChild)
  then ret false
  else
    (if ptr_eqb (left_ p) currentChild then set_left parent newChild
     else set_right parent newChild);;
    (if negb (is_null newChild) then set_parent newChild parent else ret tt);;
    ret true.

(** The successor loop of [remove]: walk left from [succNode]. *)
Fixpoint successor_loop (fuel : nat) (succNode : ptr) : M ptr :=
  match fuel with
  | O => stuck
  | S fuel =>
    s ← deref succNode;
    if negb (is_null (left_ s)) then successor_loop fuel (left_ s)
    else ret succNode
  end.

(** [remove( Node * node )] *)
Fixpoint remove_node (fuel : nat) (this : obj) (node : ptr) : M unit :=
  match fuel with
  | O => stuck
  | S fuel =>
    if is_null node then ret tt
    else
      n ← deref node;
      if negb (is_null (left_ n)) && negb (is_null (right_ n)) then
        succNode ← successor_loop fuel (right_ n);
        s ← deref succNode;
        set_key node (key_ s);;
        set_value node (value_ s);;
        remove_node fuel this succNode
      else
        root ← get_root this;
        (if ptr_eqb node root then
           (if negb (is_null (left_ n)) then set_root this (left_ n)
            else set_root this (right_ n));;
           root' ← get_root this;
           if negb (is_null root') then set_parent root' nullptr else ret tt
         else if negb (is_null (left_ n)) then
           replaceChild (parent_ n) node (left_ n);; ret tt
         else
           replaceChild (parent_ n) node (right_ n);; ret tt);;
        delete_node node
  end.

(** [remove( const Key & key )] *)
Definition remove (mode : impl) (fuel : nat) (this : obj) (key : K) : M unit :=
  node ← find_node mode fuel this key;
  remove_node fuel this node.

(** [printInorder( Node * node )].  The result is what the call writes to
    the stream: one (key, value) record per [operator<<]. *)
Fixpoint printInorder_node (fuel : nat) (node : ptr) : M (list (K * V)) :=
  match fuel with
  | O => stuck
  | S fuel =>
    if is_null node then ret []
    else
      n ← deref node;
      before ← printInorder_node fuel (left_ n);
      n ← deref node;
      let line := (key_ n, value_ n) in
      after ← printInorder_node fuel (right_ n);
      ret (before ++ line :: after)
  end.

Definition printInorder (fuel : nat) (this : obj) : M (list (K * V)) :=
  root ← get_root this;
  printInorder_node fuel root.

(** [getHeight( Node * node )] *)
Fixpoint getHeight_node (fuel : nat) (node : ptr) : M Z :=
  match fuel with
  | O => stuck
  | S fuel =>
    if is_null node then ret (-1)%Z
    else
      n ← deref node;
      leftHeight ← getHeight_node fuel (left_ n);
      rightHeight ← getHeight_node fuel (right_ n);
      ret (1 + Z.max leftHeight rightHeight)%Z
  end.

Definition getHeight (fuel : nat) (this : obj) : M Z :=
  root ← get_root this;
  getHeight_node fuel root.

Fixpoint makeCopy (fuel : nat) (originalNode : ptr) : M ptr :=
  match fuel with
  | O => stuck
  | S fuel =>
    if is_null originalNode then ret nullptr
    else
      o ← deref originalNode;
      node ← new_node (key_ o) (value_ o);
      o ← deref originalNode;
      l ← makeCopy fuel (left_ o);
      set_left node l;;
      o ← deref originalNode;
      r ← makeCopy fuel (right_ o);
      set_right node r;;
      n ← deref node;
      (if negb (is_null (left_ n)) then set_parent (left_ n) node else ret tt);;
      n ← deref node;
      (if negb (is_null (right_ n)) then set_parent (right_ n) node else ret tt);;
      ret node
  end.

(** [clear( Node * node )] *)
Fixpoint clear_node (fuel : nat) (node : ptr) : M unit :=
  match fuel with
  | O => stuck
  | S fuel =>
    if is_null node then ret tt
    else
      n ← deref node;
      clear_node fuel (left_ n);;
      n ← deref node;
      clear_node fuel (right_ n);;
      delete_node node
  end.

Definition clear (fuel : nat) (this : obj) : M unit :=
  root ← get_root this;
  clear_node fuel root;;
  set_root this nullptr.

(** The default constructor. *)
Definition construct : M obj := new_tree.

(** The copy constructor. *)
Definition copy_construct (fuel : nat) (original : obj) : M obj :=
  this ← new_tree;
  r ← get_root original;
  c ← makeCopy fuel r;
  set_root this c;;
  ret this.

(** The destructor. *)
Definition destroy (fuel : nat) (this : obj) : M unit :=
  clear fuel this;;
  drop_tree this.

(** [operator=].  The parameter [rhs] is passed by value: it is
    copy-constructed from the argument on entry and destroyed on exit. *)
Definition assign (fuel : nat) (this : obj) (argument : obj) : M unit :=
  rhs ← copy_construct fuel argument;
  temp ← get_root rhs;
  r ← get_root this;
  set_root rhs r;;
  set_root this temp;;
  destroy fuel rhs.

End BinarySearchTree.

(** ** The tree a pointer stands for

    For the proofs a linked structure is read back as an inductive tree
    that remembers the address of every node. *)

Inductive ltree (K V : Type) :=
  | Leaf
  | Nd (l : loc) (k : K) (v : V) (L R : ltree K V).
Arguments Leaf {K V}.
Arguments Nd {K V} l k v L R.

Section Model.
Context {K V : Type} `{KeyType K}.
Local Abbreviation Node := (Node K V).
Local Abbreviation world := (world K V).
Local Abbreviation M := (M K V).
Local Abbreviation ltree := (ltree K V).

(** Addresses, entries and keys in left-node-right order. *)
Fixpoint locs (t : ltree) : list loc :=
  match t with
  | Leaf => []
  | Nd l _ _ L R => locs L ++ l :: locs R
  end.

Fixpoint entries (t : ltree) : list (K * V) :=
  match t with
  | Leaf => []
  | Nd _ k v L R => entries L ++ (k, v) :: entries R
  end.

Fixpoint keys (t : ltree) : list K :=
  match t with
  | Leaf => []
  | Nd _ k _ L R => keys L ++ k :: keys R
  end.

Fixpoint pheight (t : ltree) : Z :=
  match t with
  | Leaf => (-1)%Z
  | Nd _ _ _ L R => (1 + Z.max (pheight L) (pheight R))%Z
  end.

(** Number of nodes on the longest downward path. *)
Fixpoint depth (t : ltree) : nat :=
  match t with
  | Leaf => 0
  | Nd _ _ _ L R => S (Nat.max (depth L) (depth R))
  end.

Definition root_of (t : ltree) : ptr :=
  match t with
  | Leaf => None
  | Nd l _ _ _ _ => Some l
  end.

(** [repr h p par t]: in the heap [h], the pointer [p] is the root of a
    linked structure with the shape and contents of [t], and the root's
    [parent_] link is [par]. *)
Inductive repr (h : gmap loc Node) : ptr → ptr → ltree → Prop :=
  | repr_leaf par : repr h None par Leaf
  | repr_node l par k v pl pr L R :
      h !! l = Some (mkNode k v pl pr par) →
      repr h pl (Some l) L →
      repr h pr (Some l) R →
      repr h (Some l) par (Nd l k v L R).

(** The ordering property, with equal keys on the right. *)
Fixpoint bst (t : ltree) : Prop :=
  match t with
  | Leaf => True
  | Nd _ k _ L R =>
      Forall (λ x, key_ltb x k = true) (keys L) ∧
      Forall (λ x, key_ltb x k = false) (keys R) ∧
      bst L ∧ bst R
  end.

(** The node a top-down descent for [key] stops at. *)
Fixpoint psearch (key : K) (t : ltree) : ptr :=
  match t with
  | Leaf => None
  | Nd l k _ L R =>
      if key_eqb key k then Some l
      else if key_ltb key k then psearch key L
      else psearch key R
  end.

(** Number of links the descent for [key] follows. *)
Fixpoint search_depth (key : K) (t : ltree) : nat :=
  match t with
  | Leaf => 0
  | Nd _ k _ L R =>
      if key_eqb key k then 0
      else if key_ltb key k then S (search_depth key L)
      else S (search_depth key R)
  end.

Fixpoint pinsert (l : loc) (k : K) (v : V) (t : ltree) : ltree :=
  match t with
  | Leaf => Nd l k v Leaf Leaf
  | Nd l' k' v' L R =>
      if key_ltb k k' then Nd l' k' v' (pinsert l k v L) R
      else Nd l' k' v' L (pinsert l k v R)
  end.

(** The leftmost node of [Nd l k v L _]. *)
Fixpoint pmin (l : loc) (k : K) (v : V) (L : ltree) : loc * K * V :=
  match L with
  | Leaf => (l, k, v)
  | Nd l' k' v' L' _ => pmin l' k' v' L'
  end.

(** The tree without the node at address [n]. *)
Fixpoint premove_at (n : loc) (t : ltree) : ltree :=
  match t with
  | Leaf => Leaf
  | Nd l k v L R =>
      if decide (l = n) then
        match L, R with
        | Nd _ _ _ _ _, Nd rl rk rv RL _ =>
            let '(s, sk, sv) := pmin rl rk rv RL in
            Nd l sk sv L (premove_at s R)
        | Nd _ _ _ _ _, Leaf => L
        | Leaf, _ => R
        end
      else Nd l k v (premove_at n L) (premove_at n R)
  end.

Definition premove (key : K) (t : ltree) : ltree :=
  match psearch key t with
  | None => t
  | Some n => premove_at n t
  end.

(** The subtree rooted at address [n]. *)
Fixpoint subtree (n : loc) (t : ltree) : option ltree :=
  match t with
  | Leaf => None
  | Nd l _ _ L R =>
      if decide (l = n) then Some t
      else match subtree n L with
           | Some s => Some s
           | None => subtree n R
           end
  end.

(** The same tree with new contents at address [n]. *)
Fixpoint update_kv (n : loc) (k' : K) (v' : V) (t : ltree) : ltree :=
  match t with
  | Leaf => Leaf
  | Nd l k v L R =>
      if decide (l = n) then Nd l k' v' L R
      else Nd l k v (update_kv n k' v' L) (update_kv n k' v' R)
  end.

(** Shape and contents, forgetting addresses. *)
Fixpoint same_shape (t t' : ltree) : Prop :=
  match t, t' with
  | Leaf, Leaf => True
  | Nd _ k v L R, Nd _ k' v' L' R' =>
      k = k' ∧ v = v' ∧ same_shape L L' ∧ same_shape R R'
  | _, _ => False
  end.

End Model.

(** ** Programs over tree objects *)

(** One call a client can make on a tree object. *)
Inductive op (K V : Type) :=
  | Construct
  | CopyConstruct (original : obj)
  | Assign (this argument : obj)
  | Destroy (this : obj)
  | Insert (this : obj) (key : K) (value : V)
  | Remove (this : obj) (key : K)
  | Clear (this : obj).
Arguments Construct {K V}.
Arguments CopyConstruct {K V} original.
Arguments Assign {K V} this argument.
Arguments Destroy {K V} this.
Arguments Insert {K V} this key value.
Arguments Remove {K V} this key.
Arguments Clear {K V} this.

Section Programs.
Context {K V : Type} `{KeyType K}.
Local Abbreviation Node := (Node K V).
Local Abbreviation world := (world K V).
Local Abbreviation M := (M K V).
Local Abbreviation op := (op K V).

Definition exec (mode : impl) (fuel : nat) (o : op) : M unit :=
  match o with
  | Construct => construct;; mret tt
  | CopyConstruct original => copy_construct fuel original;; mret tt
  | Assign this argument => assign fuel this argument
  | Destroy this => destroy fuel this
  | Insert this key value => insert mode fuel this key value
  | Remove this key => remove mode fuel this key
  | Clear this => clear fuel this
  end.

Fixpoint run (mode : impl) (fuel : nat) (os : list op) : M unit :=
  match os with
  | [] => mret tt
  | o :: os => exec mode fuel o;; run mode fuel os
  end.

(** The objects a call names exist. *)
Definition live (w : world) (o : op) : Prop :=
  match o with
  | Construct => True
  | CopyConstruct original => is_Some (trees w !! original)
  | Assign this argument =>
      is_Some (trees w !! this) ∧ is_Some (trees w !! argument)
  | Destroy this | Insert this _ _ | Remove this _ | Clear this =>
      is_Some (trees w !! this)
  end.

(** The object a call writes to, if it is an existing one. *)
Definition target (o : op) : option obj :=
  match o with
  | Construct | CopyConstruct _ => None
  | Assign this _ | Destroy this | Insert this _ _ | Remove this _ | Clear this =>
      Some this
  end.

(** The worlds a client can bring about, starting with no objects and an
    empty free store, by calls on objects that exist. *)
Inductive reachable (mode : impl) : world → Prop :=
  | reachable_empty : reachable mode empty_world
  | reachable_step w o fuel w' :
      reachable mode w →
      live w o →
      exec mode fuel o w = Some (tt, w') →
      reachable mode w'.

#[global] Instance live_dec w o : Decision (live w o).
Proof. destruct o; simpl; apply _. Defined.

(** [run], refusing calls on objects that do not exist. *)
Fixpoint trace (mode : impl) (fuel : nat) (os : list op) (w : world)
  : option world :=
  match os with
  | [] => Some w
  | o :: os =>
      if decide (live w o) then
        match exec mode fuel o w with
        | Some (_, w') => trace mode fuel os w'
        | None => None
        end
      else None
  end.

(** Insert the pairs of [kvs] one after the other. *)
Fixpoint insert_all (mode : impl) (fuel : nat) (this : obj) (kvs : list (K * V))
  : M unit :=
  match kvs with
  | [] => mret tt
  | (key, value) :: kvs =>
      insert mode fuel this key value;; insert_all mode fuel this kvs
  end.

(** Build a tree from [kvs] and traverse it. *)
Definition inorder_after_inserts (mode : impl) (fuel : nat) (kvs : list (K * V))
  : M (list (K * V)) :=
  this ← construct;
  insert_all mode fuel this kvs;;
  printInorder fuel this.

(** [o] is one of the mutating calls insert, remove or clear on [t]. *)
Definition mutates (t : obj) (o : op) : Prop :=
  match o with
  | Insert this _ _ | Remove this _ | Clear this => this = t
  | _ => False
  end.

(** [reaches h p n]: following child links from [p] leads to the
    allocated node [n] (possibly [p] itself). *)
Inductive reaches (h : gmap loc Node) : ptr → loc → Prop :=
  | reaches_here l nd :
      h !! l = Some nd → reaches h (Some l) l
  | reaches_left l nd n :
      h !! l = Some nd → reaches h (left_ nd) n → reaches h (Some l) n
  | reaches_right l nd n :
      h !! l = Some nd → reaches h (right_ nd) n → reaches h (Some l) n.

(** Every key below the left link of [n] is smaller than the key of [n],
    and no key below its right link is. *)
Definition ordered_at (h : gmap loc Node) (n : loc) : Prop :=
  ∀ nd, h !! n = Some nd →
    (∀ m md, reaches h (left_ nd) m → h !! m = Some md →
       key_ltb (key_ md) (key_ nd) = true) ∧
    (∀ m md, reaches h (right_ nd) m → h !! m = Some md →
       key_ltb (key_ md) (key_ nd) = false).

(** The children of [n] point back to [n]. *)
Definition linked_at (h : gmap loc Node) (n : loc) : Prop :=
  ∀ nd, h !! n = Some nd →
    (∀ c, left_ nd = Some c → ∃ cd, h !! c = Some cd ∧ parent_ cd = Some n) ∧
    (∀ c, right_ nd = Some c → ∃ cd, h !! c = Some cd ∧ parent_ cd = Some n).

Definition root_unparented (h : gmap loc Node) (r : ptr) : Prop :=
  ∀ l, r = Some l → ∃ nd, h !! l = Some nd ∧ parent_ nd = None.

(** [descent h key p n]: starting at [p] and going left when [key] is
    smaller than the key at hand and right otherwise, [n] is the first
    node whose key equals [key]. *)
Inductive descent (h : gmap loc Node) (key : K) : ptr → loc → Prop :=
  | descent_found l nd :
      h !! l = Some nd → key_eqb key (key_ nd) = true →
      descent h key (Some l) l
  | descent_left l nd n :
      h !! l = Some nd → key_eqb key (key_ nd) = false →
      key_ltb key (key_ nd) = true →
      descent h key (left_ nd) n → descent h key (Some l) n
  | descent_right l nd n :
      h !! l = Some nd → key_eqb key (key_ nd) = false →
      key_ltb key (key_ nd) = false →
      descent h key (right_ nd) n → descent h key (Some l) n.

(** [leftmost h p s]: [s] is the last node on the chain of left links
    that starts at [p]. *)
Inductive leftmost (h : gmap loc Node) : ptr → loc → Prop :=
  | leftmost_here l nd :
      h !! l = Some nd → left_ nd = None → leftmost h (Some l) l
  | leftmost_step l nd s :
      h !! l = Some nd → leftmost h (left_ nd) s → leftmost h (Some l) s.

(** No key stored under [p] equals [key]. *)
Definition absent (h : gmap loc Node) (p : ptr) (key : K) : Prop :=
  ∀ n nd, reaches h p n → h !! n = Some nd → key_ nd ≠ key.

(** What an observer calling [printInorder] and [getHeight] sees. *)
Definition inorder_of (fuel : nat) (this : obj) (w : world) : option (list (K * V)) :=
  fst <$> printInorder fuel this w.
Definition height_of (fuel : nat) (this : obj) (w : world) : option Z :=
  fst <$> getHeight fuel this w.

(** The state invariant behind the claims: every tree object stands for
    an ordered tree without sharing, and distinct objects share no node. *)
Definition tree_of (w : world) (this : obj) (t : ltree K V) : Prop :=
  ∃ r, trees w !! this = Some r ∧ repr (nodes w) r None t ∧ NoDup (locs t).

Definition wf (w : world) : Prop :=
  (∀ this r, trees w !! this = Some r → ∃ t, tree_of w this t ∧ bst t) ∧
  (∀ i j ti tj, i ≠ j → tree_of w i ti → tree_of w j tj → locs ti ## locs tj).

End Programs.

(** ** The demonstration program *)

Section Demo.
Local Open Scope string_scope.

(** [main], returning what it prints: the grade found, the traversal, and
    whether each of the two height checks complained. *)
Definition main (mode : impl) (fuel : nat)
  : M string Q (search_result Q * list (string * Q) * bool * bool) :=
  studentGrades ← construct;
  gradeBook ← construct;
  insert mode fuel studentGrades "Ricardo" 2.5%Q;;
  insert mode fuel studentGrades "Ellen" 3.5%Q;;
  insert mode fuel studentGrades "Chen" 2.5%Q;;
  insert mode fuel studentGrades "Kevin" 3.25%Q;;
  insert mode fuel studentGrades "Kumar" 3.05%Q;;
  assign fuel gradeBook studentGrades;;
  value ← search mode fuel studentGrades "Ellen";
  printed ← printInorder fuel studentGrades;
  h1 ← getHeight fuel gradeBook;
  remove mode fuel gradeBook "Ellen";;
  h2 ← getHeight fuel gradeBook;
  mret (value, printed, bool_decide (h1 ≠ 3%Z), bool_decide (h2 ≠ 2%Z)).

(** The five insertions of [main] into a fresh tree, followed by the
    three queries on it. *)
Definition scenario (mode : impl) (fuel : nat)
  : M string Q (Z * search_result Q * list string) :=
  studentGrades ← construct;
  insert mode fuel studentGrades "Ricardo" 2.5%Q;;
  insert mode fuel studentGrades "Ellen" 3.5%Q;;
  insert mode fuel studentGrades "Chen" 2.5%Q;;
  insert mode fuel studentGrades "Kevin" 3.25%Q;;
  insert mode fuel studentGrades "Kumar" 3.05%Q;;
  h ← getHeight fuel studentGrades;
  value ← search mode fuel studentGrades "Ellen";
  printed ← printInorder fuel studentGrades;
  mret (h, value, printed.*1).

(** The calls of [main] that change the store, up to the assignment. *)
Definition demo_ops : list (op string Q) :=
  [ Construct; Construct;
    Insert 1%positive "Ricardo" 2.5%Q;
    Insert 1%positive "Ellen" 3.5%Q;
    Insert 1%positive "Chen" 2.5%Q;
    Insert 1%positive "Kevin" 3.25%Q;
    Insert 1%positive "Kumar" 3.05%Q;
    Assign 2%positive 1%positive ].

Definition demo_world (mode : impl) : world string Q :=
  default empty_world (trace mode 6 demo_ops empty_world).

(** A third tree, copy-constructed from [studentGrades], ... *)
Definition demo_copied (mode : impl) : obj * world string Q :=
  default (1%positive, empty_world) (copy_construct 6 1%positive (demo_world mode)).

(** ... and what a client then does to the copy. *)
Definition demo_copy_ops : list (op string Q) :=
  [ Remove 3%positive "Ellen";
    Insert 3%positive "Zoe" 4%Q;
    Remove 3%positive "Ricardo";
    Clear 3%positive;
    Insert 3%positive "Ada" 1.5%Q ].

Definition demo_mutated (mode : impl) : world string Q :=
  default empty_world (snd <$> run mode 6 demo_copy_ops (demo_copied mode).2).

(** What [studentGrades] and [gradeBook] print after the assignment. *)
Definition demo_grades : list (string * Q) :=
  [("Chen", 2.5%Q); ("Ellen", 3.5%Q); ("Kevin", 3.25%Q); ("Kumar", 3.05%Q);
   ("Ricardo", 2.5%Q)].

(** The node of "Kevin" in [studentGrades]: no left child, "Kumar" to the
    right, "Ellen" above. *)
Definition demo_kevin : Node string Q :=
  mkNode "Kevin" 3.25%Q None (Some 5%positive) (Some 2%positive).

End Demo.


(** ** Observations and reference functions

    What a client observes of a tree once a call has enough fuel, the
    list functions the member functions are compared with, and a few
    more client programs. *)

Section Observations.
Context {K V : Type} `{KeyType K}.
Local Abbreviation world := (world K V).
Local Abbreviation ltree := (ltree K V).

(** What the calls return once they have enough fuel. *)
Definition finds (mode : impl) (w : world) (this : obj) (key : K)
    (res : search_result V) : Prop :=
  ∃ f0 : nat, ∀ d : nat, search mode (f0 + d) this key w = Some (res, w).

Definition prints (w : world) (this : obj) (es : list (K * V)) : Prop :=
  ∃ f0 : nat, ∀ d : nat, inorder_of (f0 + d) this w = Some es.

Definition has_height (w : world) (this : obj) (z : Z) : Prop :=
  ∃ f0 : nat, ∀ d : nat, height_of (f0 + d) this w = Some z.

(** A found value, or the exception. *)
Definition outcome (o : option V) : search_result V :=
  match o with
  | Some v => Returns v
  | None => Throws_invalid_argument
  end.

(** The value at the node a top-down descent for [key] stops at. *)
Fixpoint plookup (key : K) (t : ltree) : option V :=
  match t with
  | Leaf => None
  | Nd _ k v L R =>
      if key_eqb key k then Some v
      else if key_ltb key k then plookup key L
      else plookup key R
  end.

(** Insert into a key-sorted list, behind every entry whose key is not
    greater. *)
Fixpoint sorted_insert (k : K) (v : V) (es : list (K * V)) : list (K * V) :=
  match es with
  | [] => [(k, v)]
  | (k', v') :: es' =>
      if key_ltb k k' then (k, v) :: es
      else (k', v') :: sorted_insert k v es'
  end.

(** Insertion sort by key that keeps equal keys in their given order. *)
Definition stable_sort (kvs : list (K * V)) : list (K * V) :=
  foldl (λ es kv, sorted_insert kv.1 kv.2 es) [] kvs.

(** The value of the first pair with key [key]. *)
Fixpoint assoc (key : K) (kvs : list (K * V)) : option V :=
  match kvs with
  | [] => None
  | (k, v) :: kvs => if key_eqb key k then Some v else assoc key kvs
  end.

(** Drop the first pair with key [key], if there is one. *)
Fixpoint delete_first (key : K) (es : list (K * V)) : list (K * V) :=
  match es with
  | [] => []
  | (k, v) :: es' => if key_eqb key k then es' else (k, v) :: delete_first key es'
  end.

(** [inserted kvs t t']: inserting the pairs of [kvs] into [t], one after
    the other at some addresses, gives [t']. *)
Inductive inserted : list (K * V) → ltree → ltree → Prop :=
  | inserted_nil t : inserted [] t t
  | inserted_cons l k v kvs t t' :
      inserted kvs (pinsert l k v t) t' → inserted ((k, v) :: kvs) t t'.

(** Every left link is null. *)
Fixpoint right_spine (t : ltree) : Prop :=
  match t with
  | Leaf => True
  | Nd _ _ _ L R => L = Leaf ∧ right_spine R
  end.

(** Build a tree from [kvs], then search it or measure it. *)
Definition search_after_inserts (mode : impl) (fuel : nat) (kvs : list (K * V))
    (key : K) : M K V (search_result V) :=
  this ← construct;
  insert_all mode fuel this kvs;;
  search mode fuel this key.

Definition height_after_inserts (mode : impl) (fuel : nat) (kvs : list (K * V))
  : M K V Z :=
  this ← construct;
  insert_all mode fuel this kvs;;
  getHeight fuel this.

(** Remove the keys of [ks] one after the other. *)
Fixpoint remove_all (mode : impl) (fuel : nat) (this : obj) (ks : list K)
  : M K V unit :=
  match ks with
  | [] => mret tt
  | key :: ks => remove mode fuel this key;; remove_all mode fuel this ks
  end.

(** [owner w this x]: the node [x] belongs to the tree of [this]. *)
Definition owner (w : world) (this : obj) (x : loc) : Prop :=
  ∃ r, trees w !! this = Some r ∧ reaches (nodes w) r x.

(** Every allocated node belongs to some tree. *)
Definition no_garbage (w : world) : Prop :=
  ∀ x, is_Some (nodes w !! x) → ∃ this, owner w this x.

End Observations.

(** * Proofs *)

Section Proofs.
Context {K V : Type} `{KeyType K}.
Local Abbreviation Node := (Node K V).
Local Abbreviation world := (world K V).
Local Abbreviation M := (M K V).
Local Abbreviation ltree := (ltree K V).
Local Abbreviation op := (op K V).
Implicit Types (h : gmap loc Node) (T : gmap obj ptr) (t L R : ltree).
Implicit Types (p q par : ptr) (w : world) (n l : loc).

Ltac munfold :=
  unfold set_key, set_value, set_left, set_right, set_parent in *;
  unfold mbind, M_bind, bind, mret, M_ret, ret, stuck,
    deref, store, new_node, delete_node, get_root, set_root,
    new_tree, drop_tree in *;
  simpl in *.

(** ** Keys *)

Lemma key_eqb_refl (a : K) : key_eqb a a = true.
Proof. by apply key_eqb_eq. Qed.

Lemma key_eqb_neq (a b : K) : key_eqb a b = false ↔ a ≠ b.
Proof.
  destruct (key_eqb a b) eqn:E.
  - apply key_eqb_eq in E. split; [done | congruence].
  - split; [|done]. intros _ ->. by rewrite key_eqb_refl in E.
Qed.

Lemma key_ltb_asym (a b : K) : key_ltb a b = true → key_ltb b a = false.
Proof.
  intros Hab. destruct (key_ltb b a) eqn:Hba; [|done].
  pose proof (key_ltb_trans _ _ _ Hab Hba) as Haa.
  by rewrite key_ltb_irrefl in Haa.
Qed.

(** [a ≤ b] and [b < c] give [a < c]. *)
Lemma key_le_lt_trans (a b c : K) :
  key_ltb b a = false → key_ltb b c = true → key_ltb a c = true.
Proof.
  intros Hba Hbc. destruct (key_ltb a b) eqn:Hab.
  - by eapply key_ltb_trans.
  - by rewrite (key_ltb_total a b).
Qed.

(** [a < b] and [b ≤ c] give [a < c]. *)
Lemma key_lt_le_trans (a b c : K) :
  key_ltb a b = true → key_ltb c b = false → key_ltb a c = true.
Proof.
  intros Hab Hcb. destruct (key_ltb b c) eqn:Hbc.
  - by eapply key_ltb_trans.
  - by rewrite <- (key_ltb_total b c).
Qed.

(** [a ≤ b] and [b ≤ c] give [a ≤ c]. *)
Lemma key_le_trans (a b c : K) :
  key_ltb b a = false → key_ltb c b = false → key_ltb c a = false.
Proof.
  intros Hba Hcb. destruct (key_ltb c a) eqn:Hca; [|done].
  pose proof (key_le_lt_trans _ _ _ Hcb Hca) as Hba'. congruence.
Qed.

(** ** Linked structures and the trees they stand for *)

Lemma repr_root h p par t : repr h p par t → p = root_of t.
Proof. by destruct 1. Qed.

Lemma repr_null h par t : repr h None par t → t = Leaf.
Proof. by inversion 1. Qed.

Lemma repr_frame h h' p par t :
  repr h p par t → (∀ x, x ∈ locs t → h' !! x = h !! x) → repr h' p par t.
Proof.
  induction 1 as [|l par k v pl pr L R Hl _ IHL _ IHR]; intros Hfr;
    [constructor|].
  econstructor.
  - rewrite Hfr; [done|]. simpl. set_solver.
  - apply IHL. intros x Hx. apply Hfr. simpl. set_solver.
  - apply IHR. intros x Hx. apply Hfr. simpl. set_solver.
Qed.

Lemma repr_alloc h p par t x :
  repr h p par t → x ∈ locs t → is_Some (h !! x).
Proof.
  induction 1 as [|l par k v pl pr L R Hl _ IHL _ IHR]; simpl; [set_solver|].
  rewrite elem_of_app, elem_of_cons. intros [?|[->|?]]; eauto.
Qed.

Lemma repr_functional h p par par' t t' :
  repr h p par t → repr h p par' t' → t = t'.
Proof.
  intros Hr. revert par' t'.
  induction Hr as [|l par k v pl pr L R Hl _ IHL _ IHR]; intros par' t' Hr';
    inversion Hr'; subst; [done|].
  simplify_eq. f_equal; eauto.
Qed.

Lemma repr_reparent h l par par' t nd :
  repr h (Some l) par t → NoDup (locs t) → h !! l = Some nd →
  repr (<[l := with_parent nd par']> h) (Some l) par' t.
Proof.
  intros Hr Hnd Hl. inversion Hr as [|? ? k v pl pr L R Hl' HL HR]; subst.
  simplify_eq. simpl in Hnd.
  apply NoDup_app in Hnd as (_ & HnL & [HnR _]%NoDup_cons).
  econstructor.
  - by rewrite lookup_insert_eq.
  - eapply repr_frame; [done|]. intros x Hx.
    rewrite lookup_insert_ne; [done|]. intros ->. apply (HnL _ Hx). set_solver.
  - eapply repr_frame; [done|]. intros x Hx.
    rewrite lookup_insert_ne; [done|]. by intros ->.
Qed.

Lemma subtree_root n t s : subtree n t = Some s → root_of s = Some n.
Proof.
  induction t as [|l k v L IHL R IHR]; simpl; [done|].
  case_decide; [by intros [= <-]; subst|].
  destruct (subtree n L); [intros [= <-]; eauto | eauto].
Qed.

Lemma subtree_elem n t : n ∈ locs t → is_Some (subtree n t).
Proof.
  induction t as [|l k v L IHL R IHR]; simpl; [set_solver|].
  rewrite elem_of_app, elem_of_cons. intros Hn.
  case_decide; [eauto|].
  destruct Hn as [Hn|[->|Hn]]; [|done|].
  - destruct (IHL Hn) as [s ->]. eauto.
  - destruct (subtree n L); eauto.
Qed.

Lemma subtree_locs n t s x : subtree n t = Some s → x ∈ locs s → x ∈ locs t.
Proof.
  induction t as [|l k v L IHL R IHR]; simpl; [done|].
  case_decide; [by intros [= <-]|].
  destruct (subtree n L) eqn:E.
  - intros [= <-] Hx. set_solver.
  - intros E' Hx. set_solver.
Qed.

Lemma subtree_self_elem n t s : subtree n t = Some s → n ∈ locs t.
Proof.
  intros Hs. eapply subtree_locs; [done|].
  apply subtree_root in Hs. destruct s; simplify_eq/=. set_solver.
Qed.

Lemma repr_subtree h p par t n s :
  repr h p par t → subtree n t = Some s → ∃ par', repr h (Some n) par' s.
Proof.
  induction 1 as [|l par k v pl pr L R Hl HL IHL HR IHR]; simpl; [done|].
  case_decide; [intros [= <-]; subst; eexists; by econstructor|].
  destruct (subtree n L); [intros [= <-]; eauto | eauto].
Qed.

Lemma subtree_NoDup n t s : subtree n t = Some s → NoDup (locs t) → NoDup (locs s).
Proof.
  induction t as [|l k v L IHL R IHR]; simpl; [done|].
  intros Hs Hnd. case_decide; [by simplify_eq|].
  apply NoDup_app in Hnd as (HL & _ & [_ HR]%NoDup_cons).
  destruct (subtree n L); [simplify_eq; eauto | eauto].
Qed.

Lemma bst_subtree n t s : subtree n t = Some s → bst t → bst s.
Proof.
  induction t as [|l k v L IHL R IHR]; simpl; [done|].
  intros Hs Hb. case_decide; [by simplify_eq|].
  destruct Hb as (_ & _ & HL & HR).
  destruct (subtree n L); [simplify_eq; eauto | eauto].
Qed.

Lemma entries_locs_length t : length (entries t) = length (locs t).
Proof.
  induction t as [|l k v L IHL R IHR]; simpl; [done|].
  rewrite !length_app. simpl. lia.
Qed.

Lemma repr_key_elem h p par t x nd :
  repr h p par t → x ∈ locs t → h !! x = Some nd →
  (key_ nd, value_ nd) ∈ entries t.
Proof.
  induction 1 as [|l par k v pl pr L R Hl _ IHL _ IHR]; simpl; [set_solver|].
  rewrite elem_of_app, elem_of_cons. intros [?|[->|?]] Hx.
  - set_solver.
  - simplify_eq. simpl. set_solver.
  - set_solver.
Qed.

Lemma keys_entries t : keys t = (entries t).*1.
Proof.
  induction t as [|l k v L IHL R IHR]; [done|].
  cbn [keys entries]. by rewrite fmap_app, fmap_cons, IHL, IHR.
Qed.

Lemma entries_key_elem t k v : (k, v) ∈ entries t → k ∈ keys t.
Proof.
  intros Hkv. rewrite keys_entries. apply list_elem_of_fmap. by exists (k, v).
Qed.

Lemma repr_entry_elem h p par t k v :
  repr h p par t → (k, v) ∈ entries t →
  ∃ x nd, x ∈ locs t ∧ h !! x = Some nd ∧ key_ nd = k ∧ value_ nd = v.
Proof.
  induction 1 as [|l par k' v' pl pr L R Hl _ IHL _ IHR]; simpl; [set_solver|].
  rewrite elem_of_app, elem_of_cons. intros [Hin|[[= -> ->]|Hin]].
  - destruct (IHL Hin) as (x & nd & ? & ? & ? & ?). exists x, nd. set_solver.
  - eexists l, _. split; [set_solver|]. by split.
  - destruct (IHR Hin) as (x & nd & ? & ? & ? & ?). exists x, nd. set_solver.
Qed.

Lemma repr_reaches h p par t n :
  repr h p par t → reaches h p n ↔ n ∈ locs t.
Proof.
  intros Hr. split.
  - intros Hre. revert par t Hr.
    induction Hre as [l nd Hl|l nd n Hl _ IH|l nd n Hl _ IH]; intros par t Hr;
      inversion Hr; subst; simplify_eq/=.
    + set_solver.
    + apply elem_of_app. left. eauto.
    + apply elem_of_app. right. apply elem_of_cons. right. eauto.
  - induction Hr as [|l par k v pl pr L R Hl _ IHL _ IHR]; simpl; [set_solver|].
    rewrite elem_of_app, elem_of_cons. intros [?|[->|?]].
    + eapply reaches_left; [done|]. simpl. eauto.
    + by eapply reaches_here.
    + eapply reaches_right; [done|]. simpl. eauto.
Qed.

(** ** Queries *)

Lemma searchRecursive_exact t : ∀ fuel h T p par key,
  repr h p par t →
  searchRecursive fuel p key (World h T) =
    if bool_decide (search_depth key t < fuel)
    then Some (psearch key t, World h T) else None.
Proof.
  induction t as [|l k v L IHL R IHR]; intros fuel h T p par key Hr;
    inversion Hr as [|? ? ? ? pl pr ? ? Hl HL HR]; subst.
  - destruct fuel; reflexivity.
  - destruct fuel; simpl. { repeat case_match; reflexivity. }
    munfold. rewrite Hl. simpl.
    destruct (key_eqb key k); [done|].
    destruct (key_ltb key k).
    + erewrite IHL by done. repeat case_bool_decide; try done; lia.
    + erewrite IHR by done. repeat case_bool_decide; try done; lia.
Qed.

(** The loop and the recursion agree on every store, well-formed or not,
    and for every amount of fuel. *)
Lemma search_loop_recursive fuel : ∀ cur key w,
  searchIterative_loop fuel cur key w = searchRecursive fuel cur key w.
Proof.
  induction fuel as [|fuel IH]; intros cur key w; [done|].
  destruct cur as [c|]; simpl; [|done].
  munfold. destruct (nodes w !! c) as [nd|]; [|done].
  destruct (key_eqb key (key_ nd)); [done|].
  destruct (key_ltb key (key_ nd)); apply IH.
Qed.

Lemma find_node_modes fuel this key w :
  find_node USING_ITERATIVE_FUNCTIONS fuel this key w =
  find_node USING_RECURSIVE_FUNCTIONS fuel this key w.
Proof.
  unfold find_node, searchIterative. munfold.
  destruct (trees w !! this); [|done]. apply search_loop_recursive.
Qed.

Lemma find_node_exact mode fuel h T this r t key :
  T !! this = Some r → repr h r None t →
  find_node mode fuel this key (World h T) =
    if bool_decide (search_depth key t < fuel)
    then Some (psearch key t, World h T) else None.
Proof.
  intros Ht Hr. destruct mode; [rewrite find_node_modes|];
    unfold find_node; munfold; rewrite Ht; by eapply searchRecursive_exact.
Qed.

Lemma search_depth_le key t : search_depth key t ≤ depth t.
Proof.
  induction t as [|l k v L IHL R IHR]; simpl; [done|].
  repeat case_match; lia.
Qed.

Lemma printInorder_node_exact t : ∀ fuel h T p par,
  repr h p par t →
  printInorder_node fuel p (World h T) =
    if bool_decide (depth t < fuel) then Some (entries t, World h T) else None.
Proof.
  induction t as [|l k v L IHL R IHR]; intros fuel h T p par Hr;
    inversion Hr as [|? ? ? ? pl pr ? ? Hl HL HR]; subst.
  - destruct fuel; reflexivity.
  - destruct fuel; simpl. { reflexivity. }
    munfold. rewrite Hl. simpl.
    erewrite IHL by done. case_bool_decide as HdL.
    + simpl. rewrite Hl. simpl. erewrite IHR by done.
      case_bool_decide; repeat case_bool_decide; try done; lia.
    + case_bool_decide; [lia | done].
Qed.

Lemma getHeight_node_exact t : ∀ fuel h T p par,
  repr h p par t →
  getHeight_node fuel p (World h T) =
    if bool_decide (depth t < fuel) then Some (pheight t, World h T) else None.
Proof.
  induction t as [|l k v L IHL R IHR]; intros fuel h T p par Hr;
    inversion Hr as [|? ? ? ? pl pr ? ? Hl HL HR]; subst.
  - destruct fuel; reflexivity.
  - destruct fuel; simpl. { reflexivity. }
    munfold. rewrite Hl. simpl.
    erewrite IHL by done. case_bool_decide as HdL.
    + erewrite IHR by done.
      case_bool_decide; repeat case_bool_decide; try done; lia.
    + case_bool_decide; [lia | done].
Qed.

Lemma pheight_depth t : pheight t = (Z.of_nat (depth t) - 1)%Z.
Proof. induction t; simpl; lia. Qed.

Lemma inorder_of_exact fuel w this t :
  tree_of w this t →
  inorder_of fuel this w =
    if bool_decide (depth t < fuel) then Some (entries t) else None.
Proof.
  intros (r & Ht & Hr & _). destruct w as [h T]. simpl in *.
  unfold inorder_of, printInorder. munfold. rewrite Ht.
  erewrite printInorder_node_exact by done. by case_bool_decide.
Qed.

Lemma height_of_exact fuel w this t :
  tree_of w this t →
  height_of fuel this w =
    if bool_decide (depth t < fuel) then Some (pheight t) else None.
Proof.
  intros (r & Ht & Hr & _). destruct w as [h T]. simpl in *.
  unfold height_of, getHeight. munfold. rewrite Ht.
  erewrite getHeight_node_exact by done. by case_bool_decide.
Qed.

(** Searching never writes. *)
Lemma searchRecursive_readonly fuel : ∀ node key w a w',
  searchRecursive fuel node key w = Some (a, w') → w' = w.
Proof.
  induction fuel as [|fuel IH]; intros node key w a w'; [done|].
  destruct node as [c|]; simpl; [|by intros [= _ <-]].
  munfold. destruct (nodes w !! c) as [nd|]; [|done].
  destruct (key_eqb key (key_ nd)); [by intros [= _ <-]|].
  destruct (key_ltb key (key_ nd)); apply IH.
Qed.

Lemma find_node_readonly mode fuel this key w a w' :
  find_node mode fuel this key w = Some (a, w') → w' = w.
Proof.
  destruct mode; [rewrite find_node_modes|]; unfold find_node; munfold;
    (destruct (trees w !! this); [|done]); apply searchRecursive_readonly.
Qed.

Lemma search_readonly mode fuel this key w a w' :
  search mode fuel this key w = Some (a, w') → w' = w.
Proof.
  unfold search. munfold.
  destruct (find_node mode fuel this key w) as [[node w1]|] eqn:E; [|done].
  apply find_node_readonly in E as ->.
  destruct node as [c|]; simpl; [|by intros [= _ <-]].
  destruct (nodes w !! c); [by intros [= _ <-] | done].
Qed.

(** ** Searching an ordered tree *)

Lemma psearch_elem key t n : psearch key t = Some n → n ∈ locs t.
Proof.
  induction t as [|l k v L IHL R IHR]; simpl; [done|].
  repeat case_match; [intros [= <-]| |]; set_solver.
Qed.

Lemma psearch_subtree key t n :
  psearch key t = Some n → NoDup (locs t) →
  ∃ v L R, subtree n t = Some (Nd n key v L R).
Proof.
  induction t as [|l k v L IHL R IHR]; simpl; [done|].
  intros Hs (HL & Hd & [HlR HR]%NoDup_cons)%NoDup_app.
  destruct (key_eqb key k) eqn:Ek.
  - apply key_eqb_eq in Ek as <-. simplify_eq. rewrite decide_True by done. eauto.
  - destruct (key_ltb key k).
    + pose proof (psearch_elem _ _ _ Hs) as Hn.
      rewrite decide_False by (intros ->; apply (Hd _ Hn); set_solver).
      destruct (IHL Hs HL) as (v' & L' & R' & ->). eauto.
    + pose proof (psearch_elem _ _ _ Hs) as Hn.
      rewrite decide_False by (by intros ->).
      destruct (subtree n L) eqn:EL.
      { apply subtree_self_elem in EL. exfalso. apply (Hd _ EL). set_solver. }
      eauto.
Qed.

Lemma psearch_None key t : bst t → psearch key t = None ↔ key ∉ keys t.
Proof.
  induction t as [|l k v L IHL R IHR]; simpl.
  { intros _. split; [set_solver | done]. }
  intros (HltL & HgeR & HbL & HbR).
  rewrite elem_of_app, elem_of_cons.
  destruct (key_eqb key k) eqn:Ek.
  { apply key_eqb_eq in Ek. split; [done | tauto]. }
  apply key_eqb_neq in Ek.
  destruct (key_ltb key k) eqn:El.
  - rewrite (IHL HbL). split; [|tauto].
    intros HnL [?|[?|HR]]; [done..|].
    rewrite Forall_forall in HgeR. specialize (HgeR _ HR). congruence.
  - rewrite (IHR HbR). split; [|tauto].
    intros HnR [HL|[?|?]]; [|done..].
    rewrite Forall_forall in HltL. specialize (HltL _ HL). congruence.
Qed.

Lemma repr_descent h p par t key n :
  repr h p par t → descent h key p n ↔ psearch key t = Some n.
Proof.
  intros Hr. split.
  - intros Hd. revert par t Hr.
    induction Hd as [l nd Hl Hk|l nd n Hl Hk Hlt _ IH|l nd n Hl Hk Hlt _ IH];
      intros par t Hr; inversion Hr; subst; simplify_eq/=;
      rewrite Hk; [done| |]; rewrite Hlt; eauto.
  - induction Hr as [|l par k v pl pr L R Hl _ IHL _ IHR]; simpl; [done|].
    destruct (key_eqb key k) eqn:Ek.
    { intros [= <-]. by eapply descent_found. }
    destruct (key_ltb key k) eqn:El; intros Hs.
    + eapply descent_left; [done..|]. simpl. eauto.
    + eapply descent_right; [done..|]. simpl. eauto.
Qed.

Lemma repr_absent h p par t key :
  repr h p par t → absent h p key ↔ key ∉ keys t.
Proof.
  intros Hr. unfold absent. split.
  - intros Ha Hin. rewrite keys_entries in Hin.
    apply list_elem_of_fmap in Hin as ([k v] & -> & Hin).
    destruct (repr_entry_elem _ _ _ _ _ _ Hr Hin) as (x & nd & Hx & Hl & Hk & _).
    eapply Ha; [|done..]. by eapply repr_reaches.
  - intros Hnin n nd Hre Hl <-. apply Hnin.
    eapply entries_key_elem, repr_key_elem; [done| |done].
    by eapply repr_reaches.
Qed.

(** ** More fuel never changes a result *)

Definition mono {A} (f : nat → M A) : Prop :=
  ∀ (m n : nat) w r, n ≤ m → f n w = Some r → f m w = Some r.

Lemma mono_const {A} (c : M A) : mono (λ _, c).
Proof. by intros m n w r _. Qed.

Lemma mono_bind {A B} (f : nat → M A) (g : A → nat → M B) :
  mono f → (∀ a, mono (g a)) → mono (λ fuel, f fuel ≫= λ a, g a fuel).
Proof.
  intros Hf Hg m n w r Hle. unfold mbind, M_bind, bind.
  destruct (f n w) as [[a w1]|] eqn:E; [|done].
  rewrite (Hf m n w _ Hle E). by apply Hg.
Qed.

(** Step through a computation that succeeded with [n] units of fuel,
    replaying it with [m]; [up] lifts recursive calls from [n] to [m]. *)
Ltac mono_step up :=
  match goal with
  | Hf : Some _ = Some _ |- _ => injection Hf as <-
  | Hf : None = Some _ |- _ => discriminate Hf
  | Hf : context [match ?X with _ => _ end] |- _ =>
      let E := fresh "E" in
      destruct X eqn:E; simpl in Hf |- *;
      try (up E; rewrite E; simpl)
  end.

Ltac mono_fix up :=
  let n := fresh "n" in let IH := fresh "IH" in
  let m := fresh "m" in let Hle := fresh "Hle" in
  intros m n; revert m; induction n as [|n IH]; intros m;
  [intros; discriminate|];
  destruct m as [|m]; [intros; lia|];
  intros; simpl in *; munfold;
  repeat mono_step ltac:(fun E => first [ eapply (IH m) in E; [|lia] | up m E ]);
  try done; try (eapply IH; [lia | eassumption]).

Lemma searchRecursive_mono : ∀ (m fuel : nat) node key w r,
  fuel ≤ m → searchRecursive fuel node key w = Some r →
  searchRecursive m node key w = Some r.
Proof. mono_fix ltac:(fun m E => fail). Qed.

Lemma find_node_mono mode this key : mono (λ fuel, find_node mode fuel this key).
Proof.
  intros m fuel w r Hle. destruct mode; [rewrite !find_node_modes|];
    unfold find_node; munfold; (destruct (trees w !! this); [|done]);
    by apply searchRecursive_mono.
Qed.

Lemma insertIterative_loop_mono : ∀ (m fuel : nat) cur node w r,
  fuel ≤ m → insertIterative_loop fuel cur node w = Some r →
  insertIterative_loop m cur node w = Some r.
Proof. mono_fix ltac:(fun m E => fail). Qed.

Lemma insertRecursive_mono : ∀ (m fuel : nat) parent node w r,
  fuel ≤ m → insertRecursive fuel parent node w = Some r →
  insertRecursive m parent node w = Some r.
Proof. mono_fix ltac:(fun m E => fail). Qed.

Lemma successor_loop_mono : ∀ (m fuel : nat) succNode w r,
  fuel ≤ m → successor_loop fuel succNode w = Some r →
  successor_loop m succNode w = Some r.
Proof. mono_fix ltac:(fun m E => fail). Qed.

Lemma remove_node_mono : ∀ (m fuel : nat) this node w r,
  fuel ≤ m → remove_node fuel this node w = Some r →
  remove_node m this node w = Some r.
Proof.
  mono_fix ltac:(fun m E => eapply (successor_loop_mono m) in E; [|lia]).
Qed.

Lemma makeCopy_mono : ∀ (m fuel : nat) node w r,
  fuel ≤ m → makeCopy fuel node w = Some r → makeCopy m node w = Some r.
Proof. mono_fix ltac:(fun m E => fail). Qed.

Lemma clear_node_mono : ∀ (m fuel : nat) node w r,
  fuel ≤ m → clear_node fuel node w = Some r → clear_node m node w = Some r.
Proof. mono_fix ltac:(fun m E => fail). Qed.

Ltac mono_up m E :=
  first
    [ eapply (searchRecursive_mono m) in E; [|lia]
    | eapply (find_node_mono _ _ _ m) in E; [|lia]
    | eapply (insertIterative_loop_mono m) in E; [|lia]
    | eapply (insertRecursive_mono m) in E; [|lia]
    | eapply (successor_loop_mono m) in E; [|lia]
    | eapply (remove_node_mono m) in E; [|lia]
    | eapply (makeCopy_mono m) in E; [|lia]
    | eapply (clear_node_mono m) in E; [|lia] ].

Ltac mono_tail :=
  let close := (fun _ => (lia || eassumption)) in
  solve
    [ eapply searchRecursive_mono; close ()
    | eapply insertIterative_loop_mono; close ()
    | eapply insertRecursive_mono; close ()
    | eapply successor_loop_mono; close ()
    | eapply remove_node_mono; close ()
    | eapply makeCopy_mono; close ()
    | eapply clear_node_mono; close () ].

Ltac mono_def :=
  let m := fresh "m" in
  intros m ? ? ? ? ?; munfold;
  repeat mono_step ltac:(fun E => mono_up m E);
  try done; try mono_tail.

Lemma insert_mono mode this key value :
  mono (λ fuel, insert mode fuel this key value).
Proof. unfold insert, insertIterative. destruct mode; mono_def. Qed.

Lemma remove_mono mode this key : mono (λ fuel, remove mode fuel this key).
Proof. unfold remove. mono_def. Qed.

Lemma clear_mono this : mono (λ fuel, clear fuel this).
Proof. unfold clear. mono_def. Qed.

Lemma copy_construct_mono original : mono (λ fuel, copy_construct fuel original).
Proof. unfold copy_construct. mono_def. Qed.

Lemma destroy_mono this : mono (λ fuel, destroy fuel this).
Proof.
  unfold destroy. apply mono_bind; [apply clear_mono | intros; apply mono_const].
Qed.

Lemma assign_mono this argument : mono (λ fuel, assign fuel this argument).
Proof.
  unfold assign. apply mono_bind; [apply copy_construct_mono | intros rhs].
  do 4 (apply (mono_bind (λ _, _)); [apply mono_const | intros ?]).
  apply destroy_mono.
Qed.

Lemma exec_mono mode o : mono (λ fuel, exec mode fuel o).
Proof.
  destruct o; simpl.
  - apply mono_const.
  - apply mono_bind; [apply copy_construct_mono | intros; apply mono_const].
  - apply assign_mono.
  - apply destroy_mono.
  - apply insert_mono.
  - apply remove_mono.
  - apply clear_mono.
Qed.

Lemma run_mono mode os : mono (λ fuel, run mode fuel os).
Proof.
  induction os as [|o os IH]; simpl; [apply mono_const|].
  apply mono_bind; [apply exec_mono | intros; apply IH].
Qed.

Lemma printInorder_mono this : mono (λ fuel, printInorder fuel this).
Proof.
  assert (∀ (m fuel : nat) node w r, fuel ≤ m →
    printInorder_node fuel node w = Some r → printInorder_node m node w = Some r)
    as Hn by mono_fix ltac:(fun m E => fail).
  intros m fuel w r Hle. unfold printInorder. munfold.
  destruct (trees w !! this); [|done]. by apply Hn.
Qed.

Lemma getHeight_mono this : mono (λ fuel, getHeight fuel this).
Proof.
  assert (∀ (m fuel : nat) node w r, fuel ≤ m →
    getHeight_node fuel node w = Some r → getHeight_node m node w = Some r)
    as Hn by mono_fix ltac:(fun m E => fail).
  intros m fuel w r Hle. unfold getHeight. munfold.
  destruct (trees w !! this); [|done]. by apply Hn.
Qed.

Lemma search_mono mode this key : mono (λ fuel, search mode fuel this key).
Proof. unfold search. mono_def. Qed.

(** ** Insertion *)

Lemma pinsert_locs l k v t : locs (pinsert l k v t) ≡ₚ l :: locs t.
Proof.
  induction t as [|l' k' v' L IHL R IHR]; simpl; [done|].
  destruct (key_ltb k k'); simpl.
  - rewrite IHL. done.
  - rewrite IHR. by rewrite Permutation_middle, (Permutation_swap l l'),
      <- Permutation_middle.
Qed.

Lemma pinsert_entries l k v t : entries (pinsert l k v t) ≡ₚ (k, v) :: entries t.
Proof.
  induction t as [|l' k' v' L IHL R IHR]; simpl; [done|].
  destruct (key_ltb k k'); simpl.
  - rewrite IHL. done.
  - rewrite IHR. by rewrite Permutation_middle, (Permutation_swap (k, v)),
      <- Permutation_middle.
Qed.

Lemma pinsert_keys l k v t : keys (pinsert l k v t) ≡ₚ k :: keys t.
Proof. rewrite !keys_entries. by rewrite pinsert_entries. Qed.

Lemma pinsert_bst l k v t : bst t → bst (pinsert l k v t).
Proof.
  induction t as [|l' k' v' L IHL R IHR]; simpl.
  { intros _. repeat split; constructor. }
  intros (HL & HR & HbL & HbR).
  destruct (key_ltb k k') eqn:E; simpl; repeat split; auto.
  - rewrite pinsert_keys. by constructor.
  - rewrite pinsert_keys. by constructor.
Qed.

Lemma pinsert_depth l k v t : depth (pinsert l k v t) ≤ S (depth t).
Proof.
  induction t as [|l' k' v' L IHL R IHR]; simpl; [done|].
  destruct (key_ltb k k'); simpl; lia.
Qed.

(** Evaluate the lookups a computation performs on a symbolic heap. *)
Ltac hsimpl :=
  repeat first
    [ progress simpl
    | rewrite lookup_insert_eq
    | rewrite lookup_insert_ne by (congruence || set_solver)
    | rewrite lookup_delete_ne by (congruence || set_solver)
    | match goal with
      | Hl : ?h !! ?l = _ |- context [?h !! ?l] => rewrite Hl
      end ].

Lemma insertRecursive_spec t : ∀ fuel h T (c : loc) par l k v,
  repr h (Some c) par t → NoDup (locs t) → l ∉ locs t →
  h !! l = Some (mkNode k v None None None) →
  depth t ≤ fuel →
  ∃ h', insertRecursive fuel (Some c) (Some l) (World h T) = Some (tt, World h' T) ∧
        repr h' (Some c) par (pinsert l k v t) ∧
        (∀ x, x ∉ locs t → x ≠ l → h' !! x = h !! x) ∧
        dom h' = dom h.
Proof.
  induction t as [|c k' v' L IHL R IHR]; intros fuel h T c0 par l k v Hr Hnd Hl Hn Hf;
    inversion Hr as [|? ? ? ? pl pr ? ? Hc HL HR]; subst.
  simpl in Hnd, Hl, Hf.
  apply NoDup_app in Hnd as (HndL & Hd & [HcR HndR]%NoDup_cons).
  assert (l ≠ c) as Hlc by set_solver.
  destruct fuel as [|fuel]; [lia|]. simpl.
  munfold. rewrite Hn. simpl. rewrite Hc. simpl.
  destruct (key_ltb k k') eqn:Ek.
  - destruct L as [|cl kl vl LL LR].
    + inversion HL; subst. hsimpl.
      eexists. split; [reflexivity|]. simpl. split; [|split].
      * econstructor.
        -- rewrite lookup_insert_ne by done. by rewrite lookup_insert_eq.
        -- econstructor; [by rewrite lookup_insert_eq|constructor..].
        -- eapply repr_frame; [done|]. intros x Hx.
           rewrite !lookup_insert_ne; [done|set_solver..].
      * intros x Hx Hxl. rewrite !lookup_insert_ne; [done|set_solver..].
      * rewrite !dom_insert_L. apply elem_of_dom_2 in Hn, Hc. set_solver.
    + inversion HL; subst. simpl.
      destruct (IHL fuel h T cl (Some c) l k v) as (h' & Hrun & Hr' & Hfr & Hdom);
        [done|done|set_solver|done|simpl in *; lia|].
      exists h'. split; [done|]. split; [|split; [|done]].
      * econstructor.
        -- rewrite Hfr; [done| |done]. intros Hin. apply (Hd _ Hin). set_solver.
        -- done.
        -- eapply repr_frame; [done|]. intros x Hx. apply Hfr; [|set_solver].
           intros Hin. apply (Hd _ Hin). set_solver.
      * intros x Hx Hxl. apply Hfr; [set_solver|done].
  - destruct R as [|cr kr vr RL RR].
    + inversion HR; subst. hsimpl.
      eexists. split; [reflexivity|]. simpl. split; [|split].
      * econstructor.
        -- rewrite lookup_insert_ne by done. by rewrite lookup_insert_eq.
        -- eapply repr_frame; [done|]. intros x Hx.
           rewrite !lookup_insert_ne; [done|set_solver..].
        -- econstructor; [by rewrite lookup_insert_eq|constructor..].
      * intros x Hx Hxl. rewrite !lookup_insert_ne; [done|set_solver..].
      * rewrite !dom_insert_L. apply elem_of_dom_2 in Hn, Hc. set_solver.
    + inversion HR; subst. simpl.
      destruct (IHR fuel h T cr (Some c) l k v) as (h' & Hrun & Hr' & Hfr & Hdom);
        [done|done|set_solver|done|simpl in *; lia|].
      exists h'. split; [done|]. split; [|split; [|done]].
      * econstructor.
        -- rewrite Hfr; [done| |done]. done.
        -- eapply repr_frame; [done|]. intros x Hx. apply Hfr; [|set_solver].
           intros Hin. apply (Hd _ Hx). set_solver.
        -- done.
      * intros x Hx Hxl. apply Hfr; [set_solver|done].
Qed.

Lemma insertIterative_loop_recursive (fuel : nat) : ∀ (c : loc) node w,
  insertIterative_loop (S fuel) (Some c) node w =
  insertRecursive fuel (Some c) node w.
Proof.
  induction fuel as [|fuel IH]; intros c node w.
  - simpl. munfold. repeat case_match; reflexivity.
  - change (insertIterative_loop (S (S fuel)) (Some c) node w) with
      ((n ← deref node; c' ← deref (Some c);
        if key_ltb (key_ n) (key_ c') then
          if is_null (left_ c') then
            set_left (Some c) node;; set_parent node (Some c);;
            insertIterative_loop (S fuel) nullptr node
          else insertIterative_loop (S fuel) (left_ c') node
        else
          if is_null (right_ c') then
            set_right (Some c) node;; set_parent node (Some c);;
            insertIterative_loop (S fuel) nullptr node
          else insertIterative_loop (S fuel) (right_ c') node) w).
    change (insertRecursive (S fuel) (Some c) node w) with
      ((n ← deref node; p ← deref (Some c);
        if key_ltb (key_ n) (key_ p) then
          if is_null (left_ p) then
            set_left (Some c) node;; set_parent node (Some c)
          else insertRecursive fuel (left_ p) node
        else
          if is_null (right_ p) then
            set_right (Some c) node;; set_parent node (Some c)
          else insertRecursive fuel (right_ p) node) w).
    unfold set_left, set_right, set_parent, mbind, M_bind, bind, deref, store.
    destruct node as [nl|]; [|done].
    destruct (nodes w !! nl) as [nd|]; [|done].
    destruct (nodes w !! c) as [cd|]; [|done].
    destruct (key_ltb (key_ nd) (key_ cd)).
    + destruct (left_ cd) as [cl|]; [apply IH|].
      simpl. repeat case_match; simplify_eq; reflexivity.
    + destruct (right_ cd) as [cr|]; [apply IH|].
      simpl. repeat case_match; simplify_eq; reflexivity.
Qed.

Lemma insert_modes (fuel : nat) this key value w :
  insert USING_ITERATIVE_FUNCTIONS (S fuel) this key value w =
  insert USING_RECURSIVE_FUNCTIONS fuel this key value w.
Proof.
  unfold insert, insertIterative. munfold. hsimpl.
  rewrite !insert_insert_eq.
  destruct (trees w !! this) as [[r|]|] eqn:Et; hsimpl; [| |done].
  - apply insertIterative_loop_recursive.
  - unfold with_parent. simpl. by rewrite insert_insert_eq.
Qed.

Lemma insert_spec mode (fuel : nat) h T this r t key value :
  T !! this = Some r → repr h r None t → NoDup (locs t) → depth t < fuel →
  ∃ h' r',
    insert mode fuel this key value (World h T) =
      Some (tt, World h' (<[this := r']> T)) ∧
    repr h' r' None (pinsert (fresh (dom h)) key value t) ∧
    (∀ x, is_Some (h !! x) → h' !! x = h !! x ∨ x ∈ locs t) ∧
    dom h' = {[fresh (dom h)]} ∪ dom h.
Proof.
  intros Ht Hr Hnd Hf.
  assert (∀ f : nat, depth t ≤ f → ∃ h' r',
    insert USING_RECURSIVE_FUNCTIONS f this key value (World h T) =
      Some (tt, World h' (<[this := r']> T)) ∧
    repr h' r' None (pinsert (fresh (dom h)) key value t) ∧
    (∀ x, is_Some (h !! x) → h' !! x = h !! x ∨ x ∈ locs t) ∧
    dom h' = {[fresh (dom h)]} ∪ dom h) as Hrec.
  { intros f Hle. unfold insert. munfold. rewrite Ht. simpl.
    set (l := fresh (dom h)).
    assert (h !! l = None) as Hl by apply not_elem_of_dom, is_fresh.
    destruct r as [c|]; simpl.
    - set (h1 := <[l := mkNode key value None None None]> h).
      assert (l ∉ locs t) as Hlt.
      { intros Hin. destruct (repr_alloc _ _ _ _ _ Hr Hin) as [? ?]. congruence. }
      destruct (insertRecursive_spec t f h1 T c None l key value)
        as (h' & Hrun & Hr' & Hfr & Hdom); [|done|done| |done|].
      { eapply repr_frame; [done|]. intros x Hx. unfold h1.
        rewrite lookup_insert_ne; [done|]. by intros <-. }
      { unfold h1. by rewrite lookup_insert_eq. }
      exists h', (Some c). rewrite insert_id by done.
      split; [done|]. split; [done|]. split.
      + intros x Hx. destruct (decide (x ∈ locs t)); [by right|left].
        rewrite Hfr; [|done|]; [|intros ->; destruct Hx; congruence].
        unfold h1. rewrite lookup_insert_ne; [done|].
        intros <-; destruct Hx; congruence.
      + rewrite Hdom. unfold h1. by rewrite dom_insert_L.
    - apply repr_null in Hr as ->. simpl. rewrite Ht.
      eexists _, _. split; [reflexivity|]. split; [|split].
      + econstructor; [by rewrite lookup_insert_eq|constructor..].
      + intros x Hx. left. rewrite lookup_insert_ne; [done|].
        intros <-; destruct Hx; congruence.
      + by rewrite dom_insert_L. }
  destruct mode; [|apply Hrec; lia].
  destruct fuel as [|f]; [lia|]. rewrite insert_modes. apply Hrec. lia.
Qed.

(** ** Removal: the tree-level account *)

Lemma premove_at_notin n t : n ∉ locs t → premove_at n t = t.
Proof.
  induction t as [|l k v L IHL R IHR]; simpl; [done|].
  rewrite elem_of_app, elem_of_cons. intros Hn.
  rewrite decide_False by (intros ->; tauto).
  rewrite IHL, IHR by tauto. done.
Qed.

Lemma pmin_elem l k v L R s sk sv :
  pmin l k v L = (s, sk, sv) →
  s ∈ locs (Nd l k v L R) ∧ (sk, sv) ∈ entries (Nd l k v L R).
Proof.
  revert l k v R. induction L as [|l' k' v' L' IHL R' _]; intros l k v R; simpl.
  - intros [= -> -> ->]. set_solver.
  - intros Hm. destruct (IHL _ _ _ R' Hm). simpl in *. set_solver.
Qed.

Lemma pmin_subtree l k v L R s sk sv :
  pmin l k v L = (s, sk, sv) → NoDup (locs (Nd l k v L R)) →
  ∃ SR, subtree s (Nd l k v L R) = Some (Nd s sk sv Leaf SR).
Proof.
  revert l k v R. induction L as [|l' k' v' L' IHL R' _]; intros l k v R; simpl.
  - intros [= -> -> ->] _. rewrite decide_True by done. eauto.
  - intros Hm Hnd. apply NoDup_app in Hnd as (HndL & Hd & _).
    destruct (pmin_elem _ _ _ _ R' _ _ _ Hm) as [Hs _].
    rewrite decide_False by (intros ->; apply (Hd _ Hs); set_solver).
    destruct (IHL _ _ _ R' Hm HndL) as [SR HSR]. simpl in HSR. rewrite HSR. eauto.
Qed.

Lemma premove_at_locs n t : locs (premove_at n t) `sublist_of` locs t.
Proof.
  revert n. induction t as [|l k v L IHL R IHR]; intros n; simpl; [done|].
  case_decide.
  - destruct L as [|ll lk lv L1 L2].
    { apply sublist_inserts_l with (k := [l]). done. }
    destruct R as [|rl rk rv R1 R2].
    { by apply sublist_inserts_r. }
    destruct (pmin rl rk rv R1) as [[s sk] sv]. simpl.
    apply sublist_app; [done|]. apply sublist_skip. apply IHR.
  - simpl. apply sublist_app; [done|]. by apply sublist_skip.
Qed.

Lemma premove_at_NoDup n t : NoDup (locs t) → NoDup (locs (premove_at n t)).
Proof. intros Hnd. eapply sublist_NoDup; [done | apply premove_at_locs]. Qed.

Lemma premove_at_keys n t x : x ∈ keys (premove_at n t) → x ∈ keys t.
Proof.
  revert n. induction t as [|l k v L IHL R IHR]; intros n; simpl; [done|].
  case_decide.
  - destruct L as [|ll lk lv L1 L2]; [set_solver|].
    destruct R as [|rl rk rv R1 R2]; [set_solver|].
    destruct (pmin rl rk rv R1) as [[s sk] sv] eqn:Em.
    destruct (pmin_elem _ _ _ _ R2 _ _ _ Em) as [_ Hin].
    apply entries_key_elem in Hin.
    cbn [keys]. rewrite !elem_of_app, !elem_of_cons.
    intros [?|[->|Hx]]; [tauto| |].
    + right. right. done.
    + right. right. by eapply IHR.
  - cbn [keys]. rewrite !elem_of_app, !elem_of_cons.
    intros [?|[?|?]]; eauto.
Qed.

(** The leftmost key of an ordered tree bounds every key from below. *)
Lemma pmin_least l k v L R s sk sv :
  pmin l k v L = (s, sk, sv) → bst (Nd l k v L R) →
  Forall (λ x, key_ltb x sk = false) (keys (Nd l k v L R)).
Proof.
  revert l k v R. induction L as [|l' k' v' L' IHL R' _]; intros l k v R.
  - simpl. intros [= -> -> ->] (_ & HR & _).
    constructor; [apply key_ltb_irrefl | done].
  - intros Hm (HL & HR & HbL & HbR). simpl in Hm.
    pose proof (IHL _ _ _ R' Hm HbL) as Hleast.
    destruct (pmin_elem _ _ _ _ R' _ _ _ Hm) as [_ Hin].
    apply entries_key_elem in Hin.
    rewrite Forall_forall in HL. pose proof (HL _ Hin) as Hsk.
    change (keys (Nd l k v (Nd l' k' v' L' R') R))
      with (keys (Nd l' k' v' L' R') ++ k :: keys R).
    apply Forall_app. split; [done|].
    constructor; [by apply key_ltb_asym|].
    eapply Forall_impl; [exact HR|]. simpl. intros x Hx.
    destruct (key_ltb x sk) eqn:E; [|done].
    pose proof (key_ltb_trans _ _ _ E Hsk). congruence.
Qed.

Lemma premove_at_bst n t : bst t → bst (premove_at n t).
Proof.
  revert n. induction t as [|l k v L IHL R IHR]; intros n; simpl; [done|].
  intros (HL & HR & HbL & HbR). case_decide.
  - destruct L as [|ll lk lv L1 L2]; [done|].
    destruct R as [|rl rk rv R1 R2]; [done|].
    destruct (pmin rl rk rv R1) as [[s sk] sv] eqn:Em.
    pose proof (pmin_least _ _ _ _ _ _ _ _ Em HbR) as Hleast.
    destruct (pmin_elem _ _ _ _ R2 _ _ _ Em) as [_ Hin].
    apply entries_key_elem in Hin.
    rewrite Forall_forall in HR. pose proof (HR _ Hin) as Hsk.
    split; [|split; [|split]]; [| |done|by apply IHR].
    + eapply Forall_impl; [exact HL|]. simpl. intros x Hx.
      by eapply key_lt_le_trans.
    + apply Forall_forall. intros x Hx. apply premove_at_keys in Hx.
      rewrite Forall_forall in Hleast. by apply Hleast.
  - simpl. split; [|split; [|split]]; [| |by apply IHL|by apply IHR].
    + apply Forall_forall. intros x Hx. apply premove_at_keys in Hx.
      rewrite Forall_forall in HL. by apply HL.
    + apply Forall_forall. intros x Hx. apply premove_at_keys in Hx.
      rewrite Forall_forall in HR. by apply HR.
Qed.

Lemma premove_at_depth n t : depth (premove_at n t) ≤ depth t.
Proof.
  revert n. induction t as [|l k v L IHL R IHR]; intros n; simpl; [done|].
  case_decide.
  - destruct L as [|ll lk lv L1 L2]; [lia|].
    destruct R as [|rl rk rv R1 R2]; [lia|].
    destruct (pmin rl rk rv R1) as [[s sk] sv].
    specialize (IHR s). simpl in *. lia.
  - specialize (IHL n). specialize (IHR n). simpl. lia.
Qed.

Lemma update_kv_locs n k v t : locs (update_kv n k v t) = locs t.
Proof.
  induction t as [|l k' v' L IHL R IHR]; simpl; [done|].
  case_decide; simpl; [done|]. by rewrite IHL, IHR.
Qed.

Lemma update_kv_notin n k v t : n ∉ locs t → update_kv n k v t = t.
Proof.
  induction t as [|l k' v' L IHL R IHR]; simpl; [done|].
  rewrite elem_of_app, elem_of_cons. intros Hn.
  rewrite decide_False by (intros ->; tauto).
  rewrite IHL, IHR by tauto. done.
Qed.

Lemma premove_at_Nd_ne n l k v L R :
  l ≠ n → premove_at n (Nd l k v L R) = Nd l k v (premove_at n L) (premove_at n R).
Proof. intros Hne. simpl. by rewrite decide_False. Qed.

Lemma premove_at_Nd_two l k v ll lk lv L1 L2 rl rk rv R1 R2 s sk sv :
  pmin rl rk rv R1 = (s, sk, sv) →
  premove_at l (Nd l k v (Nd ll lk lv L1 L2) (Nd rl rk rv R1 R2)) =
  Nd l sk sv (Nd ll lk lv L1 L2) (premove_at s (Nd rl rk rv R1 R2)).
Proof. intros Hm. cbn [premove_at]. rewrite decide_True by done. by rewrite Hm. Qed.

Lemma update_kv_Nd_eq l k v k' v' L R :
  update_kv l k' v' (Nd l k v L R) = Nd l k' v' L R.
Proof. simpl. by rewrite decide_True. Qed.

Lemma update_kv_Nd_ne n l k v k' v' L R :
  l ≠ n →
  update_kv n k' v' (Nd l k v L R) =
  Nd l k v (update_kv n k' v' L) (update_kv n k' v' R).
Proof. intros Hne. simpl. by rewrite decide_False. Qed.

(** Removing a node with two children is overwriting it with its successor
    and then removing the successor. *)
Lemma premove_at_two n t kn vn ll lk lv L1 L2 rl rk rv R1 R2 s sk sv :
  NoDup (locs t) →
  subtree n t = Some (Nd n kn vn (Nd ll lk lv L1 L2) (Nd rl rk rv R1 R2)) →
  pmin rl rk rv R1 = (s, sk, sv) →
  premove_at n t = premove_at s (update_kv n sk sv t).
Proof.
  intros Hnd Hsub Hm. revert Hnd Hsub.
  induction t as [|l k v L IHL R IHR]; [done|].
  cbn [locs subtree].
  intros (HndL & Hd & [HlR HndR]%NoDup_cons)%NoDup_app.
  destruct (pmin_elem _ _ _ _ R2 _ _ _ Hm) as [Hs _].
  case_decide as Hln.
  - intros [= _ -> -> -> ->]. subst l.
    rewrite update_kv_Nd_eq.
    rewrite (premove_at_Nd_two _ _ _ _ _ _ _ _ _ _ _ _ _ _ _ _ Hm).
    rewrite (premove_at_Nd_ne s n) by (by intros ->).
    rewrite (premove_at_notin s (Nd ll lk lv L1 L2)); [done|].
    intros Hin. apply (Hd _ Hin). set_solver.
  - rewrite premove_at_Nd_ne, update_kv_Nd_ne by done.
    destruct (subtree n L) as [s'|] eqn:EL.
    + intros [= ->].
      pose proof (subtree_self_elem _ _ _ EL) as HnL.
      assert (s ∈ locs L) as HsL.
      { eapply subtree_locs; [done|]. cbn [locs] in *. set_solver. }
      rewrite premove_at_Nd_ne by (intros ->; apply (Hd _ HsL); set_solver).
      rewrite (premove_at_notin n R) by (intros Hin; apply (Hd _ HnL); set_solver).
      rewrite (update_kv_notin n _ _ R) by (intros Hin; apply (Hd _ HnL); set_solver).
      rewrite (premove_at_notin s R) by (intros Hin; apply (Hd _ HsL); set_solver).
      by rewrite IHL.
    + intros ER.
      pose proof (subtree_self_elem _ _ _ ER) as HnR.
      assert (s ∈ locs R) as HsR.
      { eapply subtree_locs; [done|]. cbn [locs] in *. set_solver. }
      rewrite premove_at_Nd_ne by (by intros ->).
      rewrite (premove_at_notin n L) by (intros Hin; apply (Hd _ Hin); set_solver).
      rewrite (update_kv_notin n _ _ L) by (intros Hin; apply (Hd _ Hin); set_solver).
      rewrite (premove_at_notin s L) by (intros Hin; apply (Hd _ Hin); set_solver).
      by rewrite IHR.
Qed.

(** ** Removal: the pointer surgery *)

Lemma successor_loop_spec L : ∀ (fuel : nat) h T (l : loc) par k v R,
  repr h (Some l) par (Nd l k v L R) → depth L < fuel →
  successor_loop fuel (Some l) (World h T) =
    Some (Some (pmin l k v L).1.1, World h T).
Proof.
  induction L as [|l' k' v' L' IHL R' _]; intros fuel h T l par k v R Hr Hf;
    inversion Hr as [|? ? ? ? pl pr ? ? Hl HL HR]; subst;
    (destruct fuel as [|fuel]; [lia|]); simpl; munfold; hsimpl.
  - by inversion HL.
  - inversion HL; subst. simpl. eapply IHL; [done|]. simpl in Hf. lia.
Qed.

Lemma pmin_heap L : ∀ h (l : loc) par k v R s sk sv,
  repr h (Some l) par (Nd l k v L R) → pmin l k v L = (s, sk, sv) →
  leftmost h (Some l) s ∧
  ∃ sd, h !! s = Some sd ∧ key_ sd = sk ∧ value_ sd = sv ∧ left_ sd = None.
Proof.
  induction L as [|l' k' v' L' IHL R' _]; intros h l par k v R s sk sv Hr Hm;
    inversion Hr as [|? ? ? ? pl pr ? ? Hl HL HR]; subst; simpl in Hm.
  - simplify_eq. inversion HL; subst. split; [by eapply leftmost_here|eauto].
  - inversion HL; subst.
    destruct (IHL _ _ _ _ _ _ _ _ _ HL Hm) as [Hlm Hsd].
    split; [|done]. by eapply leftmost_step.
Qed.

Lemma leftmost_functional h p s s' : leftmost h p s → leftmost h p s' → s = s'.
Proof.
  induction 1 as [l nd Hl Hnone|l nd s Hl Hlm IH]; inversion 1; subst; simplify_eq.
  - done.
  - match goal with Hx : leftmost _ (left_ _) _ |- _ => rewrite Hnone in Hx; inversion Hx end.
  - match goal with Hx : left_ _ = None |- _ => rewrite Hx in Hlm; inversion Hlm end.
  - eauto.
Qed.

Lemma repr_update_kv h p par t n nd k' v' :
  repr h p par t → NoDup (locs t) → h !! n = Some nd →
  repr (<[n := with_value (with_key nd k') v']> h) p par (update_kv n k' v' t).
Proof.
  intros Hr. revert nd.
  induction Hr as [|l par k v pl pr L R Hl HL IHL HR IHR]; intros nd Hnd Hn;
    simpl; [constructor|].
  simpl in Hnd. apply NoDup_app in Hnd as (HndL & Hd & [HlR HndR]%NoDup_cons).
  case_decide.
  - subst. simplify_eq. econstructor.
    + by rewrite lookup_insert_eq.
    + eapply repr_frame; [done|]. intros x Hx.
      rewrite lookup_insert_ne; [done|]. intros ->. apply (Hd _ Hx). set_solver.
    + eapply repr_frame; [done|]. intros x Hx.
      rewrite lookup_insert_ne; [done|]. by intros ->.
  - econstructor; [by rewrite lookup_insert_ne|eauto..].
Qed.

(** The heap after [parent]'s slot has been overwritten by [ndc'] and
    the subtree at [px] has been handed to [c]. *)
Definition adopt (h : gmap loc Node) (c : loc) (ndc' : Node) (px : ptr)
  : gmap loc Node :=
  let h0 := <[c := ndc']> h in
  match px with
  | Some x => match h0 !! x with
              | Some xd => <[x := with_parent xd (Some c)]> h0
              | None => h0
              end
  | None => h0
  end.

Lemma adopt_spec h (c : loc) ndc' px par0 X :
  repr h px par0 X → NoDup (locs X) → c ∉ locs X → is_Some (h !! c) →
  repr (adopt h c ndc' px) px (Some c) X ∧
  adopt h c ndc' px !! c = Some ndc' ∧
  (∀ y, y ≠ c → y ∉ locs X → adopt h c ndc' px !! y = h !! y) ∧
  dom (adopt h c ndc' px) = dom h.
Proof.
  intros HX HndX HcX Hc. unfold adopt.
  inversion HX as [|x ? kx vx xl xr XL XR Hx HXL HXR]; subst.
  - split; [constructor|]. split; [by rewrite lookup_insert_eq|]. split.
    + intros y Hy _. by rewrite lookup_insert_ne.
    + rewrite dom_insert_L. apply elem_of_dom in Hc. set_solver.
  - assert (x ≠ c) as Hxc by (simpl in HcX; set_solver).
    rewrite lookup_insert_ne, Hx by done.
    split; [|split; [|split]].
    + eapply repr_reparent with (par := par0); [|done|by rewrite lookup_insert_ne].
      eapply repr_frame; [done|]. intros y Hy.
      rewrite lookup_insert_ne; [done|]. by intros ->.
    + rewrite lookup_insert_ne by done. by rewrite lookup_insert_eq.
    + intros y Hyc Hy. rewrite !lookup_insert_ne; [done|done|].
      intros ->. simpl in Hy. set_solver.
    + rewrite !dom_insert_L. apply elem_of_dom in Hc. apply elem_of_dom_2 in Hx.
      set_solver.
Qed.

Lemma replaceChild_spec h T (c n : loc) ndc px par0 X :
  h !! c = Some ndc → repr h px par0 X → c ∉ locs X →
  left_ ndc = Some n ∨ (left_ ndc ≠ Some n ∧ right_ ndc = Some n) →
  replaceChild (Some c) (Some n) px (World h T) =
    Some (true, World (adopt h c (if decide (left_ ndc = Some n)
                                  then with_left ndc px
                                  else with_right ndc px) px) T).
Proof.
  intros Hc HX HcX Hslot. unfold replaceChild, ptr_eqb, adopt. munfold. hsimpl.
  assert (bool_decide (left_ ndc = Some n) = false →
          bool_decide (right_ ndc = Some n) = true) as Hr.
  { intros Hl%bool_decide_eq_false. destruct Hslot as [?|[_ ?]]; [done|].
    by apply bool_decide_eq_true. }
  inversion HX as [|x ? kx vx xl xr XL XR Hx HXL HXR]; subst; simpl.
  - case_decide as Hl.
    + rewrite bool_decide_eq_true_2 by done. by hsimpl.
    + rewrite bool_decide_eq_false_2 by done. rewrite Hr by by apply bool_decide_eq_false.
      by hsimpl.
  - assert (x ≠ c) as Hxc by (simpl in HcX; set_solver).
    case_decide as Hl.
    + rewrite bool_decide_eq_true_2 by done. by hsimpl.
    + rewrite bool_decide_eq_false_2 by done. rewrite Hr by by apply bool_decide_eq_false.
      by hsimpl.
Qed.

(** Unlinking a node with at most one child from its parent. *)
Lemma unlink_spec (fuel : nat) h T this root (c n : loc) ndc nd px X :
  h !! c = Some ndc → h !! n = Some nd → c ≠ n →
  left_ ndc = Some n ∨ (left_ ndc ≠ Some n ∧ right_ ndc = Some n) →
  parent_ nd = Some c →
  left_ nd = None ∨ right_ nd = None →
  px = (if left_ nd is Some _ then left_ nd else right_ nd) →
  repr h px (Some n) X → NoDup (locs X) → c ∉ locs X → n ∉ locs X →
  T !! this = Some root → root ≠ Some n →
  ∃ h', remove_node (S fuel) this (Some n) (World h T) = Some (tt, World h' T) ∧
        h' !! c = Some (if decide (left_ ndc = Some n)
                        then with_left ndc px else with_right ndc px) ∧
        repr h' px (Some c) X ∧
        (∀ x, x ≠ c → x ≠ n → x ∉ locs X → h' !! x = h !! x) ∧
        dom h' = dom h ∖ {[n]}.
Proof.
  intros Hc Hn Hcn Hslot Hpar Hone Hpx HX HndX HcX HnX Ht Hroot.
  set (ndc' := if decide (left_ ndc = Some n)
               then with_left ndc px else with_right ndc px).
  destruct (adopt_spec h c ndc' px _ X HX HndX HcX) as (HX1 & Hc1 & Hfr1 & Hdom1);
    [by eauto|].
  exists (delete n (adopt h c ndc' px)). split; [|split; [|split; [|split]]].
  - assert (negb (is_null (left_ nd)) && negb (is_null (right_ nd)) = false) as Htwo.
    { destruct (left_ nd), (right_ nd); destruct Hone; done. }
    simpl. munfold. hsimpl. rewrite Htwo. hsimpl.
    unfold ptr_eqb at 1. rewrite bool_decide_eq_false_2 by congruence.
    rewrite Hpar.
    assert ((if negb (is_null (left_ nd)) then left_ nd else right_ nd) = px) as Hpx'.
    { subst px. by destruct (left_ nd). }
    pose proof (replaceChild_spec h T c n ndc px _ X Hc HX HcX Hslot) as Hrc.
    fold ndc' in Hrc.
    destruct (negb (is_null (left_ nd))); rewrite Hpx'; rewrite Hrc; simpl;
      rewrite Hfr1, Hn by (done || congruence); done.
  - by rewrite lookup_delete_ne.
  - eapply repr_frame; [done|]. intros x Hx. rewrite lookup_delete_ne; [done|].
    by intros ->.
  - intros x Hxc Hxn Hx. rewrite lookup_delete_ne by done. by apply Hfr1.
  - by rewrite dom_delete_L, Hdom1.
Qed.

Lemma premove_at_simple h n kn vn p1 p2 par L1 L2 :
  repr h p1 par L1 → repr h p2 par L2 → p1 = None ∨ p2 = None →
  repr h (if p1 is Some _ then p1 else p2) par (premove_at n (Nd n kn vn L1 L2)) ∧
  (∀ x, x ∈ locs (premove_at n (Nd n kn vn L1 L2)) → x ∈ locs L1 ∨ x ∈ locs L2).
Proof.
  intros H1 H2 Hone. cbn [premove_at]. rewrite decide_True by done.
  inversion H1; subst.
  - split; [done|]. tauto.
  - destruct Hone as [?| ->]; [done|]. inversion H2; subst. split; [done|]. tauto.
Qed.

(** Removing a node that is not the root of [t] and has at most one child. *)
Lemma remove_node_inner t : ∀ (fuel : nat) h T this root (c : loc) par n nd,
  repr h (Some c) par t → NoDup (locs t) → n ∈ locs t → n ≠ c →
  h !! n = Some nd → left_ nd = None ∨ right_ nd = None →
  T !! this = Some root → root ≠ Some n →
  ∃ h', remove_node (S fuel) this (Some n) (World h T) = Some (tt, World h' T) ∧
        repr h' (Some c) par (premove_at n t) ∧
        (∀ x, x ∉ locs t → h' !! x = h !! x) ∧
        dom h' = dom h ∖ {[n]}.
Proof.
  induction t as [|c k v L IHL R IHR];
    intros fuel h T this root c0 par n nd Hr Hnd Hin Hnc Hn Hone Ht Hroot;
    inversion Hr as [|? ? ? ? pl pr ? ? Hc HL HR]; subst.
  cbn [locs] in *.
  apply NoDup_app in Hnd as (HndL & Hd & [HcR HndR]%NoDup_cons).
  rewrite premove_at_Nd_ne by done.
  apply elem_of_app in Hin as [HnL|[?|HnR]%elem_of_cons]; [|done|].
  - rewrite (premove_at_notin n R) by (intros ?; apply (Hd _ HnL); set_solver).
    destruct L as [|cl kl vl L1 L2]; [set_solver|].
    inversion HL as [|? ? ? ? p1 p2 ? ? Hcl HL1 HL2]; subst.
    cbn [locs] in *.
    destruct (decide (cl = n)) as [-> |Hne].
    + simplify_eq. cbn [left_ right_] in Hone.
      destruct (premove_at_simple h n kl vl p1 p2 _ L1 L2 HL1 HL2 Hone) as [HX HXl].
      apply NoDup_app in HndL as HndL'. destruct HndL' as (HndL1 & HdL & [HnL2 HndL2]%NoDup_cons).
      edestruct (unlink_spec fuel h T this root c n) as (h' & Hrun & Hc' & HX' & Hfr & Hdom);
        [exact Hc|exact Hn|done|by left|done|done|reflexivity|exact HX| | | |done|done|].
      { eapply sublist_NoDup; [exact HndL|]. apply premove_at_locs. }
      { intros Hx. apply HXl in Hx. apply (Hd c); set_solver. }
      { intros Hx. apply HXl in Hx. destruct Hx as [Hx|Hx]; [apply (HdL _ Hx)|]; set_solver. }
      exists h'. split; [done|]. split; [|split; [|done]].
      * cbn [left_ right_] in *. rewrite decide_True in Hc' by done.
        econstructor; [exact Hc'|done|].
        eapply repr_frame; [done|]. intros x Hx. apply Hfr.
        -- by intros ->.
        -- intros ->. apply (Hd n); set_solver.
        -- intros Hx'. apply HXl in Hx'. apply (Hd x); set_solver.
      * intros x Hx. apply Hfr; [set_solver|set_solver|].
        intros Hx'. apply HXl in Hx'. set_solver.
    + destruct (IHL fuel h T this root cl (Some c) n nd) as (h' & Hrun & Hr' & Hfr & Hdom);
        [done|done|done|done|done|done|done|done|].
      exists h'. split; [done|]. split; [|split; [|done]].
      * econstructor; [|done|].
        -- rewrite Hfr; [done|]. intros Hx. apply (Hd _ Hx). set_solver.
        -- eapply repr_frame; [done|]. intros x Hx. apply Hfr.
           intros Hx'. apply (Hd _ Hx'). set_solver.
      * intros x Hx. apply Hfr. set_solver.
  - rewrite (premove_at_notin n L) by (intros Hx; apply (Hd _ Hx); set_solver).
    destruct R as [|cr kr vr R1 R2]; [set_solver|].
    inversion HR as [|? ? ? ? p1 p2 ? ? Hcr HR1 HR2]; subst.
    cbn [locs] in *.
    destruct (decide (cr = n)) as [-> |Hne].
    + simplify_eq. cbn [left_ right_] in Hone.
      destruct (premove_at_simple h n kr vr p1 p2 _ R1 R2 HR1 HR2 Hone) as [HX HXl].
      apply NoDup_app in HndR as HndR'. destruct HndR' as (HndR1 & HdR & [HnR2 HndR2]%NoDup_cons).
      assert (pl ≠ Some n) as Hpl.
      { intros ->. inversion HL; subst. apply (Hd n); set_solver. }
      edestruct (unlink_spec fuel h T this root c n) as (h' & Hrun & Hc' & HX' & Hfr & Hdom);
        [exact Hc|exact Hn|done|by right|done|done|reflexivity|exact HX| | | |done|done|].
      { eapply sublist_NoDup; [exact HndR|]. apply premove_at_locs. }
      { intros Hx. apply HXl in Hx. set_solver. }
      { intros Hx. apply HXl in Hx. destruct Hx as [Hx|Hx]; [apply (HdR _ Hx)|]; set_solver. }
      exists h'. split; [done|]. split; [|split; [|done]].
      * cbn [left_ right_] in *. rewrite decide_False in Hc' by done.
        econstructor; [exact Hc'| |done].
        eapply repr_frame; [done|]. intros x Hx. apply Hfr.
        -- intros ->. apply (Hd c); set_solver.
        -- intros ->. apply (Hd n); set_solver.
        -- intros Hx'. apply HXl in Hx'. apply (Hd x); set_solver.
      * intros x Hx. apply Hfr; [set_solver|set_solver|].
        intros Hx'. apply HXl in Hx'. set_solver.
    + destruct (IHR fuel h T this root cr (Some c) n nd) as (h' & Hrun & Hr' & Hfr & Hdom);
        [done|done|done|done|done|done|done|done|].
      exists h'. split; [done|]. split; [|split; [|done]].
      * econstructor; [| |done].
        -- rewrite Hfr; [done|]. done.
        -- eapply repr_frame; [done|]. intros x Hx. apply Hfr.
           intros Hx'. apply (Hd _ Hx). set_solver.
      * intros x Hx. apply Hfr. set_solver.
Qed.

Lemma subtree_depth n t s : subtree n t = Some s → depth s ≤ depth t.
Proof.
  induction t as [|l k v L IHL R IHR]; simpl; [done|].
  case_decide; [intros [= <-]; simpl; lia|].
  destruct (subtree n L) eqn:E.
  - intros [= <-]. specialize (IHL eq_refl). lia.
  - intros E'. specialize (IHR E'). lia.
Qed.

(** The strict descendants of a node do not include the root of the tree. *)
Lemma subtree_below n t kn vn A B x :
  subtree n t = Some (Nd n kn vn A B) → NoDup (locs t) →
  x ∈ locs A ++ locs B → x ∈ locs t ∧ Some x ≠ root_of t ∧ x ≠ n.
Proof.
  intros Hs Hnd Hx.
  assert (x ∈ locs (Nd n kn vn A B)) as Hx' by (cbn [locs]; set_solver).
  pose proof (subtree_locs _ _ _ _ Hs Hx') as Hxt.
  pose proof (subtree_NoDup _ _ _ Hs Hnd) as Hnd'. cbn [locs] in Hnd'.
  apply NoDup_app in Hnd' as (_ & HdA & [HnB _]%NoDup_cons).
  assert (x ≠ n) as Hxn.
  { intros ->. apply elem_of_app in Hx as [Hx|Hx]; [apply (HdA _ Hx)|]; set_solver. }
  split; [done|]. split; [|done].
  destruct t as [|c k v L R]; [done|]. cbn [root_of subtree locs] in *.
  intros [= ->].
  apply NoDup_app in Hnd as (_ & Hd & [HcR _]%NoDup_cons).
  rewrite decide_False in Hs by done.
  destruct (subtree n L) eqn:EL.
  - simplify_eq. apply (subtree_locs _ _ _ _ EL) in Hx'. apply (Hd _ Hx'). set_solver.
  - apply (subtree_locs _ _ _ _ Hs) in Hx'. done.
Qed.

Lemma subtree_premove_at_two n t kn vn ll lk lv L1 L2 rl rk rv R1 R2 s sk sv :
  subtree n t = Some (Nd n kn vn (Nd ll lk lv L1 L2) (Nd rl rk rv R1 R2)) →
  pmin rl rk rv R1 = (s, sk, sv) →
  subtree n (premove_at n t) =
    Some (Nd n sk sv (Nd ll lk lv L1 L2) (premove_at s (Nd rl rk rv R1 R2))).
Proof.
  intros Hsub Hm. revert Hsub.
  induction t as [|l k v L IHL R IHR]; [done|]. cbn [subtree].
  case_decide as Hln.
  - intros [= _ -> -> -> ->]. subst l.
    rewrite (premove_at_Nd_two _ _ _ _ _ _ _ _ _ _ _ _ _ _ _ _ Hm).
    cbn [subtree]. by rewrite decide_True.
  - rewrite premove_at_Nd_ne by done. cbn [subtree]. rewrite decide_False by done.
    destruct (subtree n L) as [s'|] eqn:EL.
    + intros [= ->]. by rewrite IHL.
    + intros ER. rewrite premove_at_notin.
      * rewrite EL. by apply IHR.
      * intros Hin. apply subtree_elem in Hin as [? ?]. congruence.
Qed.

(** Removing a node with two children. *)
Lemma remove_node_two (fuel : nat) h T this r t n kn vn ll lk lv L1 L2
    rl rk rv R1 R2 s sk sv :
  T !! this = Some r → repr h r None t → NoDup (locs t) →
  subtree n t = Some (Nd n kn vn (Nd ll lk lv L1 L2) (Nd rl rk rv R1 R2)) →
  pmin rl rk rv R1 = (s, sk, sv) →
  depth t < fuel →
  ∃ h', remove_node fuel this (Some n) (World h T) = Some (tt, World h' T) ∧
        repr h' r None (premove_at n t) ∧
        (∀ x, x ∉ locs t → h' !! x = h !! x) ∧
        dom h' = dom h ∖ {[s]} ∧ s ≠ n ∧ s ∈ locs t.
Proof.
  intros Ht Hr Hnd Hsub Hm Hf.
  destruct (repr_subtree _ _ _ _ _ _ Hr Hsub) as [par' Hrn].
  inversion Hrn as [|? ? ? ? pl pr ? ? Hn HL HR]; subst.
  inversion HL as [|? ? ? ? ? ? ? ? Hll _ _]; subst.
  inversion HR as [|? ? ? ? ? ? ? ? Hrl _ _]; subst.
  destruct (pmin_heap _ _ _ _ _ _ _ _ _ _ HR Hm) as (_ & sd & Hs & <- & <- & Hsl).
  destruct (pmin_elem _ _ _ _ R2 _ _ _ Hm) as [HsR _].
  destruct (subtree_below n t _ _ _ _ s Hsub Hnd) as (Hst & Hsroot & Hsn);
    [set_solver|].
  pose proof (subtree_depth _ _ _ Hsub) as Hdep. cbn [depth] in Hdep.
  destruct fuel as [|f1]; [lia|].
  assert (∃ f2 : nat, f1 = S f2) as [f2 Hf2] by (exists (pred f1); lia).
  set (nd' := mkNode (key_ sd) (value_ sd) (Some ll) (Some rl) par').
  set (h2 := <[n := nd']> h).
  assert (remove_node (S f1) this (Some n) (World h T) =
          remove_node f1 this (Some s) (World h2 T)) as ->.
  { simpl. munfold. rewrite Hn. simpl.
    erewrite successor_loop_spec; [|exact HR|lia]. rewrite Hm.
    hsimpl. unfold with_value, with_key. simpl. by rewrite insert_insert_eq. }
  subst f1.
  assert (repr h2 r None (update_kv n (key_ sd) (value_ sd) t)) as Hr2.
  { exact (repr_update_kv _ _ _ _ n _ (key_ sd) (value_ sd) Hr Hnd Hn). }
  assert (∃ c : loc, r = Some c) as [c ->].
  { destruct t; [done|]. inversion Hr; subst. eauto. }
  assert (root_of t = Some c) as Hroot by (symmetry; by eapply repr_root).
  destruct (remove_node_inner (update_kv n (key_ sd) (value_ sd) t) f2 h2 T this
              (Some c) c None s sd) as (h' & Hrun & Hr' & Hfr & Hdom).
  { done. }
  { by rewrite update_kv_locs. }
  { by rewrite update_kv_locs. }
  { intros ->. by rewrite Hroot in Hsroot. }
  { unfold h2. by rewrite lookup_insert_ne. }
  { by left. }
  { done. }
  { intros [= ->]. by rewrite Hroot in Hsroot. }
  exists h'.
  split; [done|]. split; [|split; [|split; [|split]]]; [| | |done|done].
  - by rewrite (premove_at_two _ _ _ _ _ _ _ _ _ _ _ _ _ _ _ _ _ Hnd Hsub Hm).
  - intros x Hx. rewrite Hfr by (by rewrite update_kv_locs).
    unfold h2. rewrite lookup_insert_ne; [done|].
    intros ->. apply Hx. by eapply subtree_self_elem.
  - rewrite Hdom. unfold h2. rewrite dom_insert_L.
    apply elem_of_dom_2 in Hn. set_solver.
Qed.

Lemma unparent_spec h T px par0 X :
  repr h px par0 X → NoDup (locs X) →
  ∃ h', (if negb (is_null px) then set_parent px nullptr else ret tt) (World h T) =
          Some (tt, World h' T) ∧
        repr h' px None X ∧ (∀ x, x ∉ locs X → h' !! x = h !! x) ∧ dom h' = dom h.
Proof.
  intros HX HndX. inversion HX as [|x ? kx vx xl xr XL XR Hx HXL HXR]; subst; simpl.
  - exists h. split; [done|]. split; [constructor|]. done.
  - munfold. hsimpl. eexists. split; [reflexivity|]. split; [|split].
    + by eapply repr_reparent.
    + intros y Hy. rewrite lookup_insert_ne; [done|]. intros ->. set_solver.
    + rewrite dom_insert_L. apply elem_of_dom_2 in Hx. set_solver.
Qed.

(** Removing the root when it has at most one child. *)
Lemma remove_node_root (fuel : nat) h T this (n : loc) k v L R :
  T !! this = Some (Some n) → repr h (Some n) None (Nd n k v L R) →
  NoDup (locs (Nd n k v L R)) → L = Leaf ∨ R = Leaf →
  ∃ h' r', remove_node (S fuel) this (Some n) (World h T) =
             Some (tt, World h' (<[this := r']> T)) ∧
        repr h' r' None (premove_at n (Nd n k v L R)) ∧
        (∀ x, x ∉ locs (Nd n k v L R) → h' !! x = h !! x) ∧
        dom h' = dom h ∖ {[n]}.
Proof.
  intros Ht Hr Hnd Hone.
  inversion Hr as [|? ? ? ? pl pr ? ? Hn HL HR]; subst.
  cbn [locs] in Hnd. apply NoDup_app in Hnd as (HndL & Hd & [HnR HndR]%NoDup_cons).
  assert (pl = None ∨ pr = None) as Hone'.
  { destruct Hone as [-> | ->]; [left; by inversion HL | right; by inversion HR]. }
  destruct (premove_at_simple h n k v pl pr _ L R HL HR Hone') as [HX HXl].
  set (X := premove_at n (Nd n k v L R)) in *.
  set (px := if pl is Some _ then pl else pr) in *.
  assert (NoDup (locs X)) as HndX.
  { eapply sublist_NoDup; [|apply premove_at_locs]. cbn [locs].
    apply NoDup_app. split; [done|]. split; [done|]. by constructor. }
  assert (n ∉ locs X) as HnX.
  { intros Hx. apply HXl in Hx as [Hx|Hx]; [apply (Hd _ Hx)|]; set_solver. }
  assert (negb (is_null pl) && negb (is_null pr) = false) as Htwo.
  { destruct pl, pr; destruct Hone'; done. }
  assert (remove_node (S fuel) this (Some n) (World h T) =
    ((if negb (is_null px) then set_parent px nullptr else ret tt);;
     delete_node (Some n)) (World h (<[this := px]> T))) as ->.
  { simpl. munfold. hsimpl. rewrite Htwo. hsimpl.
    unfold ptr_eqb. rewrite bool_decide_eq_true_2 by done.
    unfold px. destruct pl; hsimpl; done. }
  destruct (unparent_spec h (<[this := px]> T) px _ X HX HndX)
    as (h' & Hrun & Hr' & Hfr & Hdom).
  exists (delete n h'), px.
  split; [|split; [|split]].
  - unfold mbind, M_bind, bind. rewrite Hrun. unfold delete_node. simpl.
    by rewrite Hfr, Hn.
  - eapply repr_frame; [done|]. intros x Hx. rewrite lookup_delete_ne; [done|].
    by intros ->.
  - intros x Hx. rewrite lookup_delete_ne by set_solver. apply Hfr.
    intros Hx'. apply HXl in Hx'. cbn [locs] in Hx. set_solver.
  - by rewrite dom_delete_L, Hdom.
Qed.

Lemma remove_node_spec (fuel : nat) h T this r t n :
  T !! this = Some r → repr h r None t → NoDup (locs t) → n ∈ locs t →
  depth t < fuel →
  ∃ h' r', remove_node fuel this (Some n) (World h T) =
             Some (tt, World h' (<[this := r']> T)) ∧
        repr h' r' None (premove_at n t) ∧
        (∀ x, x ∉ locs t → h' !! x = h !! x) ∧
        (∃ d, d ∈ locs t ∧ dom h' = dom h ∖ {[d]}).
Proof.
  intros Ht Hr Hnd Hin Hf.
  destruct (subtree_elem n t Hin) as [s Hs].
  pose proof (subtree_root _ _ _ Hs) as Hsr.
  destruct s as [|n' kn vn A B]; [done|]. cbn [root_of] in Hsr. simplify_eq.
  destruct (repr_subtree _ _ _ _ _ _ Hr Hs) as [par' Hrn].
  inversion Hrn as [|? ? ? ? pl pr ? ? Hn HA HB]; subst.
  assert ((∃ ll lk lv L1 L2 rl rk rv R1 R2,
             A = Nd ll lk lv L1 L2 ∧ B = Nd rl rk rv R1 R2) ∨
          (A = Leaf ∨ B = Leaf)) as [Htwo|Hone].
  { destruct A, B; eauto 20. }
  - destruct Htwo as (ll & lk & lv & L1 & L2 & rl & rk & rv & R1 & R2 & -> & ->).
    destruct (pmin rl rk rv R1) as [[s sk] sv] eqn:Hm.
    destruct (remove_node_two fuel h T this r t n _ _ _ _ _ _ _ _ _ _ _ _ s sk sv
                Ht Hr Hnd Hs Hm Hf) as (h' & Hrun & Hr' & Hfr & Hdom & _ & Hst).
    exists h', r. rewrite insert_id by done. eauto 10.
  - destruct t as [|c k v L R]; [done|].
    inversion Hr as [|? ? ? ? ? ? ? ? Hc HL HR]; subst.
    destruct fuel as [|fuel]; [lia|].
    destruct (decide (c = n)) as [-> |Hcn].
    + cbn [subtree] in Hs. rewrite decide_True in Hs by done. simplify_eq.
      destruct (remove_node_root fuel h T this n kn vn A B Ht Hr Hnd Hone)
        as (h' & r' & Hrun & Hr' & Hfr & Hdom).
      exists h', r'. eauto 10.
    + assert (pl = None ∨ pr = None) as Hone'.
      { destruct Hone as [-> | ->]; [left; by inversion HA | right; by inversion HB]. }
      destruct (remove_node_inner _ fuel h T this (Some c) c None n _
                  Hr Hnd Hin ltac:(done) Hn Hone' Ht) as (h' & Hrun & Hr' & Hfr & Hdom).
      { congruence. }
      exists h', (Some c). rewrite insert_id by done. eauto 10.
Qed.

Lemma remove_spec mode (fuel : nat) h T this r t key :
  T !! this = Some r → repr h r None t → NoDup (locs t) → depth t < fuel →
  ∃ h' r', remove mode fuel this key (World h T) =
             Some (tt, World h' (<[this := r']> T)) ∧
        repr h' r' None (premove key t) ∧
        (∀ x, x ∉ locs t → h' !! x = h !! x) ∧
        dom h' ⊆ dom h.
Proof.
  intros Ht Hr Hnd Hf. unfold remove, premove.
  unfold mbind, M_bind, bind.
  erewrite find_node_exact by done.
  pose proof (search_depth_le key t).
  rewrite bool_decide_eq_true_2 by lia.
  destruct (psearch key t) as [n|] eqn:Es.
  - destruct (remove_node_spec fuel h T this r t n Ht Hr Hnd)
      as (h' & r' & Hrun & Hr' & Hfr & d & Hd & Hdom);
      [by eapply psearch_elem|done|].
    exists h', r'. split; [done|]. split; [done|]. split; [done|]. set_solver.
  - exists h, r. rewrite insert_id by done.
    split; [destruct fuel; [lia|done]|]. done.
Qed.

(** Removing an absent key changes nothing at all. *)
Lemma remove_absent mode (fuel : nat) w this t key :
  tree_of w this t → psearch key t = None → depth t < fuel →
  remove mode fuel this key w = Some (tt, w).
Proof.
  intros (r & Ht & Hr & Hnd) Hs Hf. destruct w as [h T]. simpl in *.
  unfold remove. unfold mbind, M_bind, bind.
  erewrite find_node_exact by done.
  pose proof (search_depth_le key t).
  rewrite bool_decide_eq_true_2 by lia. rewrite Hs. destruct fuel; [lia|done].
Qed.

(** ** Copying and clearing *)

Lemma same_shape_entries t t' : same_shape t t' → entries t' = entries t.
Proof.
  revert t'. induction t as [|l k v L IHL R IHR]; intros [|l' k' v' L' R']; simpl;
    try done.
  intros (-> & -> & HL & HR). by rewrite (IHL _ HL), (IHR _ HR).
Qed.

Lemma same_shape_keys t t' : same_shape t t' → keys t' = keys t.
Proof. intros Hs. by rewrite !keys_entries, (same_shape_entries _ _ Hs). Qed.

Lemma same_shape_depth t t' : same_shape t t' → depth t' = depth t.
Proof.
  revert t'. induction t as [|l k v L IHL R IHR]; intros [|l' k' v' L' R']; simpl;
    try done.
  intros (_ & _ & HL & HR). by rewrite (IHL _ HL), (IHR _ HR).
Qed.

Lemma same_shape_pheight t t' : same_shape t t' → pheight t' = pheight t.
Proof. intros Hs. by rewrite !pheight_depth, (same_shape_depth _ _ Hs). Qed.

Lemma same_shape_bst t t' : same_shape t t' → bst t → bst t'.
Proof.
  revert t'. induction t as [|l k v L IHL R IHR]; intros [|l' k' v' L' R']; simpl;
    try done.
  intros (<- & <- & HL & HR) (HlL & HlR & HbL & HbR).
  rewrite (same_shape_keys _ _ HL), (same_shape_keys _ _ HR).
  split; [done|]. split; [done|]. split; eauto.
Qed.

(** Stepping through a computation one action at a time. *)
Lemma bind_run {A B} (m : M A) (f : A → M B) w a w' :
  m w = Some (a, w') → (m ≫= f) w = f a w'.
Proof. intros E. unfold mbind, M_bind, bind. by rewrite E. Qed.

Lemma deref_run h T (l : loc) nd :
  h !! l = Some nd → deref (Some l) (World h T) = Some (nd, World h T).
Proof. intros E. unfold deref. simpl. by rewrite E. Qed.

Lemma store_run h T (l : loc) nd nd' :
  h !! l = Some nd → store (Some l) nd' (World h T) = Some (tt, World (<[l := nd']> h) T).
Proof. intros E. unfold store. simpl. by rewrite E. Qed.

Lemma set_left_run h T (l : loc) nd q :
  h !! l = Some nd →
  set_left (Some l) q (World h T) = Some (tt, World (<[l := with_left nd q]> h) T).
Proof. intros E. unfold set_left. erewrite bind_run by by apply deref_run.
  by eapply store_run. Qed.

Lemma set_right_run h T (l : loc) nd q :
  h !! l = Some nd →
  set_right (Some l) q (World h T) = Some (tt, World (<[l := with_right nd q]> h) T).
Proof. intros E. unfold set_right. erewrite bind_run by by apply deref_run.
  by eapply store_run. Qed.

Lemma get_root_run h T this r :
  T !! this = Some r → get_root this (World h T) = Some (r, World h T).
Proof. intros E. unfold get_root. simpl. by rewrite E. Qed.

Lemma set_root_run h T this r r' :
  T !! this = Some r →
  set_root this r' (World h T) = Some (tt, World h (<[this := r']> T)).
Proof. intros E. unfold set_root. simpl. by rewrite E. Qed.

Lemma reparent_spec h T px q par0 X :
  repr h px par0 X → NoDup (locs X) →
  ∃ h', (if negb (is_null px) then set_parent px q else ret tt) (World h T) =
          Some (tt, World h' T) ∧
        repr h' px (if px is Some _ then q else par0) X ∧
        (∀ x, Some x ≠ px → h' !! x = h !! x) ∧ dom h' = dom h.
Proof.
  intros HX HndX. inversion HX as [|x ? kx vx xl xr XL XR Hx HXL HXR]; subst; simpl.
  - exists h. split; [done|]. split; [constructor|]. done.
  - munfold. hsimpl. eexists. split; [reflexivity|]. split; [|split].
    + by eapply repr_reparent.
    + intros y Hy. rewrite lookup_insert_ne; [done|]. by intros ->.
    + rewrite dom_insert_L. apply elem_of_dom_2 in Hx. set_solver.
Qed.

Lemma repr_leaf_any h p par par' : repr h p par Leaf → repr h p par' Leaf.
Proof. inversion 1. constructor. Qed.

Lemma makeCopy_spec t : ∀ (fuel : nat) h T p par,
  repr h p par t → depth t < fuel →
  ∃ h' q t', makeCopy fuel p (World h T) = Some (q, World h' T) ∧
     repr h' q None t' ∧ same_shape t t' ∧ NoDup (locs t') ∧
     (∀ x, x ∈ locs t' → h !! x = None) ∧
     (∀ x, is_Some (h !! x) → h' !! x = h !! x) ∧
     (∀ x, is_Some (h' !! x) → is_Some (h !! x) ∨ x ∈ locs t').
Proof.
  induction t as [|c k v L IHL R IHR]; intros fuel h T p par Hr Hf;
    inversion Hr as [|? ? ? ? pl pr ? ? Hc HL HR]; subst;
    (destruct fuel as [|fuel]; [lia|]).
  { exists h, None, Leaf. simpl. repeat split; eauto using NoDup_nil_2.
    - constructor.
    - intros x Hx. set_solver. }
  cbn [depth] in Hf.
  set (l := fresh (dom h)).
  assert (h !! l = None) as Hl by apply not_elem_of_dom, is_fresh.
  assert (l ≠ c) as Hlc by (intros ->; congruence).
  set (h1 := <[l := mkNode k v None None None]> h).
  assert (∀ x, is_Some (h !! x) → h1 !! x = h !! x) as Hfr1.
  { intros x [? Hx]. unfold h1. rewrite lookup_insert_ne; [done|]. intros <-. congruence. }
  destruct (IHL fuel h1 T pl (Some c)) as (h2 & ql & L' & Hrun2 & HL' & HsL & HndL & HfreshL & Hfr2 & Hdom2).
  { eapply repr_frame; [exact HL|]. intros x Hx. apply Hfr1.
    eapply repr_alloc; [exact HL|done]. }
  { lia. }
  assert (h2 !! l = Some (mkNode k v None None None)) as Hl2.
  { rewrite Hfr2; unfold h1; rewrite lookup_insert_eq; eauto. }
  set (h3 := <[l := mkNode k v ql None None]> h2).
  assert (∀ x, is_Some (h !! x) → h3 !! x = h !! x) as Hfr3.
  { intros x Hx. unfold h3. rewrite lookup_insert_ne by (intros <-; destruct Hx; congruence).
    rewrite Hfr2; [by apply Hfr1|]. rewrite Hfr1; done. }
  destruct (IHR fuel h3 T pr (Some c)) as (h4 & qr & R' & Hrun4 & HR' & HsR & HndR & HfreshR & Hfr4 & Hdom4).
  { eapply repr_frame; [exact HR|]. intros x Hx. apply Hfr3.
    eapply repr_alloc; [exact HR|done]. }
  { lia. }
  assert (h4 !! l = Some (mkNode k v ql None None)) as Hl4.
  { rewrite Hfr4; unfold h3; rewrite lookup_insert_eq; eauto. }
  set (h5 := <[l := mkNode k v ql qr None]> h4).
  assert (l ∉ locs L') as HlL.
  { intros Hx. apply HfreshL in Hx. unfold h1 in Hx. by rewrite lookup_insert_eq in Hx. }
  assert (l ∉ locs R') as HlR.
  { intros Hx. apply HfreshR in Hx. unfold h3 in Hx. by rewrite lookup_insert_eq in Hx. }
  assert (∀ x, x ∈ locs L' → x ∉ locs R') as HLR.
  { intros x Hx Hx'. apply HfreshR in Hx'. unfold h3 in Hx'.
    rewrite lookup_insert_ne in Hx' by (by intros <-).
    destruct (repr_alloc _ _ _ _ _ HL' Hx). congruence. }
  assert (repr h5 ql None L') as HL5.
  { eapply repr_frame; [exact HL'|]. intros x Hx. unfold h5.
    rewrite lookup_insert_ne by (by intros <-).
    rewrite Hfr4; unfold h3; rewrite lookup_insert_ne by (by intros <-); [done|].
    eapply repr_alloc; [exact HL'|done]. }
  assert (repr h5 qr None R') as HR5.
  { eapply repr_frame; [exact HR'|]. intros x Hx. unfold h5.
    rewrite lookup_insert_ne; [done|]. by intros <-. }
  destruct (reparent_spec h5 T ql (Some l) _ L' HL5 HndL) as (h6 & Hrun6 & HL6 & Hfr6 & Hdom6).
  assert (repr h6 qr None R') as HR6.
  { eapply repr_frame; [exact HR5|]. intros x Hx. apply Hfr6. intros <-.
    inversion HL5; subst. apply (HLR x); [set_solver|done]. }
  destruct (reparent_spec h6 T qr (Some l) _ R' HR6 HndR) as (h7 & Hrun7 & HR7 & Hfr7 & Hdom7).
  assert (h6 !! l = Some (mkNode k v ql qr None)) as Hl6.
  { rewrite Hfr6; [unfold h5; by rewrite lookup_insert_eq|].
    intros <-. inversion HL5; subst. set_solver. }
  assert (h7 !! l = Some (mkNode k v ql qr None)) as Hl7.
  { rewrite Hfr7; [done|]. intros <-. inversion HR6; subst. set_solver. }
  exists h7, (Some l), (Nd l k v L' R').
  split; [|split; [|split; [|split; [|split; [|split]]]]].
  - simpl.
    erewrite bind_run by (by apply deref_run).
    erewrite bind_run by reflexivity. fold l. fold h1.
    erewrite bind_run by (apply deref_run; rewrite Hfr1; eauto).
    erewrite bind_run by exact Hrun2.
    erewrite bind_run by (apply set_left_run; exact Hl2).
    erewrite bind_run by (apply deref_run; unfold h3 in Hfr3; rewrite Hfr3; eauto).
    erewrite bind_run by exact Hrun4.
    erewrite bind_run by (apply set_right_run; exact Hl4).
    erewrite bind_run by (apply deref_run; apply lookup_insert_eq).
    erewrite bind_run by exact Hrun6.
    erewrite bind_run by (apply deref_run; exact Hl6).
    erewrite bind_run by exact Hrun7.
    reflexivity.
  - assert (repr h6 ql (Some l) L') as HL6'.
    { destruct ql; [exact HL6|]. inversion HL6; subst. constructor. }
    assert (repr h7 qr (Some l) R') as HR7'.
    { destruct qr; [exact HR7|]. inversion HR7; subst. constructor. }
    econstructor; [exact Hl7| |exact HR7'].
    eapply repr_frame; [exact HL6'|].
    intros x Hx. apply Hfr7. intros <-. inversion HR6; subst.
    apply (HLR x); [done|set_solver].
  - done.
  - cbn [locs]. apply NoDup_app. split; [done|]. split.
    + intros x Hx [->|Hx']%elem_of_cons; [done|]. by apply (HLR x).
    + by constructor.
  - intros x. cbn [locs]. rewrite elem_of_app, elem_of_cons. intros [Hx|[->|Hx]].
    + apply HfreshL in Hx. unfold h1 in Hx.
      destruct (decide (l = x)) as [->|]; [done|]. by rewrite lookup_insert_ne in Hx.
    + done.
    + apply HfreshR in Hx. destruct (h !! x) eqn:E; [|done].
      rewrite Hfr3 in Hx by eauto. congruence.
  - intros x Hx. assert (x ≠ l) as Hxl by (intros ->; destruct Hx; congruence).
    assert (∀ q X, repr h5 q None X → (∀ y, y ∈ locs X → h !! y = None) → Some x ≠ q) as Hne.
    { intros q X Hq HX <-. inversion Hq; subst. destruct Hx as [? Hx].
      rewrite HX in Hx; [done|set_solver]. }
    rewrite Hfr7.
    2:{ inversion HR6; subst; [done|]. intros [= <-]. destruct Hx as [? Hx].
        assert (h3 !! x = None) as Hx3 by (apply HfreshR; set_solver).
        rewrite Hfr3 in Hx3 by eauto. congruence. }
    rewrite Hfr6.
    2:{ inversion HL5; subst; [done|]. intros [= <-]. destruct Hx as [? Hx].
        assert (h1 !! x = None) as Hx1 by (apply HfreshL; set_solver).
        rewrite Hfr1 in Hx1 by eauto. congruence. }
    unfold h5. rewrite lookup_insert_ne by done.
    rewrite Hfr4; [by apply Hfr3|]. rewrite Hfr3; done.
  - intros x. rewrite <- !elem_of_dom, Hdom7, Hdom6. unfold h5.
    rewrite dom_insert_L, elem_of_union, elem_of_singleton, !elem_of_dom.
    cbn [locs]. rewrite elem_of_app, elem_of_cons.
    intros [->|Hx]; [tauto|]. apply Hdom4 in Hx as [Hx|Hx]; [|tauto].
    unfold h3 in Hx. destruct (decide (l = x)) as [->|]; [tauto|].
    rewrite lookup_insert_ne in Hx by done.
    apply Hdom2 in Hx as [Hx|Hx]; [|tauto].
    unfold h1 in Hx. rewrite lookup_insert_ne in Hx by done. tauto.
Qed.

Lemma delete_node_run h T (l : loc) nd :
  h !! l = Some nd →
  delete_node (Some l) (World h T) = Some (tt, World (delete l h) T).
Proof. intros E. unfold delete_node. simpl. by rewrite E. Qed.

Lemma clear_node_spec t : ∀ (fuel : nat) h T p par,
  repr h p par t → NoDup (locs t) → depth t < fuel →
  ∃ h', clear_node fuel p (World h T) = Some (tt, World h' T) ∧
        (∀ x, x ∉ locs t → h' !! x = h !! x) ∧
        (∀ x, x ∈ locs t → h' !! x = None).
Proof.
  induction t as [|c k v L IHL R IHR]; intros fuel h T p par Hr Hnd Hf;
    inversion Hr as [|? ? ? ? pl pr ? ? Hc HL HR]; subst;
    (destruct fuel as [|fuel]; [lia|]).
  { exists h. split; [done|]. split; [done|]. intros x Hx. set_solver. }
  cbn [depth locs] in *.
  apply NoDup_app in Hnd as (HndL & Hd & [HcR HndR]%NoDup_cons).
  destruct (IHL fuel h T pl (Some c) HL HndL) as (h1 & Hrun1 & Hfr1 & Hgone1); [lia|].
  assert (h1 !! c = h !! c) as Hc1.
  { apply Hfr1. intros Hx. apply (Hd _ Hx). set_solver. }
  destruct (IHR fuel h1 T pr (Some c)) as (h2 & Hrun2 & Hfr2 & Hgone2); [|done|lia|].
  { eapply repr_frame; [exact HR|]. intros x Hx. apply Hfr1.
    intros Hx'. apply (Hd _ Hx'). set_solver. }
  assert (h2 !! c = h !! c) as Hc2 by (by rewrite Hfr2).
  exists (delete c h2). split; [|split].
  - simpl.
    erewrite bind_run by (by apply deref_run).
    erewrite bind_run by exact Hrun1.
    erewrite bind_run by (apply deref_run; rewrite Hc1; exact Hc).
    erewrite bind_run by exact Hrun2.
    eapply delete_node_run. rewrite Hc2. exact Hc.
  - intros x Hx. rewrite lookup_delete_ne by set_solver.
    rewrite Hfr2, Hfr1; [done|set_solver..].
  - intros x [Hx|[->|Hx]%elem_of_cons]%elem_of_app.
    + rewrite lookup_delete_ne by (intros <-; apply (Hd _ Hx); set_solver).
      rewrite Hfr2; [by apply Hgone1|]. intros Hx'. apply (Hd _ Hx). set_solver.
    + apply lookup_delete_eq.
    + rewrite lookup_delete_ne by (by intros <-). by apply Hgone2.
Qed.

Lemma clear_spec (fuel : nat) h T this r t :
  T !! this = Some r → repr h r None t → NoDup (locs t) → depth t < fuel →
  ∃ h', clear fuel this (World h T) = Some (tt, World h' (<[this := None]> T)) ∧
        (∀ x, x ∉ locs t → h' !! x = h !! x) ∧
        (∀ x, x ∈ locs t → h' !! x = None).
Proof.
  intros Ht Hr Hnd Hf.
  destruct (clear_node_spec t fuel h T r None Hr Hnd Hf) as (h' & Hrun & Hfr & Hgone).
  exists h'. split; [|done]. unfold clear.
  erewrite bind_run by (by apply get_root_run).
  erewrite bind_run by exact Hrun.
  by eapply set_root_run.
Qed.

Lemma copy_construct_spec (fuel : nat) h T original r t :
  T !! original = Some r → repr h r None t → depth t < fuel →
  ∃ h' q t',
    copy_construct fuel original (World h T) =
      Some (fresh (dom T), World h' (<[fresh (dom T) := q]> T)) ∧
    repr h' q None t' ∧ same_shape t t' ∧ NoDup (locs t') ∧
    (∀ x, x ∈ locs t' → h !! x = None) ∧
    (∀ x, is_Some (h !! x) → h' !! x = h !! x) ∧
    (∀ x, is_Some (h' !! x) → is_Some (h !! x) ∨ x ∈ locs t').
Proof.
  intros Ht Hr Hf.
  destruct (makeCopy_spec t fuel h (<[fresh (dom T) := None]> T) r None Hr Hf)
    as (h' & q & t' & Hrun & Hrest).
  exists h', q, t'. split; [|done].
  assert (fresh (dom T) ≠ original) as Hne.
  { intros Heq. apply elem_of_dom_2 in Ht. rewrite <- Heq in Ht. by apply is_fresh in Ht. }
  unfold copy_construct.
  erewrite bind_run by reflexivity.
  erewrite bind_run by (apply get_root_run; by rewrite lookup_insert_ne).
  erewrite bind_run by exact Hrun.
  erewrite bind_run by (eapply set_root_run; apply lookup_insert_eq).
  by rewrite insert_insert_eq.
Qed.

Lemma destroy_spec (fuel : nat) h T this r t :
  T !! this = Some r → repr h r None t → NoDup (locs t) → depth t < fuel →
  ∃ h', destroy fuel this (World h T) = Some (tt, World h' (delete this T)) ∧
        (∀ x, x ∉ locs t → h' !! x = h !! x) ∧
        (∀ x, x ∈ locs t → h' !! x = None).
Proof.
  intros Ht Hr Hnd Hf.
  destruct (clear_spec fuel h T this r t Ht Hr Hnd Hf) as (h' & Hrun & Hfr & Hgone).
  exists h'. split; [|done]. unfold destroy.
  erewrite bind_run by exact Hrun.
  unfold drop_tree. simpl. rewrite lookup_insert_eq. by rewrite delete_insert_eq.
Qed.

Lemma assign_spec (fuel : nat) h T this argument r ra t ta :
  T !! this = Some r → repr h r None t → NoDup (locs t) →
  T !! argument = Some ra → repr h ra None ta →
  depth t < fuel → depth ta < fuel →
  ∃ h' q t',
    assign fuel this argument (World h T) = Some (tt, World h' (<[this := q]> T)) ∧
    repr h' q None t' ∧ same_shape ta t' ∧ NoDup (locs t') ∧
    (∀ x, x ∈ locs t' → h !! x = None) ∧
    (∀ x, is_Some (h !! x) → x ∉ locs t → h' !! x = h !! x) ∧
    (∀ x, x ∈ locs t → h' !! x = None).
Proof.
  intros Ht Hr Hnd Hta Hra Hf Hfa.
  destruct (copy_construct_spec fuel h T argument ra ta Hta Hra Hfa)
    as (h1 & q & t' & Hrun1 & Hr' & Hshape & Hnd' & Hfresh & Hfr1 & Hdom1).
  set (rhs := fresh (dom T)) in *.
  assert (rhs ≠ this) as Hne.
  { intros Heq. apply elem_of_dom_2 in Ht. rewrite <- Heq in Ht. by apply is_fresh in Ht. }
  assert (T !! rhs = None) as Hrhs by apply not_elem_of_dom, is_fresh.
  set (T2 := <[this := q]> (<[rhs := r]> (<[rhs := q]> T))).
  destruct (destroy_spec fuel h1 T2 rhs r t) as (h2 & Hrun2 & Hfr2 & Hgone2);
    [| |done|done|].
  { unfold T2. rewrite lookup_insert_ne by done. apply lookup_insert_eq. }
  { eapply repr_frame; [exact Hr|]. intros x Hx. apply Hfr1.
    eapply repr_alloc; [exact Hr|done]. }
  assert (delete rhs T2 = <[this := q]> T) as HT.
  { unfold T2. rewrite delete_insert_ne by done. rewrite insert_insert_eq.
    rewrite delete_insert_eq. by rewrite delete_id. }
  exists h2, q, t'. split; [|split; [|split; [|split; [|split; [|split]]]]];
    [| |done|done|done| |done].
  - unfold assign.
    erewrite bind_run by exact Hrun1.
    erewrite bind_run by (apply get_root_run; apply lookup_insert_eq).
    erewrite bind_run by (apply get_root_run; rewrite lookup_insert_ne by done; exact Ht).
    erewrite bind_run by (eapply set_root_run; apply lookup_insert_eq).
    erewrite bind_run
      by (eapply set_root_run; rewrite lookup_insert_ne by done;
          rewrite lookup_insert_ne by done; exact Ht).
    fold T2. rewrite Hrun2. by rewrite HT.
  - eapply repr_frame; [exact Hr'|]. intros x Hx. apply Hfr2.
    intros Hx'. apply Hfresh in Hx.
    destruct (repr_alloc _ _ _ _ _ Hr Hx'). congruence.
  - intros x Hx Hxt. rewrite Hfr2 by done. by apply Hfr1.
Qed.

(** ** The state invariant *)

Lemma tree_of_functional w this t t' : tree_of w this t → tree_of w this t' → t = t'.
Proof.
  intros (r & Ht & Hr & _) (r' & Ht' & Hr' & _). simplify_eq.
  by eapply repr_functional.
Qed.

Lemma tree_of_alloc w this t x : tree_of w this t → x ∈ locs t → is_Some (nodes w !! x).
Proof. intros (r & _ & Hr & _) Hx. by eapply repr_alloc. Qed.

(** One tree object is replaced or created; everything outside its old
    nodes that was allocated stays as it was. *)
Lemma wf_update w this t h' r' t' :
  wf w → tree_of w this t ∨ (trees w !! this = None ∧ t = Leaf) →
  repr h' r' None t' → NoDup (locs t') → bst t' →
  (∀ x, is_Some (nodes w !! x) → x ∉ locs t → h' !! x = nodes w !! x) →
  (∀ x, x ∈ locs t' → x ∈ locs t ∨ nodes w !! x = None) →
  wf (World h' (<[this := r']> (trees w))).
Proof.
  intros [Hall Hdisj] Hthis Hr' Hnd' Hb' Hfr Hnew.
  assert (∀ j tj, j ≠ this → tree_of w j tj → locs tj ## locs t) as Hsep.
  { intros j tj Hj Htj. destruct Hthis as [Hthis|[_ ->]]; [by eapply Hdisj|].
    intros x _ Hx. simpl in Hx. set_solver. }
  assert (∀ j tj, j ≠ this → tree_of w j tj →
            tree_of (World h' (<[this := r']> (trees w))) j tj) as Hkeep.
  { intros j tj Hj Htj. pose proof Htj as (rj & Hlj & Hrj & Hndj).
    exists rj. simpl. rewrite lookup_insert_ne by done.
    split; [done|]. split; [|done].
    eapply repr_frame; [exact Hrj|]. intros x Hx. apply Hfr.
    - by eapply tree_of_alloc.
    - intros Hx'. by apply (Hsep j tj Hj Htj x). }
  assert (∀ j tj, j ≠ this → tree_of (World h' (<[this := r']> (trees w))) j tj →
            tree_of w j tj) as Hback.
  { intros j tj Hj Htj. pose proof Htj as (rj & Hlj & _). simpl in Hlj.
    rewrite lookup_insert_ne in Hlj by done.
    destruct (Hall _ _ Hlj) as (tj0 & Htj0 & _).
    by rewrite (tree_of_functional _ _ _ _ Htj (Hkeep _ _ Hj Htj0)). }
  assert (tree_of (World h' (<[this := r']> (trees w))) this t') as Hnewtree.
  { exists r'. simpl. by rewrite lookup_insert_eq. }
  assert (∀ j tj, j ≠ this → tree_of w j tj → locs t' ## locs tj) as Hsep'.
  { intros j tj Hj Htj x Hx Hxj. destruct (Hnew _ Hx) as [Hx'|Hx'].
    - by apply (Hsep j tj Hj Htj x).
    - destruct (tree_of_alloc _ _ _ _ Htj Hxj). congruence. }
  split.
  - intros j rj. simpl. destruct (decide (j = this)) as [->|Hj].
    + rewrite lookup_insert_eq. intros [= <-]. eauto.
    + rewrite lookup_insert_ne by done. intros Hlj.
      destruct (Hall _ _ Hlj) as (tj & Htj & Hbj). eauto.
  - intros i j ti tj Hij Hti Htj.
    destruct (decide (i = this)) as [->|Hi], (decide (j = this)) as [->|Hj]; [done| | |].
    + rewrite (tree_of_functional _ _ _ _ Hti Hnewtree).
      apply (Hsep' j tj Hj (Hback _ _ Hj Htj)).
    + rewrite (tree_of_functional _ _ _ _ Htj Hnewtree).
      intros x Hx Hx'. apply (Hsep' i ti Hi (Hback _ _ Hi Hti) x Hx' Hx).
    + apply (Hdisj i j ti tj Hij (Hback _ _ Hi Hti) (Hback _ _ Hj Htj)).
Qed.

Lemma wf_destroy w this t h' :
  wf w → tree_of w this t →
  (∀ x, x ∉ locs t → h' !! x = nodes w !! x) →
  wf (World h' (delete this (trees w))).
Proof.
  intros [Hall Hdisj] Hthis Hfr.
  assert (∀ j tj, j ≠ this → tree_of w j tj →
            tree_of (World h' (delete this (trees w))) j tj) as Hkeep.
  { intros j tj Hj Htj. pose proof Htj as (rj & Hlj & Hrj & Hndj).
    exists rj. simpl. rewrite lookup_delete_ne by done.
    split; [done|]. split; [|done].
    eapply repr_frame; [exact Hrj|]. intros x Hx. apply Hfr.
    intros Hx'. by apply (Hdisj j this tj t Hj Htj Hthis x). }
  assert (∀ j tj, tree_of (World h' (delete this (trees w))) j tj →
            j ≠ this ∧ tree_of w j tj) as Hback.
  { intros j tj Htj. pose proof Htj as (rj & Hlj & _). simpl in Hlj.
    destruct (decide (j = this)) as [->|Hj]; [by rewrite lookup_delete_eq in Hlj|].
    split; [done|]. rewrite lookup_delete_ne in Hlj by done.
    destruct (Hall _ _ Hlj) as (tj0 & Htj0 & _).
    by rewrite (tree_of_functional _ _ _ _ Htj (Hkeep _ _ Hj Htj0)). }
  split.
  - intros j rj. simpl. intros Hlj.
    destruct (decide (j = this)) as [->|Hj]; [by rewrite lookup_delete_eq in Hlj|].
    rewrite lookup_delete_ne in Hlj by done.
    destruct (Hall _ _ Hlj) as (tj & Htj & Hbj). eauto.
  - intros i j ti tj Hij Hti Htj.
    apply Hback in Hti as [_ Hti]. apply Hback in Htj as [_ Htj]. eauto.
Qed.

Lemma wf_empty : wf (empty_world : world).
Proof.
  split.
  - intros this r. simpl. by rewrite lookup_empty.
  - intros i j ti tj _ (r & Hl & _). simpl in Hl. by rewrite lookup_empty in Hl.
Qed.

Lemma mono_agree {A} (f : nat → M A) w (n m : nat) r r' :
  mono f → f n w = Some r → f m w = Some r' → r = r'.
Proof.
  intros Hm Hn Hm'.
  pose proof (Hm (n `max` m) n w r ltac:(lia) Hn) as E1.
  pose proof (Hm (n `max` m) m w r' ltac:(lia) Hm') as E2.
  congruence.
Qed.

(** A tree whose nodes and root are untouched is still there. *)
Lemma tree_of_frame w w' j tj :
  tree_of w j tj → trees w' !! j = trees w !! j →
  (∀ x, x ∈ locs tj → nodes w' !! x = nodes w !! x) →
  tree_of w' j tj.
Proof.
  intros (rj & Hlj & Hrj & Hndj) HT Hfr. exists rj.
  split; [by rewrite HT|]. split; [|done]. by eapply repr_frame.
Qed.

Lemma wf_tree w this r : wf w → trees w !! this = Some r → ∃ t, tree_of w this t ∧ bst t.
Proof. intros [Hall _]. apply Hall. Qed.

Lemma wf_disjoint w i j ti tj x :
  wf w → i ≠ j → tree_of w i ti → tree_of w j tj → x ∈ locs ti → x ∉ locs tj.
Proof. intros [_ Hdisj] Hij Hti Htj Hx Hx'. by apply (Hdisj i j ti tj Hij Hti Htj x). Qed.

(** ** What each call does to a well-formed world *)

Lemma insert_world mode w this t key value :
  wf w → tree_of w this t →
  ∃ w', (∀ fuel : nat, depth t < fuel →
           insert mode fuel this key value w = Some (tt, w')) ∧
        wf w' ∧
        tree_of w' this (pinsert (fresh (dom (nodes w))) key value t) ∧
        (∀ j tj, j ≠ this → tree_of w j tj → tree_of w' j tj).
Proof.
  intros Hwf Ht. pose proof Ht as (r & Hl & Hr & Hnd). destruct w as [h T]. simpl in *.
  destruct (wf_tree _ _ _ Hwf Hl) as (t0 & Ht0 & Hb).
  rewrite <- (tree_of_functional _ _ _ _ Ht Ht0) in Hb. clear t0 Ht0.
  destruct (insert_spec mode (S (depth t)) h T this r t key value Hl Hr Hnd)
    as (h' & r' & Hrun & Hr' & Hfr & Hdom); [lia|].
  set (l := fresh (dom h)) in *.
  assert (h !! l = None) as Hfresh by apply not_elem_of_dom, is_fresh.
  assert (l ∉ locs t) as Hlt.
  { intros Hx. destruct (repr_alloc _ _ _ _ _ Hr Hx). congruence. }
  assert (NoDup (locs (pinsert l key value t))) as Hnd'.
  { rewrite pinsert_locs. by constructor. }
  assert (∀ x, is_Some (h !! x) → x ∉ locs t → h' !! x = h !! x) as Hfr'.
  { intros x Hx Hxt. by destruct (Hfr x Hx). }
  exists (World h' (<[this := r']> T)). split; [|split; [|split]].
  - intros fuel Hf. eapply (insert_mono mode this key value fuel (S (depth t)));
      [lia|done].
  - eapply (wf_update (World h T) this t); eauto using pinsert_bst.
    intros x Hx. simpl. rewrite pinsert_locs in Hx.
    apply elem_of_cons in Hx as [->|?]; eauto.
  - exists r'. simpl. by rewrite lookup_insert_eq.
  - intros j tj Hj Htj. eapply tree_of_frame; [done|simpl; by rewrite lookup_insert_ne|].
    intros x Hx. simpl. apply Hfr'; [by eapply (tree_of_alloc (World h T))|].
    by eapply (wf_disjoint (World h T) j this).
Qed.

Lemma remove_world mode w this t key :
  wf w → tree_of w this t →
  ∃ w', (∀ fuel : nat, depth t < fuel → remove mode fuel this key w = Some (tt, w')) ∧
        wf w' ∧ tree_of w' this (premove key t) ∧
        (∀ j tj, j ≠ this → tree_of w j tj → tree_of w' j tj).
Proof.
  intros Hwf Ht. pose proof Ht as (r & Hl & Hr & Hnd). destruct w as [h T]. simpl in *.
  destruct (wf_tree _ _ _ Hwf Hl) as (t0 & Ht0 & Hb).
  rewrite <- (tree_of_functional _ _ _ _ Ht Ht0) in Hb. clear t0 Ht0.
  destruct (remove_spec mode (S (depth t)) h T this r t key Hl Hr Hnd)
    as (h' & r' & Hrun & Hr' & Hfr & Hdom); [lia|].
  assert (NoDup (locs (premove key t)) ∧ bst (premove key t) ∧
          ∀ x, x ∈ locs (premove key t) → x ∈ locs t) as (Hnd' & Hb' & Hsub).
  { unfold premove. destruct (psearch key t); [|done].
    split; [by apply premove_at_NoDup|]. split; [by apply premove_at_bst|].
    intros x Hx. eapply elem_of_sublist; [exact Hx|apply premove_at_locs]. }
  exists (World h' (<[this := r']> T)). split; [|split; [|split]].
  - intros fuel Hf. eapply (remove_mono mode this key fuel (S (depth t))); [lia|done].
  - eapply (wf_update (World h T) this t); eauto.
  - exists r'. simpl. by rewrite lookup_insert_eq.
  - intros j tj Hj Htj. eapply tree_of_frame; [done|simpl; by rewrite lookup_insert_ne|].
    intros x Hx. simpl. apply Hfr. by eapply (wf_disjoint (World h T) j this).
Qed.

Lemma clear_world w this t :
  wf w → tree_of w this t →
  ∃ w', (∀ fuel : nat, depth t < fuel → clear fuel this w = Some (tt, w')) ∧
        wf w' ∧ tree_of w' this Leaf ∧
        (∀ j tj, j ≠ this → tree_of w j tj → tree_of w' j tj).
Proof.
  intros Hwf Ht. pose proof Ht as (r & Hl & Hr & Hnd). destruct w as [h T]. simpl in *.
  destruct (clear_spec (S (depth t)) h T this r t Hl Hr Hnd)
    as (h' & Hrun & Hfr & Hgone); [lia|].
  exists (World h' (<[this := None]> T)). split; [|split; [|split]].
  - intros fuel Hf. eapply (clear_mono this fuel (S (depth t))); [lia|done].
  - eapply (wf_update (World h T) this t _ _ Leaf);
      [done|by left|constructor|apply NoDup_nil_2|done| |].
    + intros x _ Hx. by apply Hfr.
    + intros x Hx. simpl in Hx. set_solver.
  - exists None. simpl. rewrite lookup_insert_eq. split; [done|]. split; [constructor|].
    apply NoDup_nil_2.
  - intros j tj Hj Htj. eapply tree_of_frame; [done|simpl; by rewrite lookup_insert_ne|].
    intros x Hx. simpl. apply Hfr. by eapply (wf_disjoint (World h T) j this).
Qed.

Lemma construct_world w :
  wf w →
  ∃ w', construct w = Some (fresh (dom (trees w)), w') ∧ wf w' ∧
        tree_of w' (fresh (dom (trees w))) Leaf ∧
        (∀ j tj, tree_of w j tj → tree_of w' j tj).
Proof.
  intros Hwf. destruct w as [h T]. simpl.
  assert (T !! fresh (dom T) = None) as Hfresh by apply not_elem_of_dom, is_fresh.
  exists (World h (<[fresh (dom T) := None]> T)). split; [done|]. split; [|split].
  - eapply (wf_update (World h T) _ Leaf _ _ Leaf);
      [done|by right|constructor|apply NoDup_nil_2|done|done|].
    intros x Hx. simpl in Hx. set_solver.
  - exists None. simpl. rewrite lookup_insert_eq. split; [done|]. split; [constructor|].
    apply NoDup_nil_2.
  - intros j tj Htj. eapply tree_of_frame; [done| |done]. simpl.
    rewrite lookup_insert_ne; [done|]. intros <-.
    destruct Htj as (? & Hl & _). simpl in Hl. congruence.
Qed.

Lemma copy_construct_world w original t :
  wf w → tree_of w original t →
  ∃ w' t',
    (∀ fuel : nat, depth t < fuel →
       copy_construct fuel original w = Some (fresh (dom (trees w)), w')) ∧
    wf w' ∧ tree_of w' (fresh (dom (trees w))) t' ∧ same_shape t t' ∧
    (∀ x, x ∈ locs t' → nodes w !! x = None) ∧
    (∀ j tj, tree_of w j tj → tree_of w' j tj).
Proof.
  intros Hwf Ht. pose proof Ht as (r & Hl & Hr & Hnd). destruct w as [h T]. simpl in *.
  destruct (wf_tree _ _ _ Hwf Hl) as (t0 & Ht0 & Hb).
  rewrite <- (tree_of_functional _ _ _ _ Ht Ht0) in Hb. clear t0 Ht0.
  destruct (copy_construct_spec (S (depth t)) h T original r t Hl Hr)
    as (h' & q & t' & Hrun & Hr' & Hshape & Hnd' & Hfresh & Hfr & Hdom); [lia|].
  assert (T !! fresh (dom T) = None) as HTfresh by apply not_elem_of_dom, is_fresh.
  exists (World h' (<[fresh (dom T) := q]> T)), t'.
  split; [|split; [|split; [|split; [|split]]]]; [| | |done|done|].
  - intros fuel Hf. eapply (copy_construct_mono original fuel (S (depth t))); [lia|done].
  - eapply (wf_update (World h T) _ Leaf); eauto using same_shape_bst.
  - exists q. simpl. by rewrite lookup_insert_eq.
  - intros j tj Htj. eapply tree_of_frame; [done| |].
    + simpl. rewrite lookup_insert_ne; [done|]. intros <-.
      destruct Htj as (? & Hlj & _). simpl in Hlj. congruence.
    + intros x Hx. simpl. apply Hfr. by eapply (tree_of_alloc (World h T)).
Qed.

Lemma destroy_world w this t :
  wf w → tree_of w this t →
  ∃ w', (∀ fuel : nat, depth t < fuel → destroy fuel this w = Some (tt, w')) ∧
        wf w' ∧ trees w' !! this = None ∧
        (∀ j tj, j ≠ this → tree_of w j tj → tree_of w' j tj).
Proof.
  intros Hwf Ht. pose proof Ht as (r & Hl & Hr & Hnd). destruct w as [h T]. simpl in *.
  destruct (destroy_spec (S (depth t)) h T this r t Hl Hr Hnd)
    as (h' & Hrun & Hfr & Hgone); [lia|].
  exists (World h' (delete this T)). split; [|split; [|split]].
  - intros fuel Hf. eapply (destroy_mono this fuel (S (depth t))); [lia|done].
  - by eapply (wf_destroy (World h T) this t).
  - simpl. apply lookup_delete_eq.
  - intros j tj Hj Htj. eapply tree_of_frame; [done|simpl; by rewrite lookup_delete_ne|].
    intros x Hx. simpl. apply Hfr. by eapply (wf_disjoint (World h T) j this).
Qed.

Lemma assign_world w this argument t ta :
  wf w → tree_of w this t → tree_of w argument ta →
  ∃ w' t',
    (∀ fuel : nat, depth t < fuel → depth ta < fuel →
       assign fuel this argument w = Some (tt, w')) ∧
    wf w' ∧ tree_of w' this t' ∧ same_shape ta t' ∧
    (∀ j tj, j ≠ this → tree_of w j tj → tree_of w' j tj).
Proof.
  intros Hwf Ht Hta. pose proof Ht as (r & Hl & Hr & Hnd).
  pose proof Hta as (ra & Hla & Hra & Hnda). destruct w as [h T]. simpl in *.
  destruct (wf_tree _ _ _ Hwf Hla) as (t0 & Ht0 & Hb).
  rewrite <- (tree_of_functional _ _ _ _ Hta Ht0) in Hb. clear t0 Ht0.
  destruct (assign_spec (S (depth t `max` depth ta)) h T this argument r ra t ta
              Hl Hr Hnd Hla Hra)
    as (h' & q & t' & Hrun & Hr' & Hshape & Hnd' & Hfresh & Hfr & Hgone); [lia..|].
  exists (World h' (<[this := q]> T)), t'.
  split; [|split; [|split; [|split]]]; [| | |done|].
  - intros fuel Hf Hfa.
    eapply (assign_mono this argument fuel (S (depth t `max` depth ta))); [lia|done].
  - eapply (wf_update (World h T) this t); eauto using same_shape_bst.
  - exists q. simpl. by rewrite lookup_insert_eq.
  - intros j tj Hj Htj. eapply tree_of_frame; [done|simpl; by rewrite lookup_insert_ne|].
    intros x Hx. simpl. apply Hfr; [by eapply (tree_of_alloc (World h T))|].
    by eapply (wf_disjoint (World h T) j this).
Qed.

(** ** Every reachable world is well formed *)

Lemma exec_world mode o w :
  wf w → live w o →
  ∃ w' (f0 : nat),
    (∀ fuel : nat, f0 ≤ fuel → exec mode fuel o w = Some (tt, w')) ∧
    wf w' ∧
    (∀ j tj, target o ≠ Some j → tree_of w j tj → tree_of w' j tj) ∧
    (∀ j, is_Some (trees w !! j) → o ≠ Destroy j → is_Some (trees w' !! j)).
Proof.
  intros Hwf Hlive.
  assert (∀ w' : world, (∀ j tj, tree_of w j tj → tree_of w' j tj) → wf w →
            ∀ j, is_Some (trees w !! j) → is_Some (trees w' !! j)) as Hpersist.
  { intros w' Hkeep _ j [rj Hj]. destruct (wf_tree _ _ _ Hwf Hj) as (tj & Htj & _).
    destruct (Hkeep _ _ Htj) as (? & ? & _). eauto. }
  assert (∀ (w' : world) this t', tree_of w' this t' →
            (∀ j tj, j ≠ this → tree_of w j tj → tree_of w' j tj) →
            ∀ j, is_Some (trees w !! j) → is_Some (trees w' !! j)) as Hpersist'.
  { intros w' this t' (? & ? & _) Hkeep j [rj Hj].
    destruct (decide (j = this)) as [->|Hne]; [eauto|].
    destruct (wf_tree _ _ _ Hwf Hj) as (tj & Htj & _).
    destruct (Hkeep _ _ Hne Htj) as (? & ? & _). eauto. }
  destruct o as [|original|this argument|this|this key value|this key|this];
    simpl in Hlive.
  - destruct (construct_world w Hwf) as (w' & Hrun & Hwf' & Hnew & Hkeep).
    exists w', 0. split; [|split; [|split]]; [|done|eauto..].
    intros fuel _. simpl. by erewrite bind_run by exact Hrun.
  - destruct Hlive as [r Hr]. destruct (wf_tree _ _ _ Hwf Hr) as (t & Ht & _).
    destruct (copy_construct_world w original t Hwf Ht)
      as (w' & t' & Hrun & Hwf' & Hnew & _ & _ & Hkeep).
    exists w', (S (depth t)). split; [|split; [|split]]; [|done|eauto..].
    intros fuel Hf. simpl. by erewrite bind_run by (apply Hrun; lia).
  - destruct Hlive as [[r Hr] [ra Hra]].
    destruct (wf_tree _ _ _ Hwf Hr) as (t & Ht & _).
    destruct (wf_tree _ _ _ Hwf Hra) as (ta & Hta & _).
    destruct (assign_world w this argument t ta Hwf Ht Hta)
      as (w' & t' & Hrun & Hwf' & Hnew & _ & Hkeep).
    exists w', (S (depth t `max` depth ta)). split; [|split; [|split]]; [|done| |].
    + intros fuel Hf. simpl. apply Hrun; lia.
    + intros j tj Hj. apply Hkeep. simpl in Hj. congruence.
    + intros j Hj _. eapply Hpersist'; eauto.
  - destruct Hlive as [r Hr]. destruct (wf_tree _ _ _ Hwf Hr) as (t & Ht & _).
    destruct (destroy_world w this t Hwf Ht) as (w' & Hrun & Hwf' & Hgone & Hkeep).
    exists w', (S (depth t)). split; [|split; [|split]]; [|done| |].
    + intros fuel Hf. simpl. apply Hrun; lia.
    + intros j tj Hj. apply Hkeep. simpl in Hj. congruence.
    + intros j [rj Hj] Hne. assert (j ≠ this) as Hne' by congruence.
      destruct (wf_tree _ _ _ Hwf Hj) as (tj & Htj & _).
      destruct (Hkeep _ _ Hne' Htj) as (? & ? & _). eauto.
  - destruct Hlive as [r Hr]. destruct (wf_tree _ _ _ Hwf Hr) as (t & Ht & _).
    destruct (insert_world mode w this t key value Hwf Ht)
      as (w' & Hrun & Hwf' & Hnew & Hkeep).
    exists w', (S (depth t)). split; [|split; [|split]]; [|done| |].
    + intros fuel Hf. simpl. apply Hrun; lia.
    + intros j tj Hj. apply Hkeep. simpl in Hj. congruence.
    + intros j Hj _. eapply Hpersist'; eauto.
  - destruct Hlive as [r Hr]. destruct (wf_tree _ _ _ Hwf Hr) as (t & Ht & _).
    destruct (remove_world mode w this t key Hwf Ht)
      as (w' & Hrun & Hwf' & Hnew & Hkeep).
    exists w', (S (depth t)). split; [|split; [|split]]; [|done| |].
    + intros fuel Hf. simpl. apply Hrun; lia.
    + intros j tj Hj. apply Hkeep. simpl in Hj. congruence.
    + intros j Hj _. eapply Hpersist'; eauto.
  - destruct Hlive as [r Hr]. destruct (wf_tree _ _ _ Hwf Hr) as (t & Ht & _).
    destruct (clear_world w this t Hwf Ht) as (w' & Hrun & Hwf' & Hnew & Hkeep).
    exists w', (S (depth t)). split; [|split; [|split]]; [|done| |].
    + intros fuel Hf. simpl. apply Hrun; lia.
    + intros j tj Hj. apply Hkeep. simpl in Hj. congruence.
    + intros j Hj _. eapply Hpersist'; eauto.
Qed.

(** Whatever fuel a call succeeded with, its effect is the one described. *)
Lemma exec_inv mode (fuel : nat) o w w' :
  wf w → live w o → exec mode fuel o w = Some (tt, w') →
  wf w' ∧
  (∀ j tj, target o ≠ Some j → tree_of w j tj → tree_of w' j tj) ∧
  (∀ j, is_Some (trees w !! j) → o ≠ Destroy j → is_Some (trees w' !! j)).
Proof.
  intros Hwf Hlive Hrun.
  destruct (exec_world mode o w Hwf Hlive) as (w0 & f0 & Hrun0 & Hrest).
  pose proof (mono_agree _ _ _ _ _ _ (exec_mono mode o) Hrun (Hrun0 f0 (le_n _))) as E.
  by simplify_eq.
Qed.

Lemma reachable_wf mode w : reachable mode w → wf w.
Proof.
  induction 1 as [|w o fuel w' _ IH Hlive Hrun]; [apply wf_empty|].
  by destruct (exec_inv mode fuel o w w' IH Hlive Hrun).
Qed.

(** Calls on existing objects always return. *)
Lemma exec_progress mode o w :
  reachable mode w → live w o →
  ∃ w' (f0 : nat), ∀ fuel : nat, f0 ≤ fuel → exec mode fuel o w = Some (tt, w').
Proof.
  intros Hre Hlive.
  destruct (exec_world mode o w (reachable_wf _ _ Hre) Hlive) as (w' & f0 & Hrun & _).
  eauto.
Qed.

(** ** The claims *)

Lemma tree_node w this t n :
  tree_of w this t → n ∈ locs t →
  ∃ k v L R pl pr par,
    subtree n t = Some (Nd n k v L R) ∧
    nodes w !! n = Some (mkNode k v pl pr par) ∧
    repr (nodes w) pl (Some n) L ∧ repr (nodes w) pr (Some n) R.
Proof.
  intros (r & _ & Hr & _) Hn.
  destruct (subtree_elem n t Hn) as [s Hs].
  pose proof (subtree_root _ _ _ Hs) as Hsr.
  destruct s as [|n' k v L R]; [done|]. cbn [root_of] in Hsr. simplify_eq.
  destruct (repr_subtree _ _ _ _ _ _ Hr Hs) as [par Hrn].
  inversion Hrn; subst. eauto 15.
Qed.

(** C1.  In every world reachable by construction, copy construction,
    assignment, destruction, insert, remove and clear, and for every node
    [n] of every tree: each key under the left link of [n] is strictly
    less than the key of [n], and no key under its right link is less than
    the key of [n] (so it is greater than or equal to it). *)
Theorem bst_ordering_invariant mode w this r n :
  reachable mode w → trees w !! this = Some r → reaches (nodes w) r n →
  ordered_at (nodes w) n.
Proof.
  intros Hre Hthis Hn.
  destruct (wf_tree _ _ _ (reachable_wf _ _ Hre) Hthis) as (t & Ht & Hb).
  pose proof Ht as (r' & Hr' & Hr & Hnd). simplify_eq.
  apply (repr_reaches _ _ _ _ _ Hr) in Hn.
  destruct (tree_node _ _ _ _ Ht Hn) as (k & v & L & R & pl & pr & par & Hs & Hl & HL & HR).
  pose proof (bst_subtree _ _ _ Hs Hb) as (HltL & HgeR & _ & _).
  intros nd Hnd'. simplify_eq. simpl. split.
  - intros m md Hm Hmd. apply (repr_reaches _ _ _ _ _ HL) in Hm.
    pose proof (repr_key_elem _ _ _ _ _ _ HL Hm Hmd) as Hin.
    apply entries_key_elem in Hin. rewrite Forall_forall in HltL. by apply HltL.
  - intros m md Hm Hmd. apply (repr_reaches _ _ _ _ _ HR) in Hm.
    pose proof (repr_key_elem _ _ _ _ _ _ HR Hm Hmd) as Hin.
    apply entries_key_elem in Hin. rewrite Forall_forall in HgeR. by apply HgeR.
Qed.

(** C7.  In every reachable world and for every tree: the root's parent
    link is null, and the children of every node of the tree point back
    to that node. *)
Theorem parent_links_invariant mode w this r :
  reachable mode w → trees w !! this = Some r →
  root_unparented (nodes w) r ∧
  ∀ n, reaches (nodes w) r n → linked_at (nodes w) n.
Proof.
  intros Hre Hthis.
  destruct (wf_tree _ _ _ (reachable_wf _ _ Hre) Hthis) as (t & Ht & Hb).
  pose proof Ht as (r' & Hr' & Hr & Hnd). simplify_eq. split.
  - intros l ->. inversion Hr; subst. eexists. split; [done|]. done.
  - intros n Hn. apply (repr_reaches _ _ _ _ _ Hr) in Hn.
    destruct (tree_node _ _ _ _ Ht Hn)
      as (k & v & L & R & pl & pr & par & Hs & Hl & HL & HR).
    intros nd Hnd'. simplify_eq. simpl. split.
    + intros c ->. inversion HL; subst. eexists. split; [done|]. done.
    + intros c ->. inversion HR; subst. eexists. split; [done|]. done.
Qed.

Lemma bst_sorted t : bst t → StronglySorted key_le (keys t).
Proof.
  induction t as [|l k v L IHL R IHR]; simpl; [constructor|].
  intros (HL & HR & HbL & HbR).
  rewrite Forall_forall in HL, HR.
  apply StronglySorted_app_2; [|by apply IHL|].
  - intros x1 x2 H1 [->|H2]%elem_of_cons; unfold key_le.
    + by apply key_ltb_asym, HL.
    + destruct (key_ltb x2 x1) eqn:E; [|done].
      pose proof (key_ltb_trans _ _ _ E (HL _ H1)) as E'.
      rewrite HR in E' by done. done.
  - constructor; [by apply IHR|]. apply Forall_forall. intros x Hx. by apply HR.
Qed.

Lemma printInorder_exact (fuel : nat) w this t :
  tree_of w this t →
  printInorder fuel this w =
    if bool_decide (depth t < fuel) then Some (entries t, w) else None.
Proof.
  intros (r & Ht & Hr & _). destruct w as [h T]. simpl in *.
  unfold printInorder. erewrite bind_run by (by apply get_root_run).
  by eapply printInorder_node_exact.
Qed.

Lemma getHeight_exact (fuel : nat) w this t :
  tree_of w this t →
  getHeight fuel this w =
    if bool_decide (depth t < fuel) then Some (pheight t, w) else None.
Proof.
  intros (r & Ht & Hr & _). destruct w as [h T]. simpl in *.
  unfold getHeight. erewrite bind_run by (by apply get_root_run).
  by eapply getHeight_node_exact.
Qed.

Lemma insert_all_world mode kvs : ∀ w this t,
  wf w → tree_of w this t →
  ∃ w' t',
    (∀ fuel : nat, depth t + length kvs < fuel →
       insert_all mode fuel this kvs w = Some (tt, w')) ∧
    wf w' ∧ tree_of w' this t' ∧
    depth t' ≤ depth t + length kvs ∧
    entries t' ≡ₚ kvs ++ entries t.
Proof.
  induction kvs as [|[key value] kvs IH]; intros w this t Hwf Ht.
  { exists w, t. simpl. split; [done|]. split; [done|]. split; [done|].
    split; [lia|done]. }
  destruct (insert_world mode w this t key value Hwf Ht)
    as (w1 & Hrun1 & Hwf1 & Ht1 & _).
  destruct (IH w1 this _ Hwf1 Ht1) as (w2 & t2 & Hrun2 & Hwf2 & Ht2 & Hd2 & He2).
  pose proof (pinsert_depth (fresh (dom (nodes w))) key value t) as Hd1.
  exists w2, t2. split; [|split; [done|split; [done|split]]].
  - intros fuel Hf. cbn [insert_all length] in *.
    erewrite bind_run by (apply Hrun1; lia). apply Hrun2. lia.
  - cbn [length]. lia.
  - rewrite He2, pinsert_entries. simpl. by rewrite Permutation_middle.
Qed.

(** C2.  Build a tree from any list of (key, value) pairs by inserting
    them in order into an empty tree.  With enough fuel the traversal
    returns; it prints exactly the inserted pairs, and their keys come out
    in non-decreasing order. *)
Theorem inorder_after_inserts_sorted mode (kvs : list (K * V)) :
  ∃ f0 : nat, ∀ d : nat, ∃ out w,
    inorder_after_inserts mode (f0 + d) kvs empty_world = Some (out, w) ∧
    StronglySorted key_le out.*1 ∧
    out ≡ₚ kvs.
Proof.
  destruct (construct_world empty_world wf_empty) as (w0 & Hrun0 & Hwf0 & Ht0 & _).
  set (this := fresh (dom (trees (empty_world : world)))) in *.
  destruct (insert_all_world mode kvs w0 this Leaf Hwf0 Ht0)
    as (w1 & t1 & Hrun1 & Hwf1 & Ht1 & Hd1 & He1).
  destruct Ht1 as (r1 & Hl1 & Hr1 & Hnd1).
  destruct (wf_tree _ _ _ Hwf1 Hl1) as (t1' & Ht1' & Hb1).
  assert (tree_of w1 this t1) as Ht1 by (by exists r1).
  rewrite <- (tree_of_functional _ _ _ _ Ht1 Ht1') in Hb1. clear t1' Ht1'.
  exists (S (length kvs)). intros d. exists (entries t1), w1.
  split; [|split].
  - unfold inorder_after_inserts.
    erewrite bind_run by exact Hrun0.
    erewrite bind_run by (apply Hrun1; simpl; lia).
    rewrite (printInorder_exact _ _ _ _ Ht1).
    rewrite bool_decide_eq_true_2; [done|]. simpl in Hd1. lia.
  - rewrite <- keys_entries. by apply bst_sorted.
  - by rewrite He1, app_nil_r.
Qed.

Lemma search_exact mode (fuel : nat) w this t key :
  tree_of w this t →
  ∃ res,
    search mode fuel this key w =
      (if bool_decide (search_depth key t < fuel) then Some (res, w) else None) ∧
    match psearch key t with
    | None => res = Throws_invalid_argument
    | Some n => ∃ nd, nodes w !! n = Some nd ∧ res = Returns (value_ nd)
    end.
Proof.
  intros (r & Ht & Hr & _). destruct w as [h T]. simpl in *.
  unfold search. unfold mbind at 1, M_bind, bind.
  erewrite find_node_exact by done.
  destruct (psearch key t) as [n|] eqn:Es.
  - destruct (repr_alloc _ _ _ _ n Hr (psearch_elem _ _ _ Es)) as [nd Hn].
    exists (Returns (value_ nd)). split; [|eauto].
    case_bool_decide; [|done]. simpl.
    by erewrite bind_run by (by apply deref_run).
  - exists Throws_invalid_argument. split; [|done]. by case_bool_decide.
Qed.

Lemma descent_functional h key p n n' :
  descent h key p n → descent h key p n' → n = n'.
Proof.
  induction 1; inversion 1; subst; simplify_eq; eauto; congruence.
Qed.

(** C3.  On a tree of a reachable world, [search] returns once it has
    enough fuel, and whenever it returns: the world is unchanged; the
    outcome is the [invalid_argument] exception exactly when no node of
    the tree carries the key; and the outcome is a value [v] exactly when
    [v] is the value of the first node with that key on the top-down
    descent (left when the key is smaller, right otherwise). *)
Theorem search_spec mode w this r key :
  reachable mode w → trees w !! this = Some r →
  (∃ f0 : nat, ∀ d : nat, is_Some (search mode (f0 + d) this key w)) ∧
  ∀ (fuel : nat) res w', search mode fuel this key w = Some (res, w') →
    w' = w ∧
    (res = Throws_invalid_argument ↔ absent (nodes w) r key) ∧
    (∀ v, res = Returns v ↔
       ∃ n nd, descent (nodes w) key r n ∧ nodes w !! n = Some nd ∧ value_ nd = v).
Proof.
  intros Hre Hthis.
  destruct (wf_tree _ _ _ (reachable_wf _ _ Hre) Hthis) as (t & Ht & Hb).
  pose proof Ht as (r' & Hr' & Hr & Hnd). simplify_eq.
  split.
  - exists (S (depth t)). intros d.
    destruct (search_exact mode (S (depth t) + d) w this t key Ht) as (res & -> & _).
    pose proof (search_depth_le key t).
    rewrite bool_decide_eq_true_2 by lia. eauto.
  - intros fuel res w' Hrun.
    destruct (search_exact mode fuel w this t key Ht) as (res0 & Hrun0 & Hres).
    rewrite Hrun in Hrun0. case_bool_decide; [|done]. simplify_eq.
    split; [done|].
    rewrite (repr_absent _ _ _ _ key Hr), <- (psearch_None key t Hb).
    destruct (psearch key t) as [n|] eqn:Es.
    + destruct Hres as (nd & Hn & ->). split; [done|].
      intros v. split.
      * intros [= <-]. exists n, nd. split; [|done]. by apply (repr_descent _ _ _ _ key n Hr).
      * intros (n' & nd' & Hd & Hn' & <-).
        apply (repr_descent _ _ _ _ key n' Hr) in Hd. by simplify_eq.
    + subst res0. split; [done|]. intros v. split; [done|].
      intros (n' & nd' & Hd & _). apply (repr_descent _ _ _ _ key n' Hr) in Hd.
      congruence.
Qed.

(** C4.  Removing a key that no node of the tree carries returns (given
    enough fuel) and leaves the whole world exactly as it was; in
    particular the tree's in-order sequence and height are unchanged. *)
Theorem remove_absent_noop mode w this r key :
  reachable mode w → trees w !! this = Some r → absent (nodes w) r key →
  (∃ f0 : nat, ∀ d : nat, remove mode (f0 + d) this key w = Some (tt, w)) ∧
  ∀ (fuel : nat) w', remove mode fuel this key w = Some (tt, w') →
    w' = w ∧
    (∀ f : nat, inorder_of f this w' = inorder_of f this w) ∧
    (∀ f : nat, height_of f this w' = height_of f this w).
Proof.
  intros Hre Hthis Habs.
  destruct (wf_tree _ _ _ (reachable_wf _ _ Hre) Hthis) as (t & Ht & Hb).
  pose proof Ht as (r' & Hr' & Hr & Hnd). simplify_eq.
  apply (repr_absent _ _ _ _ key Hr) in Habs. apply (psearch_None key t Hb) in Habs.
  assert (∀ d : nat, remove mode (S (depth t) + d) this key w = Some (tt, w)) as Htot.
  { intros d. eapply remove_absent; [done|done|lia]. }
  split; [eauto|].
  intros fuel w' Hrun.
  pose proof (mono_agree _ _ _ _ _ _ (remove_mono mode this key) Hrun (Htot 0)) as E.
  by simplify_eq.
Qed.

(** C8.  The iterative and the recursive search are the same function of
    the store: for every world, every tree object, every key and every
    amount of fuel they return the same node or both return none.  On a
    tree of a reachable world both return once they have enough fuel, and
    the node is null exactly when the key is absent. *)
Theorem search_variants_agree this key (w : world) :
  (∀ fuel : nat,
     searchIterative fuel this key w =
     (root ← get_root this; searchRecursive fuel root key) w) ∧
  (∀ mode r, reachable mode w → trees w !! this = Some r →
     ∃ f0 : nat, ∀ d : nat, ∃ node,
       searchIterative (f0 + d) this key w = Some (node, w) ∧
       (root ← get_root this; searchRecursive (f0 + d) root key) w = Some (node, w) ∧
       (node = None ↔ absent (nodes w) r key)).
Proof.
  split.
  - intros fuel. apply (find_node_modes fuel this key w).
  - intros mode r Hre Hthis.
    destruct (wf_tree _ _ _ (reachable_wf _ _ Hre) Hthis) as (t & Ht & Hb).
    pose proof Ht as (r' & Hr' & Hr & Hnd). simplify_eq.
    exists (S (depth t)). intros d. exists (psearch key t).
    pose proof (search_depth_le key t).
    destruct w as [h T]. simpl in *.
    pose proof (find_node_exact USING_ITERATIVE_FUNCTIONS (S (depth t) + d) h T this r t
                  key Hthis Hr) as E1.
    pose proof (find_node_exact USING_RECURSIVE_FUNCTIONS (S (depth t) + d) h T this r t
                  key Hthis Hr) as E2.
    rewrite bool_decide_eq_true_2 in E1, E2 by lia.
    split; [exact E1|]. split; [exact E2|].
    by rewrite (repr_absent _ _ _ _ key Hr), <- (psearch_None key t Hb).
Qed.

(** C10.  Assigning a tree of a reachable world to itself returns (given
    enough fuel), and afterwards the tree prints the same in-order
    sequence and has the same height as before. *)
Theorem self_assignment_safe mode w this r :
  reachable mode w → trees w !! this = Some r →
  (∃ f0 : nat, ∀ d : nat, is_Some (assign (f0 + d) this this w)) ∧
  ∀ (fuel : nat) w', assign fuel this this w = Some (tt, w') →
    ∀ f : nat,
      inorder_of f this w' = inorder_of f this w ∧
      height_of f this w' = height_of f this w.
Proof.
  intros Hre Hthis.
  destruct (wf_tree _ _ _ (reachable_wf _ _ Hre) Hthis) as (t & Ht & Hb).
  destruct (assign_world w this this t t (reachable_wf _ _ Hre) Ht Ht)
    as (w0 & t' & Hrun0 & Hwf0 & Ht' & Hshape & _).
  split.
  - exists (S (depth t)). intros d. rewrite Hrun0 by lia. eauto.
  - intros fuel w' Hrun.
    pose proof (mono_agree _ _ _ _ _ _ (assign_mono this this) Hrun
                  (Hrun0 (S (depth t)) ltac:(lia) ltac:(lia))) as E.
    simplify_eq. intros f.
    rewrite (inorder_of_exact f w0 this t' Ht'), (inorder_of_exact f w this t Ht).
    rewrite (height_of_exact f w0 this t' Ht'), (height_of_exact f w this t Ht).
    rewrite (same_shape_depth _ _ Hshape), (same_shape_entries _ _ Hshape),
      (same_shape_pheight _ _ Hshape). done.
Qed.

(** Calls that mutate one tree object leave every other tree as it is. *)
Lemma run_frame mode (fuel : nat) os : ∀ w w' c i t,
  wf w → Forall (mutates c) os → is_Some (trees w !! c) → c ≠ i →
  tree_of w i t → run mode fuel os w = Some (tt, w') →
  wf w' ∧ tree_of w' i t.
Proof.
  induction os as [|o os IH]; intros w w' c i t Hwf Hos Hc Hci Ht; simpl.
  { by intros [= <-]. }
  apply Forall_cons in Hos as [Ho Hos].
  unfold mbind, M_bind, bind.
  destruct (exec mode fuel o w) as [[[] w1]|] eqn:E; [|done].
  intros Hrun.
  assert (live w o ∧ target o = Some c ∧ o ≠ Destroy c) as (Hlive & Htgt & Hnd).
  { destruct o; simpl in Ho; try done; subst; done. }
  destruct (exec_inv mode fuel o w w1 Hwf Hlive E) as (Hwf1 & Hkeep & Hpersist).
  eapply (IH w1 w' c i t); eauto.
  apply Hkeep; [|done]. rewrite Htgt. congruence.
Qed.

(** Mutating calls on an existing tree object always return. *)
Lemma run_progress mode os : ∀ w c,
  wf w → Forall (mutates c) os → is_Some (trees w !! c) →
  ∃ w' (f0 : nat), ∀ fuel : nat, f0 ≤ fuel → run mode fuel os w = Some (tt, w').
Proof.
  induction os as [|o os IH]; intros w c Hwf Hos Hc; simpl.
  { by exists w, 0. }
  apply Forall_cons in Hos as [Ho Hos].
  assert (live w o ∧ o ≠ Destroy c) as (Hlive & Hnd).
  { destruct o; simpl in Ho; try done; subst; done. }
  destruct (exec_world mode o w Hwf Hlive) as (w1 & f1 & Hrun1 & Hwf1 & _ & Hpersist).
  destruct (IH w1 c Hwf1 Hos (Hpersist c Hc Hnd)) as (w' & f2 & Hrun2).
  exists w', (f1 `max` f2). intros fuel Hf.
  unfold mbind, M_bind, bind. rewrite Hrun1 by lia. apply Hrun2. lia.
Qed.

(** C6.  Copy-constructing a tree of a reachable world returns (given
    enough fuel).  The copy is a different object with the same shape,
    keys and values and no node in common with the original, and it
    prints the same in-order sequence and has the same height.  Any
    sequence of insert, remove and clear calls on the copy returns (given
    enough fuel), and after the calls the original still prints the same
    in-order sequence and has the same height. *)
Theorem copy_is_independent mode w original r os :
  reachable mode w → trees w !! original = Some r →
  (∃ f0 : nat, ∀ d : nat, is_Some (copy_construct (f0 + d) original w)) ∧
  ∀ (fuel : nat) copy w1, copy_construct fuel original w = Some (copy, w1) →
    (copy ≠ original ∧
     ∃ t t', tree_of w original t ∧ tree_of w1 original t ∧ tree_of w1 copy t' ∧
             same_shape t t' ∧
             ∀ rc n, trees w1 !! copy = Some rc →
                     reaches (nodes w1) r n → reaches (nodes w1) rc n → False) ∧
    (∀ f : nat, inorder_of f copy w1 = inorder_of f original w ∧
                height_of f copy w1 = height_of f original w) ∧
    (Forall (mutates copy) os →
       (∃ f0 : nat, ∀ d : nat, is_Some (run mode (f0 + d) os w1)) ∧
       ∀ (fuel' : nat) w2, run mode fuel' os w1 = Some (tt, w2) →
         ∀ f : nat, inorder_of f original w2 = inorder_of f original w ∧
                    height_of f original w2 = height_of f original w).
Proof.
  intros Hre Hthis.
  pose proof (reachable_wf _ _ Hre) as Hwf.
  destruct (wf_tree _ _ _ Hwf Hthis) as (t & Ht & Hb).
  destruct (copy_construct_world w original t Hwf Ht)
    as (w1' & t' & Hrun1 & Hwf1 & Ht' & Hshape & Hfresh & Hkeep).
  split.
  { exists (S (depth t)). intros d. rewrite Hrun1 by lia. eauto. }
  intros fuel copy w1 Hcopy.
  pose proof (mono_agree _ _ _ _ _ _ (copy_construct_mono original) Hcopy
                (Hrun1 (S (depth t)) ltac:(lia))) as E.
  simplify_eq.
  set (copy := fresh (dom (trees w))) in *.
  assert (copy ≠ original) as Hne.
  { intros Heq. apply elem_of_dom_2 in Hthis. rewrite <- Heq in Hthis.
    by apply is_fresh in Hthis. }
  pose proof (Hkeep _ _ Ht) as Ht1.
  assert (is_Some (trees w1' !! copy)) as Hlive by (destruct Ht' as (? & ? & _); eauto).
  split; [|split].
  - split; [done|]. exists t, t'. split; [done|]. split; [done|]. split; [done|].
    split; [done|].
    intros rc n Hrc Hn Hn'.
    destruct Ht1 as (r1 & Hr1 & Hrep1 & _). destruct Ht' as (rc' & Hrc' & Hrepc & _).
    destruct Ht as (r0 & Hr0 & Hrep0 & _). simplify_eq.
    assert (r1 = r) as ->.
    { by rewrite (repr_root _ _ _ _ Hrep1), (repr_root _ _ _ _ Hrep0). }
    apply (repr_reaches _ _ _ _ _ Hrep1) in Hn.
    apply (repr_reaches _ _ _ _ _ Hrepc) in Hn'.
    apply Hfresh in Hn'. destruct (repr_alloc _ _ _ _ _ Hrep0 Hn). congruence.
  - intros f.
    rewrite (inorder_of_exact f w1' copy t' Ht'), (inorder_of_exact f w original t Ht).
    rewrite (height_of_exact f w1' copy t' Ht'), (height_of_exact f w original t Ht).
    rewrite (same_shape_depth _ _ Hshape), (same_shape_entries _ _ Hshape),
      (same_shape_pheight _ _ Hshape). done.
  - intros Hos. split.
    + destruct (run_progress mode os w1' copy Hwf1 Hos Hlive) as (w2 & f0 & Hrun).
      exists f0. intros d. rewrite Hrun by lia. eauto.
    + intros fuel' w2 Hrun.
      destruct (run_frame mode fuel' os w1' w2 copy original t Hwf1 Hos Hlive Hne Ht1 Hrun)
        as (Hwf2 & Ht2).
      intros f.
      rewrite (inorder_of_exact f w2 original t Ht2), (inorder_of_exact f w original t Ht).
      rewrite (height_of_exact f w2 original t Ht2), (height_of_exact f w original t Ht).
      done.
Qed.

Lemma entries_pmin R1 : ∀ rl rk rv R2 s sk sv,
  pmin rl rk rv R1 = (s, sk, sv) → NoDup (locs (Nd rl rk rv R1 R2)) →
  entries (Nd rl rk rv R1 R2) =
  (sk, sv) :: entries (premove_at s (Nd rl rk rv R1 R2)).
Proof.
  induction R1 as [|l' k' v' L' IHL R' _]; intros rl rk rv R2 s sk sv Hm Hnd.
  - simpl in Hm. simplify_eq. cbn [premove_at]. by rewrite decide_True.
  - cbn [pmin] in Hm. cbn [locs] in Hnd.
    apply NoDup_app in Hnd as (HndL & Hd & [HlR HndR]%NoDup_cons).
    destruct (pmin_elem _ _ _ _ R' _ _ _ Hm) as [Hs _].
    rewrite premove_at_Nd_ne by (intros ->; apply (Hd _ Hs); set_solver).
    rewrite (premove_at_notin s R2) by (intros Hx; apply (Hd _ Hs); set_solver).
    cbn [entries]. cbn [entries] in IHL.
    rewrite (IHL l' k' v' R' s sk sv Hm HndL). done.
Qed.

Lemma entries_premove_at_two n t kn vn ll lk lv L1 L2 rl rk rv R1 R2 s sk sv :
  NoDup (locs t) →
  subtree n t = Some (Nd n kn vn (Nd ll lk lv L1 L2) (Nd rl rk rv R1 R2)) →
  pmin rl rk rv R1 = (s, sk, sv) →
  ∃ pre post,
    entries t = pre ++ (kn, vn) :: (sk, sv) :: post ∧
    entries (premove_at n t) = pre ++ (sk, sv) :: post.
Proof.
  intros Hnd Hsub Hm. revert Hnd Hsub.
  induction t as [|l k v L IHL R IHR]; [done|].
  cbn [locs subtree].
  intros (HndL & Hd & [HlR HndR]%NoDup_cons)%NoDup_app.
  case_decide as Hln.
  - intros [= _ -> -> -> ->]. subst l.
    rewrite (premove_at_Nd_two _ _ _ _ _ _ _ _ _ _ _ _ _ _ _ _ Hm).
    exists (entries (Nd ll lk lv L1 L2)),
           (entries (premove_at s (Nd rl rk rv R1 R2))).
    cbn [entries]. split; [|done].
    pose proof (entries_pmin R1 rl rk rv R2 s sk sv Hm HndR) as E.
    cbn [entries] in E. by rewrite E.
  - rewrite premove_at_Nd_ne by done.
    destruct (subtree n L) as [s'|] eqn:EL.
    + intros [= ->].
      pose proof (subtree_self_elem _ _ _ EL) as HnL.
      rewrite (premove_at_notin n R) by (intros Hin; apply (Hd _ HnL); set_solver).
      destruct (IHL HndL eq_refl) as (pre & post & E1 & E2).
      exists pre, (post ++ (k, v) :: entries R). cbn [entries].
      rewrite E1, E2. by rewrite <- !app_assoc.
    + intros ER.
      pose proof (subtree_self_elem _ _ _ ER) as HnR.
      rewrite (premove_at_notin n L) by (intros Hin; apply (Hd _ Hin); set_solver).
      destruct (IHR HndR ER) as (pre & post & E1 & E2).
      exists (entries L ++ (k, v) :: pre), post. cbn [entries].
      rewrite E1, E2. by rewrite <- !app_assoc.
Qed.

(** C5.  Calling [remove] on a node [n] of a reachable tree that has both
    children: the in-order successor [s] is the end of the chain of left
    links from the right child of [n] and has no left child; the call
    returns given enough fuel; afterwards [n] is still allocated and holds
    the successor's key and value (its left link is as before), [s] has
    been released and nothing else has, and in the in-order sequence the
    old entry of [n] is gone while the successor's entry, which followed
    it, stands in its place. *)
Theorem remove_two_children mode w this r n nd :
  reachable mode w → trees w !! this = Some r → reaches (nodes w) r n →
  nodes w !! n = Some nd → left_ nd ≠ None → right_ nd ≠ None →
  ∃ s sd,
    leftmost (nodes w) (right_ nd) s ∧ nodes w !! s = Some sd ∧
    left_ sd = None ∧ s ≠ n ∧
    ∃ f0 : nat, ∀ d : nat, ∃ w',
      remove_node (f0 + d) this (Some n) w = Some (tt, w') ∧
      trees w' = trees w ∧
      (∃ nd', nodes w' !! n = Some nd' ∧ key_ nd' = key_ sd ∧
              value_ nd' = value_ sd ∧ left_ nd' = left_ nd) ∧
      nodes w' !! s = None ∧
      dom (nodes w') = dom (nodes w) ∖ {[s]} ∧
      ∃ pre post,
        inorder_of (f0 + d) this w =
          Some (pre ++ (key_ nd, value_ nd) :: (key_ sd, value_ sd) :: post) ∧
        inorder_of (f0 + d) this w' =
          Some (pre ++ (key_ sd, value_ sd) :: post).
Proof.
  intros Hre Hthis Hn Hnd Hleft Hright.
  pose proof (reachable_wf _ _ Hre) as Hwf.
  destruct (wf_tree _ _ _ Hwf Hthis) as (t & Ht & Hb).
  pose proof Ht as (r' & Hr' & Hr & Hndt). simplify_eq.
  apply (repr_reaches _ _ _ _ _ Hr) in Hn.
  destruct (tree_node _ _ _ _ Ht Hn)
    as (kn & vn & L & R & pl & pr & par & Hs & Hl & HL & HR).
  simplify_eq. simpl in *.
  destruct L as [|ll lk lv L1 L2]; [by inversion HL|].
  destruct R as [|rl rk rv R1 R2]; [by inversion HR|].
  inversion HL; subst. inversion HR; subst.
  destruct (pmin rl rk rv R1) as [[s sk] sv] eqn:Hm.
  destruct (pmin_heap _ _ _ _ _ _ _ _ _ _ HR Hm) as (Hlm & sd & Hsd & <- & <- & Hsl).
  exists s, sd. destruct w as [h T]. simpl in *.
  destruct (remove_node_two (S (depth t)) h T this r t n _ _ _ _ _ _ _ _ _ _ _ _
              s (key_ sd) (value_ sd) Hthis Hr Hndt Hs Hm ltac:(lia))
    as (h' & Hrun & Hr' & Hfr & Hdom & Hsn & Hst).
  split; [done|]. split; [done|]. split; [done|]. split; [done|].
  exists (S (depth t)). intros d. exists (World h' T).
  pose proof (subtree_premove_at_two _ _ _ _ _ _ _ _ _ _ _ _ _ _ _ _ _ Hs Hm) as Hs'.
  destruct (repr_subtree _ _ _ _ _ _ Hr' Hs') as [par' Hrn'].
  inversion Hrn' as [|? ? ? ? pl' pr' ? ? Hn' HL' _]; subst.
  destruct (entries_premove_at_two _ _ _ _ _ _ _ _ _ _ _ _ _ _ _ _ _ Hndt Hs Hm)
    as (pre & post & E1 & E2).
  assert (tree_of (World h' T) this (premove_at n t)) as Ht'.
  { exists r. split; [done|]. split; [done|]. by apply premove_at_NoDup. }
  split; [|split; [done|split; [|split; [|split; [done|]]]]].
  - eapply (remove_node_mono (S (depth t) + d) (S (depth t))); [lia|done].
  - eexists. split; [exact Hn'|]. simpl. split; [done|]. split; [done|].
    by inversion HL'.
  - simpl. apply not_elem_of_dom. rewrite Hdom. set_solver.
  - exists pre, post.
    rewrite (inorder_of_exact _ _ this t Ht), (inorder_of_exact _ _ this _ Ht').
    pose proof (premove_at_depth n t).
    rewrite !bool_decide_eq_true_2 by lia. by rewrite E1, E2.
Qed.

(** ** Building reachable worlds by running programs *)

Lemma reachable_trace mode (fuel : nat) os : ∀ w w',
  reachable mode w → trace mode fuel os w = Some w' → reachable mode w'.
Proof.
  induction os as [|o os IH]; intros w w' Hre; simpl.
  { by intros [= <-]. }
  case_decide as Hlive; [|done].
  destruct (exec mode fuel o w) as [[[] w1]|] eqn:E; [|done].
  apply IH. by eapply reachable_step.
Qed.

Lemma absent_by_find mode (fuel : nat) w this r key :
  reachable mode w → trees w !! this = Some r →
  find_node mode fuel this key w = Some (None, w) →
  absent (nodes w) r key.
Proof.
  intros Hre Hthis Hfind.
  destruct (wf_tree _ _ _ (reachable_wf _ _ Hre) Hthis) as (t & Ht & Hb).
  pose proof Ht as (r' & Hr' & Hr & Hnd). simplify_eq.
  destruct w as [h T]. simpl in *.
  erewrite find_node_exact in Hfind by done.
  case_bool_decide; [|done]. simplify_eq.
  apply (repr_absent _ _ _ _ key Hr). by apply (psearch_None key t Hb).
Qed.

End Proofs.

(** * The demonstration program, run *)

Section DemoFacts.
Local Open Scope string_scope.

Lemma scenario_mono mode : mono (λ fuel, scenario mode fuel).
Proof.
  unfold scenario.
  apply (mono_bind (λ _, _)); [apply mono_const | intros t].
  do 5 (apply mono_bind; [apply insert_mono | intros _]).
  apply mono_bind; [apply getHeight_mono | intros h].
  apply mono_bind; [apply search_mono | intros v].
  apply mono_bind; [apply printInorder_mono | intros l].
  apply mono_const.
Qed.

(** C9.  Starting from an empty tree and inserting ("Ricardo", 2.5),
    ("Ellen", 3.5), ("Chen", 2.5), ("Kevin", 3.25), ("Kumar", 3.05) in
    that order, with either family of helper functions and any fuel from
    5 on: the height is 3, searching "Ellen" returns 3.5, and the in-order
    keys are Chen, Ellen, Kevin, Kumar, Ricardo. *)
Theorem scenario_result mode (d : nat) :
  fst <$> scenario mode (5 + d) empty_world =
  Some (3%Z, Returns 3.5%Q, ["Chen"; "Ellen"; "Kevin"; "Kumar"; "Ricardo"]).
Proof.
  assert (fst <$> scenario mode 5 empty_world =
          Some (3%Z, Returns 3.5%Q, ["Chen"; "Ellen"; "Kevin"; "Kumar"; "Ricardo"]))
    as E5 by (destruct mode; vm_compute; reflexivity).
  destruct (scenario mode 5 empty_world) as [[res w]|] eqn:E; [|done].
  simpl in E5. injection E5 as ->.
  by rewrite (scenario_mono mode (5 + d) 5 _ _ ltac:(lia) E).
Qed.

(** [main] itself: the grade printed is 3.5, the traversal is sorted, and
    neither height check complains (3 before, 2 after removing "Ellen"
    from the copy). *)
Lemma main_runs mode :
  fst <$> main mode 6 empty_world =
  Some (Returns 3.5%Q,
        [("Chen", 2.5%Q); ("Ellen", 3.5%Q); ("Kevin", 3.25%Q);
         ("Kumar", 3.05%Q); ("Ricardo", 2.5%Q)],
        false, false).
Proof. destruct mode; vm_compute; reflexivity. Qed.

Lemma demo_reachable mode : reachable mode (demo_world mode).
Proof.
  eapply (reachable_trace mode 6 demo_ops empty_world); [constructor|].
  destruct mode; vm_compute; reflexivity.
Qed.

Lemma bst_ordering_invariant_witness :
  ordered_at (nodes (demo_world USING_RECURSIVE_FUNCTIONS)) 2%positive.
Proof.
  apply (bst_ordering_invariant USING_RECURSIVE_FUNCTIONS
           (demo_world USING_RECURSIVE_FUNCTIONS) 1%positive (Some 1%positive) 2%positive).
  - apply demo_reachable.
  - vm_compute; reflexivity.
  - eapply reaches_left; [vm_compute; reflexivity|].
    eapply reaches_here. vm_compute; reflexivity.
Defined.

Lemma parent_links_invariant_witness :
  root_unparented (nodes (demo_world USING_ITERATIVE_FUNCTIONS)) (Some 6%positive) ∧
  ∀ n, reaches (nodes (demo_world USING_ITERATIVE_FUNCTIONS)) (Some 6%positive) n →
       linked_at (nodes (demo_world USING_ITERATIVE_FUNCTIONS)) n.
Proof.
  apply (parent_links_invariant USING_ITERATIVE_FUNCTIONS
           (demo_world USING_ITERATIVE_FUNCTIONS) 2%positive (Some 6%positive)).
  - apply demo_reachable.
  - vm_compute; reflexivity.
Defined.

Lemma search_spec_witness :
  (∃ f0 : nat, ∀ d : nat,
     is_Some (search USING_RECURSIVE_FUNCTIONS (f0 + d) 1%positive "Ellen"
                (demo_world USING_RECURSIVE_FUNCTIONS))) ∧
  ∀ (fuel : nat) res w',
    search USING_RECURSIVE_FUNCTIONS fuel 1%positive "Ellen"
      (demo_world USING_RECURSIVE_FUNCTIONS) = Some (res, w') →
    w' = demo_world USING_RECURSIVE_FUNCTIONS ∧
    (res = Throws_invalid_argument ↔
       absent (nodes (demo_world USING_RECURSIVE_FUNCTIONS)) (Some 1%positive) "Ellen") ∧
    (∀ v, res = Returns v ↔
       ∃ n nd,
         descent (nodes (demo_world USING_RECURSIVE_FUNCTIONS)) "Ellen" (Some 1%positive) n ∧
         nodes (demo_world USING_RECURSIVE_FUNCTIONS) !! n = Some nd ∧ value_ nd = v).
Proof.
  apply (search_spec USING_RECURSIVE_FUNCTIONS (demo_world USING_RECURSIVE_FUNCTIONS)
           1%positive (Some 1%positive) "Ellen").
  - apply demo_reachable.
  - vm_compute; reflexivity.
Defined.

Lemma remove_absent_noop_witness :
  (∃ f0 : nat, ∀ d : nat,
     remove USING_ITERATIVE_FUNCTIONS (f0 + d) 1%positive "Zed"
       (demo_world USING_ITERATIVE_FUNCTIONS) =
     Some (tt, demo_world USING_ITERATIVE_FUNCTIONS)) ∧
  ∀ (fuel : nat) w',
    remove USING_ITERATIVE_FUNCTIONS fuel 1%positive "Zed"
      (demo_world USING_ITERATIVE_FUNCTIONS) = Some (tt, w') →
    w' = demo_world USING_ITERATIVE_FUNCTIONS ∧
    (∀ f : nat, inorder_of f 1%positive w' =
                inorder_of f 1%positive (demo_world USING_ITERATIVE_FUNCTIONS)) ∧
    (∀ f : nat, height_of f 1%positive w' =
                height_of f 1%positive (demo_world USING_ITERATIVE_FUNCTIONS)).
Proof.
  apply (remove_absent_noop USING_ITERATIVE_FUNCTIONS
           (demo_world USING_ITERATIVE_FUNCTIONS) 1%positive (Some 1%positive) "Zed").
  - apply demo_reachable.
  - vm_compute; reflexivity.
  - eapply (absent_by_find USING_ITERATIVE_FUNCTIONS 6 _ 1%positive).
    + apply demo_reachable.
    + vm_compute; reflexivity.
    + vm_compute; reflexivity.
Defined.

(** The copy of "Ellen" in [gradeBook], the node with two children that
    [main] removes. *)
Definition demo_ellen : Node string Q :=
  mkNode "Ellen" 3.5%Q (Some 8%positive) (Some 9%positive) (Some 6%positive).

Lemma remove_two_children_witness :
  ∃ s sd,
    leftmost (nodes (demo_world USING_RECURSIVE_FUNCTIONS)) (right_ demo_ellen) s ∧
    nodes (demo_world USING_RECURSIVE_FUNCTIONS) !! s = Some sd ∧
    left_ sd = None ∧ s ≠ 7%positive ∧
    ∃ f0 : nat, ∀ d : nat, ∃ w',
      remove_node (f0 + d) 2%positive (Some 7%positive)
        (demo_world USING_RECURSIVE_FUNCTIONS) = Some (tt, w') ∧
      trees w' = trees (demo_world USING_RECURSIVE_FUNCTIONS) ∧
      (∃ nd', nodes w' !! 7%positive = Some nd' ∧ key_ nd' = key_ sd ∧
              value_ nd' = value_ sd ∧ left_ nd' = left_ demo_ellen) ∧
      nodes w' !! s = None ∧
      dom (nodes w') = dom (nodes (demo_world USING_RECURSIVE_FUNCTIONS)) ∖ {[s]} ∧
      ∃ pre post,
        inorder_of (f0 + d) 2%positive (demo_world USING_RECURSIVE_FUNCTIONS) =
          Some (pre ++ (key_ demo_ellen, value_ demo_ellen) ::
                       (key_ sd, value_ sd) :: post)%list ∧
        inorder_of (f0 + d) 2%positive w' =
          Some (pre ++ (key_ sd, value_ sd) :: post)%list.
Proof.
  apply (remove_two_children USING_RECURSIVE_FUNCTIONS
           (demo_world USING_RECURSIVE_FUNCTIONS) 2%positive (Some 6%positive)
           7%positive demo_ellen).
  - apply demo_reachable.
  - vm_compute; reflexivity.
  - eapply reaches_left; [vm_compute; reflexivity|].
    eapply reaches_here. vm_compute; reflexivity.
  - vm_compute; reflexivity.
  - discriminate.
  - discriminate.
Defined.

Lemma copy_is_independent_witness :
  (∃ f0 : nat, ∀ d : nat,
     is_Some (copy_construct (f0 + d) 1%positive
                (demo_world USING_RECURSIVE_FUNCTIONS))) ∧
  ((demo_copied USING_RECURSIVE_FUNCTIONS).1 ≠ 1%positive ∧
   ∃ t t',
     tree_of (demo_world USING_RECURSIVE_FUNCTIONS) 1%positive t ∧
     tree_of (demo_copied USING_RECURSIVE_FUNCTIONS).2 1%positive t ∧
     tree_of (demo_copied USING_RECURSIVE_FUNCTIONS).2
       (demo_copied USING_RECURSIVE_FUNCTIONS).1 t' ∧
     same_shape t t' ∧
     ∀ rc n,
       trees (demo_copied USING_RECURSIVE_FUNCTIONS).2 !!
         (demo_copied USING_RECURSIVE_FUNCTIONS).1 = Some rc →
       reaches (nodes (demo_copied USING_RECURSIVE_FUNCTIONS).2) (Some 1%positive) n →
       reaches (nodes (demo_copied USING_RECURSIVE_FUNCTIONS).2) rc n → False) ∧
  (∀ f : nat,
     inorder_of f (demo_copied USING_RECURSIVE_FUNCTIONS).1
       (demo_copied USING_RECURSIVE_FUNCTIONS).2 =
     inorder_of f 1%positive (demo_world USING_RECURSIVE_FUNCTIONS) ∧
     height_of f (demo_copied USING_RECURSIVE_FUNCTIONS).1
       (demo_copied USING_RECURSIVE_FUNCTIONS).2 =
     height_of f 1%positive (demo_world USING_RECURSIVE_FUNCTIONS)) ∧
  (∃ f0 : nat, ∀ d : nat,
     is_Some (run USING_RECURSIVE_FUNCTIONS (f0 + d) demo_copy_ops
                (demo_copied USING_RECURSIVE_FUNCTIONS).2)) ∧
  (∀ f : nat,
     inorder_of f 1%positive (demo_mutated USING_RECURSIVE_FUNCTIONS) =
     inorder_of f 1%positive (demo_world USING_RECURSIVE_FUNCTIONS) ∧
     height_of f 1%positive (demo_mutated USING_RECURSIVE_FUNCTIONS) =
     height_of f 1%positive (demo_world USING_RECURSIVE_FUNCTIONS)).
Proof.
  destruct (copy_is_independent USING_RECURSIVE_FUNCTIONS
              (demo_world USING_RECURSIVE_FUNCTIONS) 1%positive (Some 1%positive)
              demo_copy_ops) as [Hret Hall].
  - apply demo_reachable.
  - vm_compute; reflexivity.
  - destruct (Hall 6 (demo_copied USING_RECURSIVE_FUNCTIONS).1
                (demo_copied USING_RECURSIVE_FUNCTIONS).2)
      as (Hcopy & Hsame & Hmut).
    { vm_compute; reflexivity. }
    destruct Hmut as [Hruns Hframe].
    { repeat constructor. }
    split; [exact Hret|]. split; [exact Hcopy|]. split; [exact Hsame|].
    split; [exact Hruns|].
    apply (Hframe 6 (demo_mutated USING_RECURSIVE_FUNCTIONS)).
    vm_compute; reflexivity.
Defined.

Lemma search_variants_agree_witness :
  ∃ f0 : nat, ∀ d : nat, ∃ node,
    searchIterative (f0 + d) 1%positive "Kevin"
      (demo_world USING_RECURSIVE_FUNCTIONS) =
      Some (node, demo_world USING_RECURSIVE_FUNCTIONS) ∧
    (root ← get_root 1%positive; searchRecursive (f0 + d) root "Kevin")
      (demo_world USING_RECURSIVE_FUNCTIONS) =
      Some (node, demo_world USING_RECURSIVE_FUNCTIONS) ∧
    (node = None ↔
       absent (nodes (demo_world USING_RECURSIVE_FUNCTIONS)) (Some 1%positive) "Kevin").
Proof.
  apply (proj2 (search_variants_agree 1%positive "Kevin"
                  (demo_world USING_RECURSIVE_FUNCTIONS))
           USING_RECURSIVE_FUNCTIONS (Some 1%positive)).
  - apply demo_reachable.
  - vm_compute; reflexivity.
Defined.

Lemma self_assignment_safe_witness :
  (∃ f0 : nat, ∀ d : nat,
     is_Some (assign (f0 + d) 1%positive 1%positive
                (demo_world USING_RECURSIVE_FUNCTIONS))) ∧
  ∀ (fuel : nat) w',
    assign fuel 1%positive 1%positive (demo_world USING_RECURSIVE_FUNCTIONS) =
      Some (tt, w') →
    ∀ f : nat,
      inorder_of f 1%positive w' =
        inorder_of f 1%positive (demo_world USING_RECURSIVE_FUNCTIONS) ∧
      height_of f 1%positive w' =
        height_of f 1%positive (demo_world USING_RECURSIVE_FUNCTIONS).
Proof.
  apply (self_assignment_safe USING_RECURSIVE_FUNCTIONS
           (demo_world USING_RECURSIVE_FUNCTIONS) 1%positive (Some 1%positive)).
  - apply demo_reachable.
  - vm_compute; reflexivity.
Defined.

(** The worlds used above are the intended ones: the calls on the copy all
    returned, and afterwards the copy holds just "Ada" while the original
    still has its five entries. *)
Lemma demo_mutated_runs mode :
  snd <$> run mode 6 demo_copy_ops (demo_copied mode).2 = Some (demo_mutated mode) ∧
  inorder_of 6 3%positive (demo_mutated mode) = Some [("Ada", 1.5%Q)] ∧
  fmap (M := list) fst <$> inorder_of 6 1%positive (demo_mutated mode) =
    Some ["Chen"; "Ellen"; "Kevin"; "Kumar"; "Ricardo"].
Proof. destruct mode; vm_compute; done. Qed.

End DemoFacts.

(** * Further properties of the member functions *)

Section MoreProofs.
Context {K V : Type} `{KeyType K}.
Local Abbreviation Node := (Node K V).
Local Abbreviation world := (world K V).
Local Abbreviation M := (M K V).
Local Abbreviation ltree := (ltree K V).
Local Abbreviation op := (op K V).
Implicit Types (h : gmap loc Node) (T : gmap obj ptr) (t L R : ltree).
Implicit Types (p q par : ptr) (w : world) (n l : loc).

(** ** Observations and the tree behind them *)

Lemma tree_prints w this t : tree_of w this t → prints w this (entries t).
Proof.
  intros Ht. exists (S (depth t)). intros d.
  rewrite (inorder_of_exact _ _ _ _ Ht). by rewrite bool_decide_eq_true_2 by lia.
Qed.

Lemma tree_has_height w this t : tree_of w this t → has_height w this (pheight t).
Proof.
  intros Ht. exists (S (depth t)). intros d.
  rewrite (height_of_exact _ _ _ _ Ht). by rewrite bool_decide_eq_true_2 by lia.
Qed.

Lemma inorder_of_tree (fuel : nat) w this t es :
  tree_of w this t → inorder_of fuel this w = Some es → es = entries t.
Proof.
  intros Ht. rewrite (inorder_of_exact _ _ _ _ Ht). case_bool_decide; congruence.
Qed.

Lemma height_of_tree (fuel : nat) w this t z :
  tree_of w this t → height_of fuel this w = Some z → z = pheight t.
Proof.
  intros Ht. rewrite (height_of_exact _ _ _ _ Ht). case_bool_decide; congruence.
Qed.

Lemma prints_tree w this t es : tree_of w this t → prints w this es → es = entries t.
Proof. intros Ht [f0 Hp]. eapply inorder_of_tree; [done|apply (Hp 0)]. Qed.

Lemma has_height_tree w this t z :
  tree_of w this t → has_height w this z → z = pheight t.
Proof. intros Ht [f0 Hp]. eapply height_of_tree; [done|apply (Hp 0)]. Qed.

Lemma repr_plookup h p par t key :
  repr h p par t →
  match psearch key t with
  | Some n => ∃ nd, h !! n = Some nd ∧ plookup key t = Some (value_ nd)
  | None => plookup key t = None
  end.
Proof.
  induction 1 as [|l par k v pl pr L R Hl _ IHL _ IHR]; simpl; [done|].
  destruct (key_eqb key k); [eauto|].
  by destruct (key_ltb key k).
Qed.

Lemma search_plookup mode (fuel : nat) w this t key :
  tree_of w this t →
  search mode fuel this key w =
    if bool_decide (search_depth key t < fuel)
    then Some (outcome (plookup key t), w) else None.
Proof.
  intros Ht. destruct (search_exact mode fuel w this t key Ht) as (res & -> & Hres).
  case_bool_decide; [|done]. do 2 f_equal.
  destruct Ht as (r & _ & Hr & _).
  pose proof (repr_plookup _ _ _ _ key Hr) as Hp.
  destruct (psearch key t) as [n|].
  - destruct Hres as (nd & Hn & ->), Hp as (nd' & Hn' & ->). by simplify_eq.
  - by rewrite Hp.
Qed.

Lemma tree_finds mode w this t key :
  tree_of w this t → finds mode w this key (outcome (plookup key t)).
Proof.
  intros Ht. exists (S (depth t)). intros d.
  rewrite (search_plookup _ _ _ _ _ _ Ht).
  pose proof (search_depth_le key t). by rewrite bool_decide_eq_true_2 by lia.
Qed.

Lemma search_tree mode (fuel : nat) w this t key res w' :
  tree_of w this t → search mode fuel this key w = Some (res, w') →
  res = outcome (plookup key t).
Proof.
  intros Ht. rewrite (search_plookup _ _ _ _ _ _ Ht). case_bool_decide; congruence.
Qed.

Lemma finds_tree mode w this t key res :
  tree_of w this t → finds mode w this key res → res = outcome (plookup key t).
Proof. intros Ht [f0 Hf]. eapply search_tree; [done|apply (Hf 0)]. Qed.

Lemma plookup_None key t : plookup key t = None ↔ psearch key t = None.
Proof.
  induction t as [|l k v L IHL R IHR]; simpl; [done|].
  destruct (key_eqb key k); [done|]. by destruct (key_ltb key k).
Qed.

Lemma tree_absent w this r t key :
  tree_of w this t → bst t → trees w !! this = Some r →
  absent (nodes w) r key ↔ plookup key t = None.
Proof.
  intros (r' & Hr' & Hr & _) Hb Hthis. simplify_eq.
  by rewrite (repr_absent _ _ _ _ key Hr), <- (psearch_None key t Hb), plookup_None.
Qed.

(** A reachable tree object, with the tree it stands for. *)
Lemma reachable_tree mode w this r :
  reachable mode w → trees w !! this = Some r →
  wf w ∧ ∃ t, tree_of w this t ∧ bst t ∧ NoDup (locs t) ∧ repr (nodes w) r None t.
Proof.
  intros Hre Hthis. pose proof (reachable_wf _ _ Hre) as Hwf. split; [done|].
  destruct (wf_tree _ _ _ Hwf Hthis) as (t & Ht & Hb).
  pose proof Ht as (r' & Hr' & Hr & Hnd). simplify_eq. eauto 10.
Qed.

(** ** Insertion and search *)

Lemma plookup_pinsert_same l k v t :
  plookup k (pinsert l k v t) = Some (default v (plookup k t)).
Proof.
  induction t as [|l' k' v' L IHL R IHR]; simpl.
  { by rewrite key_eqb_refl. }
  destruct (key_ltb k k') eqn:El; simpl.
  - assert (key_eqb k k' = false) as ->.
    { apply key_eqb_neq. intros ->. by rewrite key_ltb_irrefl in El. }
    by rewrite El.
  - destruct (key_eqb k k'); [done|]. by rewrite El.
Qed.

Lemma plookup_pinsert_other l k v t k' :
  k' ≠ k → plookup k' (pinsert l k v t) = plookup k' t.
Proof.
  intros Hne. apply key_eqb_neq in Hne.
  induction t as [|l0 k0 v0 L IHL R IHR]; simpl.
  { rewrite Hne. by destruct (key_ltb k' k). }
  destruct (key_ltb k k0); simpl; destruct (key_eqb k' k0); try done;
    destruct (key_ltb k' k0); done.
Qed.

(** X1.  Inserting (key, value) into a tree of a reachable world returns
    (given enough fuel); afterwards a search for [key] returns [value] if
    the key was absent and the value it returned before otherwise, and the
    outcome of a search for any other key is what it was. *)
Theorem insert_then_search mode w this r key value :
  reachable mode w → trees w !! this = Some r →
  ∃ f0 : nat, ∀ d : nat, ∃ w',
    insert mode (f0 + d) this key value w = Some (tt, w') ∧
    (absent (nodes w) r key → finds mode w' this key (Returns value)) ∧
    (∀ v, finds mode w this key (Returns v) → finds mode w' this key (Returns v)) ∧
    (∀ key' res, key' ≠ key →
       finds mode w this key' res → finds mode w' this key' res).
Proof.
  intros Hre Hthis.
  destruct (reachable_tree _ _ _ _ Hre Hthis) as (Hwf & t & Ht & Hb & _ & _).
  destruct (insert_world mode w this t key value Hwf Ht) as (w' & Hrun & _ & Ht' & _).
  exists (S (depth t)). intros d. exists w'. split; [apply Hrun; lia|].
  pose proof (tree_finds mode w' this _ key Ht') as Hkey.
  rewrite plookup_pinsert_same in Hkey.
  split; [|split].
  - intros Habs. apply (tree_absent _ _ _ _ key Ht Hb Hthis) in Habs.
    by rewrite Habs in Hkey.
  - intros v Hv. apply (finds_tree _ _ _ _ _ _ Ht) in Hv.
    destruct (plookup key t); simplify_eq/=. done.
  - intros key' res Hne Hres. apply (finds_tree _ _ _ _ _ _ Ht) in Hres as ->.
    rewrite <- (plookup_pinsert_other (fresh (dom (nodes w))) key value t key' Hne).
    by apply tree_finds.
Qed.

(** ** What a sequence of insertions builds *)

Lemma insert_all_inserted mode kvs : ∀ w this t,
  wf w → tree_of w this t →
  ∃ w' t',
    (∀ fuel : nat, depth t + length kvs < fuel →
       insert_all mode fuel this kvs w = Some (tt, w')) ∧
    wf w' ∧ tree_of w' this t' ∧ inserted kvs t t' ∧
    depth t' ≤ depth t + length kvs.
Proof.
  induction kvs as [|[key value] kvs IH]; intros w this t Hwf Ht.
  { exists w, t. simpl. split; [done|]. split; [done|]. split; [done|].
    split; [constructor|lia]. }
  destruct (insert_world mode w this t key value Hwf Ht)
    as (w1 & Hrun1 & Hwf1 & Ht1 & _).
  destruct (IH w1 this _ Hwf1 Ht1) as (w2 & t2 & Hrun2 & Hwf2 & Ht2 & Hins & Hd2).
  pose proof (pinsert_depth (fresh (dom (nodes w))) key value t) as Hd1.
  exists w2, t2. split; [|split; [done|split; [done|split]]].
  - intros fuel Hf. cbn [insert_all length] in *.
    erewrite bind_run by (apply Hrun1; lia). apply Hrun2. lia.
  - by econstructor.
  - cbn [length]. lia.
Qed.

Lemma fresh_tree_inserted mode kvs :
  ∃ this w0 w' t',
    construct (empty_world : world) = Some (this, w0) ∧
    (∀ fuel : nat, length kvs < fuel →
       insert_all mode fuel this kvs w0 = Some (tt, w')) ∧
    tree_of w' this t' ∧ inserted kvs Leaf t' ∧ depth t' ≤ length kvs.
Proof.
  destruct (construct_world (empty_world : world) wf_empty)
    as (w0 & Hrun0 & Hwf0 & Ht0 & _).
  destruct (insert_all_inserted mode kvs w0 _ Leaf Hwf0 Ht0)
    as (w1 & t1 & Hrun1 & _ & Ht1 & Hins & Hd).
  eauto 10.
Qed.

Lemma inserted_bst kvs t t' : inserted kvs t t' → bst t → bst t'.
Proof. induction 1; eauto using pinsert_bst. Qed.

Lemma sorted_insert_app_lt (k : K) (v : V) (pre : list (K * V)) k' v' post :
  key_ltb k k' = true →
  sorted_insert k v (pre ++ (k', v') :: post) =
  sorted_insert k v pre ++ (k', v') :: post.
Proof.
  intros Hlt. induction pre as [|[a b] pre IH]; simpl; [by rewrite Hlt|].
  destruct (key_ltb k a); [done|]. by rewrite IH.
Qed.

Lemma sorted_insert_app_ge (k : K) (v : V) (pre post : list (K * V)) :
  Forall (λ a, key_ltb k a = false) pre.*1 →
  sorted_insert k v (pre ++ post) = pre ++ sorted_insert k v post.
Proof.
  induction pre as [|[a b] pre IH]; simpl; [done|].
  intros [Ha Hpre]%Forall_cons. simpl in Ha. rewrite Ha. by rewrite IH.
Qed.

Lemma entries_pinsert l k v t :
  bst t → entries (pinsert l k v t) = sorted_insert k v (entries t).
Proof.
  induction t as [|l' k' v' L IHL R IHR]; simpl; [done|].
  intros (HL & HR & HbL & HbR).
  destruct (key_ltb k k') eqn:El; simpl.
  - rewrite sorted_insert_app_lt by done. by rewrite IHL.
  - rewrite sorted_insert_app_ge.
    + simpl. rewrite El. by rewrite IHR.
    + rewrite <- keys_entries. eapply Forall_impl; [exact HL|]. simpl.
      intros a Ha. destruct (key_ltb k a) eqn:E; [|done].
      pose proof (key_ltb_trans _ _ _ E Ha). congruence.
Qed.

Lemma inserted_entries kvs t t' :
  inserted kvs t t' → bst t →
  entries t' = foldl (λ es kv, sorted_insert kv.1 kv.2 es) (entries t) kvs.
Proof.
  induction 1 as [|l k v kvs t t' _ IH]; intros Hb; simpl; [done|].
  rewrite IH by by apply pinsert_bst. by rewrite entries_pinsert.
Qed.

Lemma inserted_plookup kvs t t' key :
  inserted kvs t t' →
  plookup key t' =
    match plookup key t with Some v => Some v | None => assoc key kvs end.
Proof.
  induction 1 as [|l k v kvs t t' _ IH]; simpl; [by destruct (plookup key t)|].
  rewrite IH. destruct (key_eqb key k) eqn:E.
  - apply key_eqb_eq in E as ->. rewrite plookup_pinsert_same.
    by destruct (plookup k t).
  - apply key_eqb_neq in E. by rewrite plookup_pinsert_other.
Qed.

(** X2.  The traversal of a tree built by inserting [kvs] into an empty
    tree is the stable insertion sort of [kvs]: sorted by key, with equal
    keys in the order in which they were inserted. *)
Theorem inorder_is_stable_sort mode (kvs : list (K * V)) :
  ∃ f0 : nat, ∀ d : nat, ∃ w,
    inorder_after_inserts mode (f0 + d) kvs empty_world =
      Some (stable_sort kvs, w).
Proof.
  destruct (fresh_tree_inserted mode kvs) as (this & w0 & w' & t' & Hc & Hrun & Ht' & Hins & Hd).
  exists (S (length kvs)). intros d. exists w'.
  unfold inorder_after_inserts.
  erewrite bind_run by exact Hc.
  erewrite bind_run by (apply Hrun; lia).
  rewrite (printInorder_exact _ _ _ _ Ht').
  rewrite bool_decide_eq_true_2 by lia.
  by rewrite (inserted_entries _ _ _ Hins I).
Qed.

(** X3.  After inserting [kvs] into an empty tree, a search for a key
    returns the value of the first pair of [kvs] with that key (later
    duplicates are shadowed), and throws if there is none. *)
Theorem search_after_inserts_first mode (kvs : list (K * V)) key :
  ∃ f0 : nat, ∀ d : nat, ∃ w,
    search_after_inserts mode (f0 + d) kvs key empty_world =
      Some (outcome (assoc key kvs), w).
Proof.
  destruct (fresh_tree_inserted mode kvs) as (this & w0 & w' & t' & Hc & Hrun & Ht' & Hins & Hd).
  exists (S (length kvs)). intros d. exists w'.
  unfold search_after_inserts.
  erewrite bind_run by exact Hc.
  erewrite bind_run by (apply Hrun; lia).
  rewrite (search_plookup _ _ _ _ _ _ Ht').
  pose proof (search_depth_le key t').
  rewrite bool_decide_eq_true_2 by lia.
  by rewrite (inserted_plookup _ _ _ key Hins).
Qed.

Lemma right_spine_depth t : right_spine t → depth t = length (keys t).
Proof.
  induction t as [|l k v L IHL R IHR]; simpl; [done|].
  intros [-> HR]. simpl. rewrite IHR by done. lia.
Qed.

Lemma pinsert_right_spine l k v t :
  right_spine t → Forall (λ a, key_le a k) (keys t) →
  right_spine (pinsert l k v t).
Proof.
  induction t as [|l' k' v' L IHL R IHR]; simpl; [done|].
  intros [-> HR] [Hk Hks]%Forall_cons. unfold key_le in Hk. rewrite Hk.
  simpl. split; [done|]. by apply IHR.
Qed.

Lemma inserted_right_spine kvs t t' :
  inserted kvs t t' → right_spine t →
  StronglySorted key_le kvs.*1 →
  Forall (λ a, Forall (key_le a) kvs.*1) (keys t) →
  right_spine t' ∧ length (keys t') = length (keys t) + length kvs.
Proof.
  induction 1 as [|l k v kvs t t' _ IH]; intros Hsp Hsorted Hle.
  { split; [done|]. simpl. lia. }
  rewrite fmap_cons in Hsorted, Hle. simpl in Hsorted, Hle.
  apply StronglySorted_inv in Hsorted as [Hsorted Hk].
  destruct IH as [Hsp' Hlen]; [| | |].
  - apply pinsert_right_spine; [done|].
    eapply Forall_impl; [exact Hle|]. simpl. by intros a [? _]%Forall_cons.
  - done.
  - rewrite pinsert_keys. constructor; [done|].
    eapply Forall_impl; [exact Hle|]. simpl. by intros a [_ ?]%Forall_cons.
  - split; [done|]. rewrite Hlen, pinsert_keys. simpl. lia.
Qed.

(** X4.  No rebalancing: inserting pairs whose keys are already in
    non-decreasing order into an empty tree gives a tree of height
    [length kvs - 1] (a chain of right links). *)
Theorem sorted_inserts_degenerate mode (kvs : list (K * V)) :
  StronglySorted key_le kvs.*1 →
  ∃ f0 : nat, ∀ d : nat, ∃ w,
    height_after_inserts mode (f0 + d) kvs empty_world =
      Some ((Z.of_nat (length kvs) - 1)%Z, w).
Proof.
  intros Hsorted.
  destruct (fresh_tree_inserted mode kvs) as (this & w0 & w' & t' & Hc & Hrun & Ht' & Hins & Hd).
  destruct (inserted_right_spine _ _ _ Hins I Hsorted) as [Hsp Hlen]; [constructor|].
  exists (S (length kvs)). intros d. exists w'.
  unfold height_after_inserts.
  erewrite bind_run by exact Hc.
  erewrite bind_run by (apply Hrun; lia).
  rewrite (getHeight_exact _ _ _ _ Ht').
  rewrite bool_decide_eq_true_2 by lia.
  rewrite pheight_depth, (right_spine_depth _ Hsp), Hlen. simpl.
  do 2 f_equal.
Qed.

Lemma depth_size t : depth t ≤ length (entries t) ∧ length (entries t) < 2 ^ depth t.
Proof.
  induction t as [|l k v L [IHL1 IHL2] R [IHR1 IHR2]]; simpl; [lia|].
  rewrite length_app. simpl.
  assert (2 ^ depth L ≤ 2 ^ (depth L `max` depth R)) by (apply Nat.pow_le_mono_r; lia).
  assert (2 ^ depth R ≤ 2 ^ (depth L `max` depth R)) by (apply Nat.pow_le_mono_r; lia).
  lia.
Qed.

(** X5.  On a tree of a reachable world [getHeight] and [printInorder]
    return (given enough fuel), each with one result whatever the fuel;
    the height [h] and the printed sequence [es] satisfy [-1 ≤ h],
    [h + 1 ≤ length es] and [length es < 2^(h+1)], and the height is -1
    exactly when nothing is printed. *)
Theorem height_bounds mode w this r :
  reachable mode w → trees w !! this = Some r →
  ∃ z es,
    has_height w this z ∧ prints w this es ∧
    (∀ (fuel : nat) z', height_of fuel this w = Some z' → z' = z) ∧
    (∀ (fuel : nat) es', inorder_of fuel this w = Some es' → es' = es) ∧
    (-1 ≤ z)%Z ∧ (z + 1 ≤ Z.of_nat (length es))%Z ∧
    (Z.of_nat (length es) < 2 ^ (z + 1))%Z ∧
    (z = (-1)%Z ↔ es = []).
Proof.
  intros Hre Hthis.
  destruct (reachable_tree _ _ _ _ Hre Hthis) as (_ & t & Ht & _).
  exists (pheight t), (entries t).
  split; [by apply tree_has_height|]. split; [by apply tree_prints|].
  split; [intros fuel z'; by apply height_of_tree|].
  split; [intros fuel es'; by apply inorder_of_tree|].
  rewrite pheight_depth. destruct (depth_size t) as [H1 H2].
  split; [lia|]. split; [lia|]. split.
  - replace (Z.of_nat (depth t) - 1 + 1)%Z with (Z.of_nat (depth t)) by lia.
    apply Nat2Z.inj_lt in H2. rewrite Nat2Z.inj_pow in H2. exact H2.
  - destruct t; simpl in *; [done|]. split; [lia|].
    intros E. symmetry in E. by apply app_cons_not_nil in E.
Qed.

(** ** The tree as a key-sorted list *)

Lemma assoc_app_notin (key : K) (pre post : list (K * V)) :
  key ∉ pre.*1 → assoc key (pre ++ post) = assoc key post.
Proof.
  induction pre as [|[a b] pre IH]; simpl; [done|].
  rewrite not_elem_of_cons. intros [Hne Hpre].
  apply key_eqb_neq in Hne. rewrite Hne. by apply IH.
Qed.

Lemma assoc_app_in (key : K) (pre post : list (K * V)) :
  key ∈ pre.*1 → assoc key (pre ++ post) = assoc key pre.
Proof.
  induction pre as [|[a b] pre IH]; simpl; [by intros ?%elem_of_nil|].
  destruct (key_eqb key a) eqn:E; [done|].
  apply key_eqb_neq in E. rewrite elem_of_cons. intros [?|?]; [done|]. by apply IH.
Qed.

Lemma assoc_None (key : K) (es : list (K * V)) : assoc key es = None ↔ key ∉ es.*1.
Proof.
  induction es as [|[a b] es IH]; simpl.
  { split; [intros _; apply not_elem_of_nil|done]. }
  rewrite not_elem_of_cons. destruct (key_eqb key a) eqn:E.
  - apply key_eqb_eq in E. split; [done|]. tauto.
  - apply key_eqb_neq in E. rewrite IH. tauto.
Qed.

Lemma assoc_Some_in (key : K) (es : list (K * V)) v :
  assoc key es = Some v → key ∈ es.*1.
Proof.
  induction es as [|[a b] es IH]; simpl; [done|].
  destruct (key_eqb key a) eqn:E.
  - apply key_eqb_eq in E as ->. intros _. apply elem_of_cons. by left.
  - intros ?. apply elem_of_cons. right. by apply IH.
Qed.

Lemma psearch_Some_in key t n : psearch key t = Some n → key ∈ keys t.
Proof.
  induction t as [|l k v L IHL R IHR]; simpl; [done|].
  rewrite elem_of_app, elem_of_cons.
  destruct (key_eqb key k) eqn:E.
  - apply key_eqb_eq in E as ->. intros _. right. by left.
  - destruct (key_ltb key k); intros ?; [left; by apply IHL|right; right; by apply IHR].
Qed.

Lemma bst_left_notin key k (L : ltree) :
  Forall (λ x, key_ltb x k = true) (keys L) → key_ltb key k = false → key ∉ keys L.
Proof. rewrite Forall_forall. intros HL Hk Hin. specialize (HL _ Hin). congruence. Qed.

Lemma bst_right_notin key k (R : ltree) :
  Forall (λ x, key_ltb x k = false) (keys R) → key_ltb key k = true → key ∉ keys R.
Proof. rewrite Forall_forall. intros HR Hk Hin. specialize (HR _ Hin). congruence. Qed.

Lemma plookup_assoc key t : bst t → plookup key t = assoc key (entries t).
Proof.
  induction t as [|l k v L IHL R IHR]; simpl; [done|].
  intros (HL & HR & HbL & HbR).
  destruct (key_eqb key k) eqn:Ek.
  - apply key_eqb_eq in Ek as ->.
    rewrite assoc_app_notin; [simpl; by rewrite key_eqb_refl|].
    rewrite <- keys_entries. apply (bst_left_notin _ k); [done|apply key_ltb_irrefl].
  - destruct (key_ltb key k) eqn:El.
    + rewrite (IHL HbL). destruct (assoc key (entries L)) as [v0|] eqn:E.
      * rewrite assoc_app_in; [done|]. by apply assoc_Some_in in E.
      * rewrite assoc_app_notin by by apply assoc_None. simpl. rewrite Ek.
        symmetry. apply assoc_None. rewrite <- keys_entries.
        by apply (bst_right_notin _ k).
    + rewrite (IHR HbR). rewrite assoc_app_notin; [simpl; by rewrite Ek|].
      rewrite <- keys_entries. by apply (bst_left_notin _ k).
Qed.

Lemma delete_first_app_notin (key : K) (pre post : list (K * V)) :
  key ∉ pre.*1 → delete_first key (pre ++ post) = pre ++ delete_first key post.
Proof.
  induction pre as [|[a b] pre IH]; simpl; [done|].
  rewrite not_elem_of_cons. intros [Hne Hpre].
  apply key_eqb_neq in Hne. rewrite Hne. by rewrite IH.
Qed.

Lemma delete_first_app_in (key : K) (pre post : list (K * V)) :
  key ∈ pre.*1 → delete_first key (pre ++ post) = delete_first key pre ++ post.
Proof.
  induction pre as [|[a b] pre IH]; simpl; [by intros ?%elem_of_nil|].
  destruct (key_eqb key a) eqn:E; [done|].
  apply key_eqb_neq in E. rewrite elem_of_cons. intros [?|?]; [done|].
  by rewrite IH.
Qed.

Lemma delete_first_notin (key : K) (es : list (K * V)) :
  key ∉ es.*1 → delete_first key es = es.
Proof.
  intros Hn. rewrite <- (app_nil_r es) at 1.
  rewrite delete_first_app_notin by done. simpl. apply app_nil_r.
Qed.

Lemma entries_premove_at_root n (k : K) (v : V) A B :
  NoDup (locs (Nd n k v A B)) →
  entries (premove_at n (Nd n k v A B)) = entries A ++ entries B.
Proof.
  intros Hnd. destruct A as [|ll lk lv L1 L2].
  { cbn [premove_at]. by rewrite decide_True. }
  destruct B as [|rl rk rv R1 R2].
  { cbn [premove_at]. rewrite decide_True by done. simpl. by rewrite app_nil_r. }
  destruct (pmin rl rk rv R1) as [[s sk] sv] eqn:Hm.
  rewrite (premove_at_Nd_two _ _ _ _ _ _ _ _ _ _ _ _ _ _ _ _ Hm).
  cbn [locs] in Hnd. apply NoDup_app in Hnd as (_ & _ & [_ HndR]%NoDup_cons).
  cbn [entries]. pose proof (entries_pmin R1 rl rk rv R2 s sk sv Hm HndR) as E.
  cbn [entries] in E. by rewrite E.
Qed.

Lemma entries_premove key t :
  bst t → NoDup (locs t) →
  entries (premove key t) = delete_first key (entries t).
Proof.
  unfold premove. induction t as [|l k v L IHL R IHR]; [done|].
  intros Hb Hnd. pose proof Hb as (HL & HR & HbL & HbR). pose proof Hnd as Hnd'.
  cbn [locs] in Hnd'. apply NoDup_app in Hnd' as (HndL & Hd & [HlR HndR]%NoDup_cons).
  cbn [psearch entries].
  destruct (key_eqb key k) eqn:Ek.
  - apply key_eqb_eq in Ek as ->. rewrite entries_premove_at_root by done.
    rewrite delete_first_app_notin; [simpl; by rewrite key_eqb_refl|].
    rewrite <- keys_entries. apply (bst_left_notin _ k); [done|apply key_ltb_irrefl].
  - destruct (key_ltb key k) eqn:El.
    + specialize (IHL HbL HndL).
      destruct (psearch key L) as [n|] eqn:Es.
      * pose proof (psearch_elem _ _ _ Es) as HnL.
        rewrite premove_at_Nd_ne by (intros ->; apply (Hd _ HnL); set_solver).
        rewrite (premove_at_notin n R) by (intros ?; apply (Hd _ HnL); set_solver).
        cbn [entries]. rewrite IHL. rewrite delete_first_app_in; [done|].
        rewrite <- keys_entries. by apply psearch_Some_in in Es.
      * cbn [entries]. apply (psearch_None key L HbL) in Es.
        rewrite delete_first_app_notin by by rewrite <- keys_entries.
        simpl. rewrite Ek. rewrite delete_first_notin; [done|].
        rewrite <- keys_entries. by apply (bst_right_notin _ k).
    + specialize (IHR HbR HndR).
      assert (key ∉ (entries L).*1) as HkL.
      { rewrite <- keys_entries. by apply (bst_left_notin _ k). }
      destruct (psearch key R) as [n|] eqn:Es.
      * pose proof (psearch_elem _ _ _ Es) as HnR.
        rewrite premove_at_Nd_ne by (by intros ->).
        rewrite (premove_at_notin n L) by (intros Hx; apply (Hd _ Hx); set_solver).
        cbn [entries]. rewrite IHR. rewrite delete_first_app_notin by done.
        simpl. by rewrite Ek.
      * cbn [entries]. rewrite delete_first_app_notin by done. simpl. rewrite Ek.
        by rewrite <- IHR.
Qed.

Lemma premove_depth key t : depth (premove key t) ≤ depth t.
Proof. unfold premove. destruct (psearch key t); [apply premove_at_depth|done]. Qed.

(** X6.  [search] sees a tree of a reachable world as the association
    list that [printInorder] prints: it returns the value of the first
    printed pair with the key, and throws exactly when no printed pair has
    it. *)
Theorem search_is_assoc mode w this r (fuel : nat) es key :
  reachable mode w → trees w !! this = Some r →
  inorder_of fuel this w = Some es →
  finds mode w this key (outcome (assoc key es)).
Proof.
  intros Hre Hthis Hes.
  destruct (reachable_tree _ _ _ _ Hre Hthis) as (_ & t & Ht & Hb & _).
  apply (inorder_of_tree _ _ _ _ _ Ht) in Hes as ->.
  rewrite <- plookup_assoc by done. by apply tree_finds.
Qed.

(** X7.  [insert] adds the new pair to the printed sequence behind every
    pair whose key is not greater, and changes nothing else in it. *)
Theorem insert_is_sorted_insert mode w this r (fuel : nat) es key value :
  reachable mode w → trees w !! this = Some r →
  inorder_of fuel this w = Some es →
  ∃ f0 : nat, ∀ d : nat, ∃ w',
    insert mode (f0 + d) this key value w = Some (tt, w') ∧
    prints w' this (sorted_insert key value es).
Proof.
  intros Hre Hthis Hes.
  destruct (reachable_tree _ _ _ _ Hre Hthis) as (Hwf & t & Ht & Hb & _).
  apply (inorder_of_tree _ _ _ _ _ Ht) in Hes as ->.
  destruct (insert_world mode w this t key value Hwf Ht) as (w' & Hrun & _ & Ht' & _).
  exists (S (depth t)). intros d. exists w'. split; [apply Hrun; lia|].
  rewrite <- (entries_pinsert (fresh (dom (nodes w)))) by done.
  by apply tree_prints.
Qed.

(** X8.  [remove] drops the first printed pair with the key from the
    printed sequence (none if the key is absent) and changes nothing else
    in it; the height does not grow. *)
Theorem remove_is_delete_first mode w this r (fuel fuel' : nat) es z key :
  reachable mode w → trees w !! this = Some r →
  inorder_of fuel this w = Some es → height_of fuel' this w = Some z →
  ∃ f0 : nat, ∀ d : nat, ∃ w' z',
    remove mode (f0 + d) this key w = Some (tt, w') ∧
    prints w' this (delete_first key es) ∧
    has_height w' this z' ∧ (z' ≤ z)%Z.
Proof.
  intros Hre Hthis Hes Hz.
  destruct (reachable_tree _ _ _ _ Hre Hthis) as (Hwf & t & Ht & Hb & Hnd & _).
  apply (inorder_of_tree _ _ _ _ _ Ht) in Hes as ->.
  apply (height_of_tree _ _ _ _ _ Ht) in Hz as ->.
  destruct (remove_world mode w this t key Hwf Ht) as (w' & Hrun & _ & Ht' & _).
  exists (S (depth t)). intros d. exists w', (pheight (premove key t)).
  split; [apply Hrun; lia|].
  rewrite <- entries_premove by done.
  split; [by apply tree_prints|]. split; [by apply tree_has_height|].
  rewrite !pheight_depth. pose proof (premove_depth key t). lia.
Qed.

(** ** Emptying a tree *)

Lemma delete_first_keys (key : K) (es : list (K * V)) :
  key ∈ es.*1 → es.*1 ≡ₚ key :: (delete_first key es).*1.
Proof.
  induction es as [|[a b] es IH]; simpl; [by intros ?%elem_of_nil|].
  destruct (key_eqb key a) eqn:E.
  - apply key_eqb_eq in E as ->. done.
  - apply key_eqb_neq in E. rewrite elem_of_cons. intros [?|Hin]; [done|].
    simpl. rewrite (IH Hin) at 1. apply Permutation_swap.
Qed.

Lemma delete_all (ks : list K) : ∀ es : list (K * V),
  ks ≡ₚ es.*1 → foldl (λ es k, delete_first k es) es ks = [].
Proof.
  induction ks as [|k ks IH]; intros es Hp; simpl.
  - symmetry in Hp. apply Permutation_nil_r in Hp. by apply fmap_nil_inv in Hp.
  - apply IH. assert (k ∈ es.*1) as Hin by (rewrite <- Hp; apply elem_of_cons; by left).
    rewrite (delete_first_keys k es Hin) in Hp. by apply (inj (cons k)) in Hp.
Qed.

Lemma remove_all_world mode ks : ∀ w this t,
  wf w → tree_of w this t →
  ∃ w' t', (∀ fuel : nat, depth t < fuel →
              remove_all mode fuel this ks w = Some (tt, w')) ∧
           wf w' ∧ tree_of w' this t' ∧
           entries t' = foldl (λ es k, delete_first k es) (entries t) ks.
Proof.
  induction ks as [|k ks IH]; intros w this t Hwf Ht; simpl.
  { by exists w, t. }
  pose proof Ht as (r & Hl & _ & Hnd).
  destruct (wf_tree _ _ _ Hwf Hl) as (t0 & Ht0 & Hb).
  rewrite <- (tree_of_functional _ _ _ _ Ht Ht0) in Hb. clear t0 Ht0.
  destruct (remove_world mode w this t k Hwf Ht) as (w1 & Hrun & Hwf1 & Ht1 & _).
  destruct (IH w1 this _ Hwf1 Ht1) as (w' & t' & Hrun' & Hwf' & Ht' & He).
  exists w', t'. split; [|split; [done|split; [done|]]].
  - intros fuel Hf. unfold mbind, M_bind, bind. rewrite (Hrun fuel Hf).
    apply Hrun'. pose proof (premove_depth k t). lia.
  - by rewrite He, entries_premove.
Qed.

Lemma entries_nil t : entries t = [] → t = Leaf.
Proof.
  destruct t as [|l k v L R]; [done|]. simpl. intros E.
  by apply app_nil in E as [_ ?].
Qed.

Lemma tree_of_Leaf w this : tree_of w this Leaf → trees w !! this = Some None.
Proof. intros (r & Hl & Hr & _). by inversion Hr; subst. Qed.

Lemma Leaf_tree_of w this : trees w !! this = Some None → tree_of w this Leaf.
Proof.
  intros Hl. exists None. split; [done|]. split; [constructor|apply NoDup_nil_2].
Qed.

(** What every observer reports about an object whose root is null. *)
Lemma empty_observed mode w this :
  trees w !! this = Some None →
  prints w this [] ∧ has_height w this (-1) ∧
  ∀ key, finds mode w this key Throws_invalid_argument.
Proof.
  intros Hl. apply Leaf_tree_of in Hl.
  split; [exact (tree_prints _ _ _ Hl)|]. split; [exact (tree_has_height _ _ _ Hl)|].
  intros key. exact (tree_finds mode _ _ _ key Hl).
Qed.

Lemma prints_live w this es : prints w this es → is_Some (trees w !! this).
Proof.
  intros [f0 Hp]. specialize (Hp 0). unfold inorder_of, printInorder in Hp.
  unfold mbind, M_bind, bind, get_root in Hp.
  destruct (trees w !! this); [done|]. by simpl in Hp.
Qed.

(** X9.  Removing the keys of a tree one at a time, in any order and each
    as often as it is stored, leaves the tree empty: the root is null,
    nothing is printed and the height is -1. *)
Theorem remove_all_empties mode w this r (fuel : nat) es ks :
  reachable mode w → trees w !! this = Some r →
  inorder_of fuel this w = Some es → ks ≡ₚ es.*1 →
  ∃ f0 : nat, ∀ d : nat, ∃ w',
    remove_all mode (f0 + d) this ks w = Some (tt, w') ∧
    trees w' !! this = Some None ∧
    prints w' this [] ∧ has_height w' this (-1).
Proof.
  intros Hre Hthis Hes Hp.
  destruct (reachable_tree _ _ _ _ Hre Hthis) as (Hwf & t & Ht & _).
  apply (inorder_of_tree _ _ _ _ _ Ht) in Hes as ->.
  destruct (remove_all_world mode ks w this t Hwf Ht) as (w' & t' & Hrun & _ & Ht' & He).
  rewrite delete_all in He by done. apply entries_nil in He as ->.
  exists (S (depth t)). intros d. exists w'. split; [apply Hrun; lia|].
  pose proof (tree_of_Leaf _ _ Ht') as Hl. split; [done|].
  destruct (empty_observed mode w' this Hl) as (? & ? & _). done.
Qed.

(** X10.  [clear] leaves the object with a null root: nothing is printed,
    the height is -1 and every search throws.  Every node of the tree has
    been released, and no other node and no other object has changed. *)
Theorem clear_empties mode w this r :
  reachable mode w → trees w !! this = Some r →
  ∃ f0 : nat, ∀ d : nat, ∃ w',
    clear (f0 + d) this w = Some (tt, w') ∧
    trees w' = <[this := None]> (trees w) ∧
    prints w' this [] ∧ has_height w' this (-1) ∧
    (∀ key, finds mode w' this key Throws_invalid_argument) ∧
    (∀ x, reaches (nodes w) r x → nodes w' !! x = None) ∧
    (∀ x, ¬ reaches (nodes w) r x → nodes w' !! x = nodes w !! x).
Proof.
  intros Hre Hthis.
  destruct (reachable_tree _ _ _ _ Hre Hthis) as (_ & t & _ & _ & Hnd & Hr).
  destruct w as [h T]. simpl in *.
  destruct (clear_spec (S (depth t)) h T this r t Hthis Hr Hnd)
    as (h' & Hrun & Hfr & Hgone); [lia|].
  exists (S (depth t)). intros d. exists (World h' (<[this := None]> T)).
  split. { eapply (clear_mono this _ (S (depth t))); [lia|done]. }
  split; [done|].
  assert (trees (World h' (<[this := None]> T)) !! this = Some None) as Hl
    by (simpl; apply lookup_insert_eq).
  destruct (empty_observed mode _ this Hl) as (? & ? & ?).
  split; [done|]. split; [done|]. split; [done|]. simpl. split.
  - intros x Hx. apply Hgone. by apply (repr_reaches h r None t).
  - intros x Hx. apply Hfr. by rewrite <- (repr_reaches h r None t).
Qed.

(** X11.  The destructor removes the object and releases every node of
    its tree; no other node and no other object changes. *)
Theorem destroy_releases mode w this r :
  reachable mode w → trees w !! this = Some r →
  ∃ f0 : nat, ∀ d : nat, ∃ w',
    destroy (f0 + d) this w = Some (tt, w') ∧
    trees w' = delete this (trees w) ∧
    (∀ x, reaches (nodes w) r x → nodes w' !! x = None) ∧
    (∀ x, ¬ reaches (nodes w) r x → nodes w' !! x = nodes w !! x).
Proof.
  intros Hre Hthis.
  destruct (reachable_tree _ _ _ _ Hre Hthis) as (_ & t & _ & _ & Hnd & Hr).
  destruct w as [h T]. simpl in *.
  destruct (destroy_spec (S (depth t)) h T this r t Hthis Hr Hnd)
    as (h' & Hrun & Hfr & Hgone); [lia|].
  exists (S (depth t)). intros d. exists (World h' (delete this T)).
  split. { eapply (destroy_mono this _ (S (depth t))); [lia|done]. }
  split; [done|]. simpl. split.
  - intros x Hx. apply Hgone. by apply (repr_reaches h r None t).
  - intros x Hx. apply Hfr. by rewrite <- (repr_reaches h r None t).
Qed.

(** X12.  After [a = b] the object [a] prints what [b] printed and has
    the height [b] had; [b] itself, and every other object, prints what it
    printed before; the nodes [a] owned before are released and the nodes
    it owns now were not allocated before. *)
Theorem assign_copies mode w this argument r ra (fuel fuel' : nat) es z :
  reachable mode w →
  trees w !! this = Some r → trees w !! argument = Some ra →
  inorder_of fuel argument w = Some es → height_of fuel' argument w = Some z →
  ∃ f0 : nat, ∀ d : nat, ∃ w' r',
    assign (f0 + d) this argument w = Some (tt, w') ∧
    trees w' = <[this := r']> (trees w) ∧
    prints w' this es ∧ has_height w' this z ∧
    prints w' argument es ∧ has_height w' argument z ∧
    (∀ j es', j ≠ this → prints w j es' → prints w' j es') ∧
    (∀ x, reaches (nodes w) r x → nodes w' !! x = None) ∧
    (∀ x, reaches (nodes w') r' x → nodes w !! x = None) ∧
    (∀ x, is_Some (nodes w !! x) → ¬ reaches (nodes w) r x →
          nodes w' !! x = nodes w !! x).
Proof.
  intros Hre Hthis Harg Hes Hz.
  destruct (reachable_tree _ _ _ _ Hre Hthis) as (Hwf & t & Ht & _ & Hnd & Hr).
  destruct (reachable_tree _ _ _ _ Hre Harg) as (_ & ta & Hta & _ & _ & Hra).
  apply (inorder_of_tree _ _ _ _ _ Hta) in Hes as ->.
  apply (height_of_tree _ _ _ _ _ Hta) in Hz as ->.
  destruct w as [h T]. simpl in *.
  destruct (assign_spec (S (depth t `max` depth ta)) h T this argument r ra t ta
              Hthis Hr Hnd Harg Hra)
    as (h' & q & t' & Hrun & Hr' & Hshape & Hnd' & Hfresh & Hfr & Hgone); [lia..|].
  set (w' := World h' (<[this := q]> T)).
  assert (tree_of w' this t') as Ht'.
  { exists q. simpl. by rewrite lookup_insert_eq. }
  assert (∀ j tj, j ≠ this → tree_of (World h T) j tj → tree_of w' j tj) as Hother.
  { intros j tj Hne Htj.
    eapply tree_of_frame; [exact Htj|simpl; by rewrite lookup_insert_ne|].
    intros x Hx. simpl. apply Hfr; [by eapply (tree_of_alloc (World h T))|].
    by eapply (wf_disjoint (World h T) j this). }
  assert (tree_of w' argument (if decide (argument = this) then t' else ta)) as Hta'.
  { destruct (decide (argument = this)) as [->|Hne]; [done|by apply Hother]. }
  assert (entries (if decide (argument = this) then t' else ta) = entries ta ∧
          pheight (if decide (argument = this) then t' else ta) = pheight ta)
    as [Ee Eh].
  { destruct (decide (argument = this));
      [split; [by apply same_shape_entries|by apply same_shape_pheight]|done]. }
  exists (S (depth t `max` depth ta)). intros d. exists w', q.
  split. { eapply (assign_mono this argument _ (S (depth t `max` depth ta))); [lia|done]. }
  split; [done|].
  split. { rewrite <- (same_shape_entries _ _ Hshape). by apply tree_prints. }
  split. { rewrite <- (same_shape_pheight _ _ Hshape). by apply tree_has_height. }
  split. { rewrite <- Ee. by apply tree_prints. }
  split. { rewrite <- Eh. by apply tree_has_height. }
  split.
  { intros j es' Hne Hp. destruct (prints_live _ _ _ Hp) as [rj Hj].
    destruct (wf_tree _ _ _ Hwf Hj) as (tj & Htj & _).
    rewrite (prints_tree _ _ _ _ Htj Hp). apply tree_prints. by apply Hother. }
  simpl. split; [|split].
  - intros x Hx. apply Hgone. by apply (repr_reaches h r None t).
  - intros x Hx. apply Hfresh. by apply (repr_reaches h' q None t').
  - intros x Hx Hn. apply Hfr; [done|]. by rewrite <- (repr_reaches h r None t).
Qed.

(** ** Parent links, seen from the child *)

Lemma repr_parent h p par t : repr h p par t →
  ∀ n nd, n ∈ locs t → h !! n = Some nd →
    (p = Some n ∧ parent_ nd = par) ∨
    (∃ (u : loc) ud, parent_ nd = Some u ∧ u ∈ locs t ∧ h !! u = Some ud ∧
             (left_ ud = Some n ∨ right_ ud = Some n)).
Proof.
  induction 1 as [|l par k v pl pr L R Hl HL IHL HR IHR]; intros n nd Hn Hnd.
  { by apply elem_of_nil in Hn. }
  cbn [locs] in Hn. rewrite elem_of_app, elem_of_cons in Hn.
  destruct Hn as [Hn|[->|Hn]].
  - right. destruct (IHL n nd Hn Hnd) as [[-> Hp]|(u & ud & Hp & Hq & Hqd & Hc)].
    + exists l, (mkNode k v (Some n) pr par). split; [done|].
      split; [cbn [locs]; set_solver|]. split; [done|]. by left.
    + exists u, ud. split; [done|]. split; [cbn [locs]; set_solver|]. done.
  - left. simplify_eq. done.
  - right. destruct (IHR n nd Hn Hnd) as [[-> Hp]|(u & ud & Hp & Hq & Hqd & Hc)].
    + exists l, (mkNode k v pl (Some n) par). split; [done|].
      split; [cbn [locs]; set_solver|]. split; [done|]. by right.
    + exists u, ud. split; [done|]. split; [cbn [locs]; set_solver|]. done.
Qed.

(** X13.  In every reachable world the parent link of a node of a tree is
    null exactly at the root, and otherwise points to a node of the same
    tree that has the node as its left or right child. *)
Theorem parent_link_mirrors_child mode w this r n nd :
  reachable mode w → trees w !! this = Some r →
  reaches (nodes w) r n → nodes w !! n = Some nd →
  (parent_ nd = None ↔ r = Some n) ∧
  (∀ u : loc, parent_ nd = Some u →
     reaches (nodes w) r u ∧
     ∃ ud, nodes w !! u = Some ud ∧ (left_ ud = Some n ∨ right_ ud = Some n)).
Proof.
  intros Hre Hthis Hn Hnd.
  destruct (reachable_tree _ _ _ _ Hre Hthis) as (_ & t & _ & _ & _ & Hr).
  apply (repr_reaches _ _ _ _ _ Hr) in Hn.
  destruct (repr_parent _ _ _ _ Hr n nd Hn Hnd) as [[-> Hp]|(u & ud & Hp & Hq & Hqd & Hc)].
  - split; [done|]. intros u Hu. congruence.
  - split.
    + split; [congruence|]. intros ->. inversion Hr; subst. simplify_eq.
    + intros u' Hu'. simplify_eq. split; [by apply (repr_reaches _ _ _ _ _ Hr)|eauto].
Qed.

(** ** The two helper families *)

Lemma remove_modes (fuel : nat) this key w :
  remove USING_ITERATIVE_FUNCTIONS fuel this key w =
  remove USING_RECURSIVE_FUNCTIONS fuel this key w.
Proof. unfold remove, mbind, M_bind, bind. by rewrite find_node_modes. Qed.

Lemma exec_iterative_recursive (fuel : nat) o w res :
  exec USING_ITERATIVE_FUNCTIONS fuel o w = Some res →
  exec USING_RECURSIVE_FUNCTIONS fuel o w = Some res.
Proof.
  destruct o; simpl; try done.
  - intros Hrun. rewrite <- insert_modes.
    eapply (insert_mono _ this key value (S fuel) fuel); [lia|done].
  - by rewrite remove_modes.
Qed.

Lemma exec_recursive_iterative (fuel : nat) o w res :
  exec USING_RECURSIVE_FUNCTIONS fuel o w = Some res →
  exec USING_ITERATIVE_FUNCTIONS (S fuel) o w = Some res.
Proof.
  intros Hrun.
  pose proof (exec_mono USING_RECURSIVE_FUNCTIONS o (S fuel) fuel w res
                ltac:(lia) Hrun) as Hrun'.
  destruct o; try exact Hrun'.
  - cbn [exec] in *. by rewrite insert_modes.
  - cbn [exec] in *. by rewrite remove_modes.
Qed.

(** X14.  Which helper family is compiled in cannot be told from the
    outside: the worlds a client can reach with the iterative helpers are
    those it can reach with the recursive ones. *)
Theorem helper_families_interchangeable (w : world) :
  reachable USING_ITERATIVE_FUNCTIONS w ↔ reachable USING_RECURSIVE_FUNCTIONS w.
Proof.
  split.
  - induction 1 as [|w o fuel w' _ IH Hlive Hrun]; [constructor|].
    eapply reachable_step; [exact IH|exact Hlive|].
    by apply exec_iterative_recursive.
  - induction 1 as [|w o fuel w' _ IH Hlive Hrun]; [constructor|].
    eapply reachable_step; [exact IH|exact Hlive|].
    by apply exec_recursive_iterative.
Qed.

(** ** No node is leaked *)

Lemma delete_first_length (key : K) (es : list (K * V)) :
  key ∈ es.*1 → S (length (delete_first key es)) = length es.
Proof.
  induction es as [|[a b] es IH]; simpl; [by intros ?%elem_of_nil|].
  destruct (key_eqb key a) eqn:E; [done|].
  apply key_eqb_neq in E. rewrite elem_of_cons. intros [?|Hin]; [done|].
  simpl. by rewrite (IH Hin).
Qed.

(** The node [remove] releases is the one that leaves the tree. *)
Lemma premove_locs key t n (d : loc) :
  bst t → NoDup (locs t) → psearch key t = Some n →
  d ∈ locs t → d ∉ locs (premove key t) →
  ∀ x, x ∈ locs t → x ≠ d → x ∈ locs (premove key t).
Proof.
  intros Hb Hnd Hs Hd Hd' x Hx Hne.
  assert (S (length (locs (premove key t))) = length (locs t)) as Hlen.
  { rewrite <- !entries_locs_length, entries_premove by done.
    apply delete_first_length. rewrite <- keys_entries. by eapply psearch_Some_in. }
  assert (locs (premove key t) `sublist_of` locs t) as Hsub.
  { unfold premove. rewrite Hs. apply premove_at_locs. }
  assert (NoDup (d :: locs (premove key t))) as Hnd'.
  { constructor; [done|]. by eapply sublist_NoDup. }
  assert (d :: locs (premove key t) ⊆+ locs t) as Hsm.
  { apply NoDup_submseteq; [done|]. intros y [->|Hy]%elem_of_cons; [done|].
    by eapply elem_of_sublist. }
  apply submseteq_length_Permutation in Hsm; [|simpl; lia].
  rewrite <- Hsm in Hx. apply elem_of_cons in Hx as [?|?]; done.
Qed.

Lemma remove_spec_dom mode (fuel : nat) h T this r t key :
  T !! this = Some r → repr h r None t → NoDup (locs t) → bst t →
  depth t < fuel →
  ∃ h' r', remove mode fuel this key (World h T) =
             Some (tt, World h' (<[this := r']> T)) ∧
        repr h' r' None (premove key t) ∧
        (∀ x, x ∉ locs t → h' !! x = h !! x) ∧
        (∀ x, is_Some (h' !! x) →
              x ∈ locs (premove key t) ∨ (is_Some (h !! x) ∧ x ∉ locs t)).
Proof.
  intros Ht Hr Hnd Hb Hf.
  destruct (psearch key t) as [n|] eqn:Es.
  - pose proof (premove_locs key t n) as Hlocs.
    revert Hlocs. unfold remove, premove, mbind, M_bind, bind.
    erewrite find_node_exact by done.
    pose proof (search_depth_le key t).
    rewrite bool_decide_eq_true_2 by lia. rewrite Es. intros Hlocs.
    destruct (remove_node_spec fuel h T this r t n Ht Hr Hnd)
      as (h' & r' & Hrun & Hr' & Hfr & d & Hd & Hdom);
      [by eapply psearch_elem|done|].
    exists h', r'. split; [done|]. split; [done|]. split; [done|].
    intros x Hx. apply elem_of_dom in Hx. rewrite Hdom in Hx.
    apply elem_of_difference in Hx as [Hx Hxd]. apply elem_of_dom in Hx.
    destruct (decide (x ∈ locs t)) as [Hxt|Hxt]; [left|by right].
    apply (Hlocs d); [done|done|done|done| |done|set_solver].
    intros Hd'. destruct (repr_alloc _ _ _ _ _ Hr' Hd') as [? Hal].
    apply elem_of_dom_2 in Hal. rewrite Hdom in Hal. set_solver.
  - exists h, r. unfold remove, premove, mbind, M_bind, bind.
    erewrite find_node_exact by done.
    pose proof (search_depth_le key t).
    rewrite bool_decide_eq_true_2 by lia. rewrite Es. rewrite insert_id by done.
    split; [destruct fuel; [lia|done]|]. split; [done|]. split; [done|].
    intros x Hx. destruct (decide (x ∈ locs t)); [by left|by right].
Qed.

Lemma assign_spec_dom (fuel : nat) h T this argument r ra t ta :
  T !! this = Some r → repr h r None t → NoDup (locs t) →
  T !! argument = Some ra → repr h ra None ta →
  depth t < fuel → depth ta < fuel →
  ∃ h' q t',
    assign fuel this argument (World h T) = Some (tt, World h' (<[this := q]> T)) ∧
    repr h' q None t' ∧ NoDup (locs t') ∧
    (∀ x, is_Some (h !! x) → x ∉ locs t → h' !! x = h !! x) ∧
    (∀ x, is_Some (h' !! x) → x ∈ locs t' ∨ (is_Some (h !! x) ∧ x ∉ locs t)).
Proof.
  intros Ht Hr Hnd Hta Hra Hf Hfa.
  destruct (copy_construct_spec fuel h T argument ra ta Hta Hra Hfa)
    as (h1 & q & t' & Hrun1 & Hr' & Hshape & Hnd' & Hfresh & Hfr1 & Hdom1).
  set (rhs := fresh (dom T)) in *.
  assert (rhs ≠ this) as Hne.
  { intros Heq. apply elem_of_dom_2 in Ht. rewrite <- Heq in Ht. by apply is_fresh in Ht. }
  assert (T !! rhs = None) as Hrhs by apply not_elem_of_dom, is_fresh.
  set (T2 := <[this := q]> (<[rhs := r]> (<[rhs := q]> T))).
  destruct (destroy_spec fuel h1 T2 rhs r t) as (h2 & Hrun2 & Hfr2 & Hgone2);
    [| |done|done|].
  { unfold T2. rewrite lookup_insert_ne by done. apply lookup_insert_eq. }
  { eapply repr_frame; [exact Hr|]. intros x Hx. apply Hfr1.
    eapply repr_alloc; [exact Hr|done]. }
  assert (delete rhs T2 = <[this := q]> T) as HT.
  { unfold T2. rewrite delete_insert_ne by done. rewrite insert_insert_eq.
    rewrite delete_insert_eq. by rewrite delete_id. }
  assert (∀ x, x ∈ locs t' → x ∉ locs t) as Hsep.
  { intros x Hx Hx'. apply Hfresh in Hx.
    destruct (repr_alloc _ _ _ _ _ Hr Hx'). congruence. }
  exists h2, q, t'. split; [|split; [|split; [done|split]]].
  - unfold assign.
    erewrite bind_run by exact Hrun1.
    erewrite bind_run by (apply get_root_run; apply lookup_insert_eq).
    erewrite bind_run by (apply get_root_run; rewrite lookup_insert_ne by done; exact Ht).
    erewrite bind_run by (eapply set_root_run; apply lookup_insert_eq).
    erewrite bind_run
      by (eapply set_root_run; rewrite lookup_insert_ne by done;
          rewrite lookup_insert_ne by done; exact Ht).
    fold T2. rewrite Hrun2. by rewrite HT.
  - eapply repr_frame; [exact Hr'|]. intros x Hx. apply Hfr2. by apply Hsep.
  - intros x Hx Hxt. rewrite Hfr2 by done. by apply Hfr1.
  - intros x Hx. destruct (decide (x ∈ locs t)) as [Hxt|Hxt].
    { rewrite Hgone2 in Hx by done. by destruct Hx. }
    rewrite Hfr2 in Hx by done. destruct (Hdom1 x Hx); [by right|by left].
Qed.

Lemma owner_tree w this t x : tree_of w this t → owner w this x ↔ x ∈ locs t.
Proof.
  intros (r & Hl & Hr & _). unfold owner. split.
  - intros (r' & Hl' & Hx). simplify_eq. by apply (repr_reaches _ _ _ _ _ Hr).
  - intros Hx. exists r. split; [done|]. by apply (repr_reaches _ _ _ _ _ Hr).
Qed.

(** Every node has at most one owner. *)
Lemma owner_unique w i j x : wf w → owner w i x → owner w j x → i = j.
Proof.
  intros Hwf Hi Hj. destruct (decide (i = j)) as [|Hne]; [done|exfalso].
  pose proof Hi as (ri & Hli & _). pose proof Hj as (rj & Hlj & _).
  destruct (wf_tree _ _ _ Hwf Hli) as (ti & Hti & _).
  destruct (wf_tree _ _ _ Hwf Hlj) as (tj & Htj & _).
  apply (owner_tree _ _ _ _ Hti) in Hi. apply (owner_tree _ _ _ _ Htj) in Hj.
  by apply (wf_disjoint w i j ti tj x Hwf Hne Hti Htj).
Qed.

(** A node of another tree keeps its owner when one tree is replaced. *)
Lemma owner_kept w this t h' T' x :
  wf w → tree_of w this t ∨ (trees w !! this = None ∧ t = Leaf) →
  (∀ y, is_Some (nodes w !! y) → y ∉ locs t → h' !! y = nodes w !! y) →
  (∀ j, j ≠ this → T' !! j = trees w !! j) →
  (∃ j, owner w j x) → x ∉ locs t →
  ∃ j, owner (World h' T') j x.
Proof.
  intros Hwf Hthis Hfr HT [j Hj] Hxt.
  pose proof Hj as (rj & Hlj & _).
  destruct (wf_tree _ _ _ Hwf Hlj) as (tj & Htj & _).
  pose proof (proj1 (owner_tree _ _ _ _ Htj) Hj) as Hx.
  assert (j ≠ this) as Hne.
  { intros ->. destruct Hthis as [Ht|[Hn _]]; [|congruence].
    by rewrite (tree_of_functional _ _ _ _ Ht Htj) in Hxt. }
  exists j. apply (owner_tree _ j tj); [|done].
  eapply tree_of_frame; [exact Htj|simpl; by apply HT|].
  intros y Hy. simpl. apply Hfr; [by eapply tree_of_alloc|].
  destruct Hthis as [Ht|[_ ->]]; [by eapply (wf_disjoint w j this)|].
  simpl. apply not_elem_of_nil.
Qed.

Lemma no_garbage_update w this t h' r' t' :
  wf w → no_garbage w → tree_of w this t ∨ (trees w !! this = None ∧ t = Leaf) →
  repr h' r' None t' → NoDup (locs t') →
  (∀ x, is_Some (nodes w !! x) → x ∉ locs t → h' !! x = nodes w !! x) →
  (∀ x, is_Some (h' !! x) → x ∈ locs t' ∨ (is_Some (nodes w !! x) ∧ x ∉ locs t)) →
  no_garbage (World h' (<[this := r']> (trees w))).
Proof.
  intros Hwf Hng Hthis Hr' Hnd' Hfr Hdom x Hx. simpl in Hx.
  destruct (Hdom x Hx) as [Hin|[Hal Hxt]].
  - exists this. apply (owner_tree _ this t'); [|done].
    exists r'. simpl. by rewrite lookup_insert_eq.
  - eapply (owner_kept w this t); [done|done|done| |by apply Hng|done].
    intros j Hj. by rewrite lookup_insert_ne.
Qed.

Lemma no_garbage_destroy w this t h' :
  wf w → no_garbage w → tree_of w this t →
  (∀ x, x ∉ locs t → h' !! x = nodes w !! x) →
  (∀ x, x ∈ locs t → h' !! x = None) →
  no_garbage (World h' (delete this (trees w))).
Proof.
  intros Hwf Hng Ht Hfr Hgone x Hx. simpl in Hx.
  destruct (decide (x ∈ locs t)) as [Hxt|Hxt].
  { rewrite Hgone in Hx by done. by destruct Hx. }
  rewrite Hfr in Hx by done.
  eapply (owner_kept w this t); [done|by left| | |by apply Hng|done].
  - intros y _ Hy. by apply Hfr.
  - intros j Hj. by rewrite lookup_delete_ne.
Qed.

Lemma exec_no_garbage mode (fuel : nat) o w w' :
  wf w → no_garbage w → live w o → exec mode fuel o w = Some (tt, w') →
  no_garbage w'.
Proof.
  intros Hwf Hng Hlive Hrun. destruct w as [h T].
  destruct o as [|original|this argument|this|this key value|this key|this];
    simpl in Hlive.
  - assert (w' = World h (<[fresh (dom T) := None]> T)) as ->.
    { cbn [exec] in Hrun. unfold mbind, M_bind, bind, construct, new_tree in Hrun.
      simpl in Hrun. unfold mret, M_ret, ret in Hrun. by simplify_eq. }
    apply (no_garbage_update (World h T) _ Leaf h None Leaf);
      [done|done| |constructor|apply NoDup_nil_2|done|].
    + right. split; [|done]. simpl. apply not_elem_of_dom, is_fresh.
    + intros x Hx. right. split; [done|apply not_elem_of_nil].
  - destruct Hlive as [r Hl].
    destruct (wf_tree _ _ _ Hwf Hl) as (t & Ht & _).
    pose proof Ht as (r0 & Hl0 & Hr & Hnd). simpl in *. simplify_eq.
    destruct (copy_construct_spec (S (depth t)) h T original r t Hl Hr)
      as (h' & q & t' & Hrun' & Hr' & _ & Hnd' & Hfresh & Hfr & Hdom); [lia|].
    unfold mbind, M_bind, bind in Hrun.
    destruct (copy_construct fuel original (World h T)) as [[c w1]|] eqn:Hc; [|done].
    simpl in Hrun. unfold mret, M_ret, ret in Hrun. simplify_eq.
    pose proof (mono_agree _ _ _ _ _ _ (copy_construct_mono original) Hc Hrun') as E.
    simplify_eq.
    apply (no_garbage_update (World h T) _ Leaf h' q t'); [done|done| |done|done| |].
    + right. split; [|done]. simpl. apply not_elem_of_dom, is_fresh.
    + intros x Hx _. by apply Hfr.
    + intros x Hx. destruct (Hdom x Hx); [right|by left].
      split; [done|apply not_elem_of_nil].
  - destruct Hlive as [[r Hl] [ra Hla]].
    destruct (wf_tree _ _ _ Hwf Hl) as (t & Ht & _).
    destruct (wf_tree _ _ _ Hwf Hla) as (ta & Hta & _).
    pose proof Ht as (r0 & Hl0 & Hr & Hnd).
    pose proof Hta as (ra0 & Hla0 & Hra & _). simpl in *. simplify_eq.
    destruct (assign_spec_dom (S (depth t `max` depth ta)) h T this argument r ra t ta
                Hl Hr Hnd Hla Hra)
      as (h' & q & t' & Hrun' & Hr' & Hnd' & Hfr & Hdom); [lia..|].
    pose proof (mono_agree _ _ _ _ _ _ (assign_mono this argument) Hrun Hrun') as E.
    simplify_eq.
    apply (no_garbage_update (World h T) this t h' q t'); try done. by left.
  - destruct Hlive as [r Hl].
    destruct (wf_tree _ _ _ Hwf Hl) as (t & Ht & _).
    pose proof Ht as (r0 & Hl0 & Hr & Hnd). simpl in *. simplify_eq.
    destruct (destroy_spec (S (depth t)) h T this r t Hl Hr Hnd)
      as (h' & Hrun' & Hfr & Hgone); [lia|].
    pose proof (mono_agree _ _ _ _ _ _ (destroy_mono this) Hrun Hrun') as E.
    simplify_eq.
    by apply (no_garbage_destroy (World h T) this t h').
  - destruct Hlive as [r Hl].
    destruct (wf_tree _ _ _ Hwf Hl) as (t & Ht & _).
    pose proof Ht as (r0 & Hl0 & Hr & Hnd). simpl in *. simplify_eq.
    destruct (insert_spec mode (S (depth t)) h T this r t key value Hl Hr Hnd)
      as (h' & r' & Hrun' & Hr' & Hfr & Hdom); [lia|].
    pose proof (mono_agree _ _ _ _ _ _ (insert_mono mode this key value) Hrun Hrun') as E.
    simplify_eq.
    assert (h !! fresh (dom h) = None) as Hfresh by apply not_elem_of_dom, is_fresh.
    apply (no_garbage_update (World h T) this t h' r' _ Hwf Hng (or_introl Ht) Hr').
    + rewrite pinsert_locs. constructor; [|done].
      intros Hx. destruct (repr_alloc _ _ _ _ _ Hr Hx). simpl in *. congruence.
    + intros x Hx Hxt. by destruct (Hfr x Hx).
    + intros x Hx. rewrite pinsert_locs. apply elem_of_dom in Hx. rewrite Hdom in Hx.
      apply elem_of_union in Hx as [->%elem_of_singleton|Hx]; [left; set_solver|].
      apply elem_of_dom in Hx.
      destruct (decide (x ∈ locs t)); [left; set_solver|by right].
  - destruct Hlive as [r Hl].
    destruct (wf_tree _ _ _ Hwf Hl) as (t & Ht & Hb).
    pose proof Ht as (r0 & Hl0 & Hr & Hnd). simpl in *. simplify_eq.
    destruct (remove_spec_dom mode (S (depth t)) h T this r t key Hl Hr Hnd Hb)
      as (h' & r' & Hrun' & Hr' & Hfr & Hdom); [lia|].
    pose proof (mono_agree _ _ _ _ _ _ (remove_mono mode this key) Hrun Hrun') as E.
    simplify_eq.
    apply (no_garbage_update (World h T) this t h' r' _ Hwf Hng (or_introl Ht) Hr');
      [|by intros x _ Hx; apply Hfr|done].
    unfold premove. destruct (psearch key t); [by apply premove_at_NoDup|done].
  - destruct Hlive as [r Hl].
    destruct (wf_tree _ _ _ Hwf Hl) as (t & Ht & _).
    pose proof Ht as (r0 & Hl0 & Hr & Hnd). simpl in *. simplify_eq.
    destruct (clear_spec (S (depth t)) h T this r t Hl Hr Hnd)
      as (h' & Hrun' & Hfr & Hgone); [lia|].
    pose proof (mono_agree _ _ _ _ _ _ (clear_mono this) Hrun Hrun') as E.
    simplify_eq.
    apply (no_garbage_update (World h T) this t h' None Leaf Hwf Hng (or_introl Ht));
      [constructor|apply NoDup_nil_2|by intros x _ Hx; apply Hfr|].
    intros x Hx. right. destruct (decide (x ∈ locs t)) as [Hxt|Hxt].
    { rewrite Hgone in Hx by done. by destruct Hx. }
    rewrite Hfr in Hx by done. done.
Qed.

Lemma reachable_no_garbage mode w : reachable mode w → no_garbage w.
Proof.
  induction 1 as [|w o fuel w' Hre IH Hlive Hrun].
  - intros x [? Hx]. simpl in Hx. by rewrite lookup_empty in Hx.
  - eapply exec_no_garbage; [by eapply reachable_wf|done|done|done].
Qed.

(** X15.  No call leaks a node: in every reachable world each allocated
    node belongs to exactly one tree, so once every tree object has been
    destroyed the free store is empty again. *)
Theorem no_node_is_leaked mode w :
  reachable mode w →
  (∀ x, is_Some (nodes w !! x) →
     ∃ this, owner w this x ∧ ∀ j, owner w j x → j = this) ∧
  (trees w = ∅ → nodes w = ∅).
Proof.
  intros Hre. pose proof (reachable_no_garbage _ _ Hre) as Hng.
  pose proof (reachable_wf _ _ Hre) as Hwf. split.
  - intros x Hx. destruct (Hng x Hx) as [this Ho]. exists this. split; [done|].
    intros j Hj. by eapply owner_unique.
  - intros HT. apply map_eq. intros x. rewrite lookup_empty.
    destruct (nodes w !! x) eqn:E; [|done].
    destruct (Hng x) as (this & r & Hl & _); [by rewrite E|].
    rewrite HT, lookup_empty in Hl. done.
Qed.

(** ** Splicing a node out *)

(** The subtrees under a node lie under its parent, which is not one of
    their nodes. *)
Lemma parent_above w this t n nd (u : loc) ud X (new : ptr) :
  tree_of w this t → n ∈ locs t → nodes w !! n = Some nd →
  u ∈ locs t → nodes w !! u = Some ud →
  left_ ud = Some n ∨ right_ ud = Some n →
  new = left_ nd ∨ new = right_ nd →
  repr (nodes w) new (Some n) X → u ∉ locs X.
Proof.
  intros Ht Hn Hnd Hu Hud Hslot Hnew HX HuX.
  pose proof Ht as (r & _ & _ & Hndt).
  destruct (tree_node _ _ _ _ Ht Hu)
    as (ku & vu & UL & UR & upl & upr & upar & Hsu & Hlu & HUL & HUR).
  destruct (tree_node _ _ _ _ Ht Hn)
    as (k & v & L & R & pl & pr & par & Hsn & Hln & HL & HR).
  simplify_eq. simpl in *.
  assert (X = L ∨ X = R) as HXLR.
  { destruct Hnew as [->| ->]; [left|right]; by eapply repr_functional. }
  assert (locs X ⊆ locs UL ++ locs UR) as Hsub.
  { destruct Hslot as [->| ->].
    - inversion HUL; subst. simplify_eq.
      assert (L0 = L) as -> by (by eapply repr_functional).
      assert (R0 = R) as -> by (by eapply repr_functional).
      destruct HXLR as [->| ->]; cbn [locs]; set_solver.
    - inversion HUR; subst. simplify_eq.
      assert (L0 = L) as -> by (by eapply repr_functional).
      assert (R0 = R) as -> by (by eapply repr_functional).
      destruct HXLR as [->| ->]; cbn [locs]; set_solver. }
  destruct (subtree_below u t ku vu UL UR u Hsu Hndt) as (_ & _ & Hne); [|done].
  by apply Hsub.
Qed.

(** X16.  [replaceChild] as [remove] calls it, on a node of a tree of a
    reachable world that is not the root and with one of the node's own
    child links as the new child: it returns true; the link of the parent
    that held the node (the left one if it did) now holds the new child,
    the new child, if there is one, has the parent as its parent, and no
    other node has changed. *)
Theorem replaceChild_splices mode w this r n nd (new : ptr) :
  reachable mode w → trees w !! this = Some r →
  reaches (nodes w) r n → nodes w !! n = Some nd → r ≠ Some n →
  new = left_ nd ∨ new = right_ nd →
  ∃ (u : loc) ud w',
    parent_ nd = Some u ∧ nodes w !! u = Some ud ∧
    replaceChild (parent_ nd) (Some n) new w = Some (true, w') ∧
    trees w' = trees w ∧
    nodes w' !! u = Some (if decide (left_ ud = Some n)
                          then with_left ud new else with_right ud new) ∧
    (∀ (c : loc) cd, new = Some c → nodes w !! c = Some cd →
       nodes w' !! c = Some (with_parent cd (Some u))) ∧
    (∀ x, x ≠ u → new ≠ Some x → nodes w' !! x = nodes w !! x).
Proof.
  intros Hre Hthis Hn Hnd Hroot Hnew.
  destruct (reachable_tree _ _ _ _ Hre Hthis) as (_ & t & Ht & _ & Hndt & Hr).
  apply (repr_reaches _ _ _ _ _ Hr) in Hn.
  destruct (repr_parent _ _ _ _ Hr n nd Hn Hnd) as [[-> _]|(u & ud & Hp & Hu & Hud & Hc)];
    [done|].
  assert (∃ X, repr (nodes w) new (Some n) X) as [X HX].
  { destruct (tree_node _ _ _ _ Ht Hn)
      as (k & v & L & R & pl & pr & par & _ & Hln & HL & HR).
    simplify_eq. simpl in Hnew. destruct Hnew as [->| ->]; eauto. }
  pose proof (parent_above w this t n nd u ud X new Ht Hn Hnd Hu Hud Hc Hnew HX) as HuX.
  destruct w as [h T]. simpl in *.
  assert (left_ ud = Some n ∨ (left_ ud ≠ Some n ∧ right_ ud = Some n)) as Hslot.
  { destruct (decide (left_ ud = Some n)); [by left|right].
    split; [done|]. by destruct Hc. }
  pose proof (replaceChild_spec h T u n ud new (Some n) X Hud HX HuX Hslot) as Hrun.
  set (ud' := if decide (left_ ud = Some n) then with_left ud new else with_right ud new)
    in *.
  exists u, ud, (World (adopt h u ud' new) T).
  split; [done|]. split; [done|]. rewrite Hp. split; [done|]. split; [done|].
  simpl. unfold adopt. inversion HX as [|c ? kc vc cl cr CL CR Hcd HCL HCR]; subst.
  - split; [by rewrite lookup_insert_eq|]. split; [done|].
    intros x Hx _. by rewrite lookup_insert_ne.
  - assert (c ≠ u) as Hcu by (cbn [locs] in HuX; set_solver).
    rewrite lookup_insert_ne, Hcd by done.
    split; [by rewrite lookup_insert_ne, lookup_insert_eq|]. split.
    + intros c' cd' [= <-] Hcd'. simplify_eq. by rewrite lookup_insert_eq.
    + intros x Hx Hxc. rewrite !lookup_insert_ne by congruence. done.
Qed.
(** ** Height and insertion *)

Lemma pinsert_depth_ge l (k : K) (v : V) t : depth t ≤ depth (pinsert l k v t).
Proof.
  induction t as [|l' k' v' L IHL R IHR]; simpl; [lia|].
  destruct (key_ltb k k'); simpl; lia.
Qed.

(** X17.  [insert] never lowers the height of a tree of a reachable world
    and raises it by at most one. *)
Theorem insert_height_step mode w this r (fuel : nat) z key value :
  reachable mode w → trees w !! this = Some r →
  height_of fuel this w = Some z →
  ∃ f0 : nat, ∀ d : nat, ∃ w' z',
    insert mode (f0 + d) this key value w = Some (tt, w') ∧
    has_height w' this z' ∧ (z ≤ z' ≤ z + 1)%Z.
Proof.
  intros Hre Hthis Hz.
  destruct (reachable_tree _ _ _ _ Hre Hthis) as (Hwf & t & Ht & _).
  apply (height_of_tree _ _ _ _ _ Ht) in Hz as ->.
  destruct (insert_world mode w this t key value Hwf Ht) as (w' & Hrun & _ & Ht' & _).
  exists (S (depth t)). intros d. eexists w', _.
  split; [apply Hrun; lia|]. split; [by apply tree_has_height|].
  rewrite !pheight_depth.
  pose proof (pinsert_depth (fresh (dom (nodes w))) key value t).
  pose proof (pinsert_depth_ge (fresh (dom (nodes w))) key value t). lia.
Qed.

End MoreProofs.

(** ** The properties above, on the trees of the demonstration *)

Section MoreFacts.
Local Open Scope string_scope.
Local Abbreviation ITER := USING_ITERATIVE_FUNCTIONS.
Local Abbreviation REC := USING_RECURSIVE_FUNCTIONS.

Lemma demo_kevin_reached mode :
  reaches (nodes (demo_world mode)) (Some 1%positive) 4%positive.
Proof.
  eapply reaches_left; [destruct mode; vm_compute; reflexivity|].
  eapply reaches_right; [destruct mode; vm_compute; reflexivity|].
  eapply reaches_here. destruct mode; vm_compute; reflexivity.
Defined.

Lemma insert_then_search_witness :
  ∃ f0 : nat, ∀ d : nat, ∃ w',
    insert REC (f0 + d) 1%positive "Zoe" 4%Q (demo_world REC) = Some (tt, w') ∧
    (absent (nodes (demo_world REC)) (Some 1%positive) "Zoe" →
       finds REC w' 1%positive "Zoe" (Returns 4%Q)) ∧
    (∀ v, finds REC (demo_world REC) 1%positive "Zoe" (Returns v) →
          finds REC w' 1%positive "Zoe" (Returns v)) ∧
    (∀ key' res, key' ≠ "Zoe" →
       finds REC (demo_world REC) 1%positive key' res →
       finds REC w' 1%positive key' res).
Proof.
  apply (insert_then_search REC (demo_world REC) 1%positive (Some 1%positive)
           "Zoe" 4%Q).
  - apply demo_reachable.
  - vm_compute; reflexivity.
Defined.

Lemma sorted_inserts_degenerate_witness :
  ∃ f0 : nat, ∀ d : nat, ∃ w,
    height_after_inserts ITER (f0 + d) demo_grades empty_world = Some (4%Z, w).
Proof.
  apply (sorted_inserts_degenerate ITER demo_grades).
  unfold demo_grades. simpl.
  repeat first [ apply SSorted_nil | apply SSorted_cons | apply Forall_nil_2
               | apply Forall_cons_2; [vm_compute; reflexivity|] ].
Defined.

Lemma height_bounds_witness :
  has_height (demo_world REC) 1%positive 3 ∧
  prints (demo_world REC) 1%positive demo_grades ∧
  (-1 ≤ 3)%Z ∧ (3 + 1 ≤ Z.of_nat (length demo_grades))%Z ∧
  (Z.of_nat (length demo_grades) < 2 ^ (3 + 1))%Z ∧
  (3%Z = (-1)%Z ↔ demo_grades = []).
Proof.
  destruct (height_bounds REC (demo_world REC) 1%positive (Some 1%positive))
    as (z & es & Hz & Hes & Huz & Hues & Hb).
  - apply demo_reachable.
  - vm_compute; reflexivity.
  - assert (3%Z = z) as <-.
    { apply (Huz 6). vm_compute; reflexivity. }
    assert (demo_grades = es) as <-.
    { apply (Hues 6). vm_compute; reflexivity. }
    split; [exact Hz|]. split; [exact Hes|]. exact Hb.
Defined.

Lemma search_is_assoc_witness :
  finds ITER (demo_world ITER) 2%positive "Kumar" (Returns 3.05%Q).
Proof.
  refine (search_is_assoc ITER (demo_world ITER) 2%positive (Some 6%positive) 6
            demo_grades "Kumar" _ _ _).
  - apply demo_reachable.
  - vm_compute; reflexivity.
  - vm_compute; reflexivity.
Defined.

Lemma insert_is_sorted_insert_witness :
  ∃ f0 : nat, ∀ d : nat, ∃ w',
    insert ITER (f0 + d) 1%positive "Kevin" 1%Q (demo_world ITER) = Some (tt, w') ∧
    prints w' 1%positive
      [("Chen", 2.5%Q); ("Ellen", 3.5%Q); ("Kevin", 3.25%Q); ("Kevin", 1%Q);
       ("Kumar", 3.05%Q); ("Ricardo", 2.5%Q)].
Proof.
  refine (insert_is_sorted_insert ITER (demo_world ITER) 1%positive (Some 1%positive) 6
            demo_grades "Kevin" 1%Q _ _ _).
  - apply demo_reachable.
  - vm_compute; reflexivity.
  - vm_compute; reflexivity.
Defined.

Lemma remove_is_delete_first_witness :
  ∃ f0 : nat, ∀ d : nat, ∃ w' z',
    remove REC (f0 + d) 2%positive "Ellen" (demo_world REC) = Some (tt, w') ∧
    prints w' 2%positive
      [("Chen", 2.5%Q); ("Kevin", 3.25%Q); ("Kumar", 3.05%Q); ("Ricardo", 2.5%Q)] ∧
    has_height w' 2%positive z' ∧ (z' ≤ 3)%Z.
Proof.
  refine (remove_is_delete_first REC (demo_world REC) 2%positive (Some 6%positive) 6 6
            demo_grades 3%Z "Ellen" _ _ _ _).
  - apply demo_reachable.
  - vm_compute; reflexivity.
  - vm_compute; reflexivity.
  - vm_compute; reflexivity.
Defined.

Lemma remove_all_empties_witness :
  ∃ f0 : nat, ∀ d : nat, ∃ w',
    remove_all REC (f0 + d) 1%positive
      ["Chen"; "Ellen"; "Kevin"; "Kumar"; "Ricardo"] (demo_world REC) =
      Some (tt, w') ∧
    trees w' !! 1%positive = Some None ∧
    prints w' 1%positive [] ∧ has_height w' 1%positive (-1).
Proof.
  apply (remove_all_empties REC (demo_world REC) 1%positive (Some 1%positive) 6
           demo_grades).
  - apply demo_reachable.
  - vm_compute; reflexivity.
  - vm_compute; reflexivity.
  - reflexivity.
Defined.

Lemma clear_empties_witness :
  ∃ f0 : nat, ∀ d : nat, ∃ w',
    clear (f0 + d) 2%positive (demo_world REC) = Some (tt, w') ∧
    trees w' = <[2%positive := None]> (trees (demo_world REC)) ∧
    prints w' 2%positive [] ∧ has_height w' 2%positive (-1) ∧
    (∀ key, finds REC w' 2%positive key Throws_invalid_argument) ∧
    (∀ x, reaches (nodes (demo_world REC)) (Some 6%positive) x →
          nodes w' !! x = None) ∧
    (∀ x, ¬ reaches (nodes (demo_world REC)) (Some 6%positive) x →
          nodes w' !! x = nodes (demo_world REC) !! x).
Proof.
  apply (clear_empties REC (demo_world REC) 2%positive (Some 6%positive)).
  - apply demo_reachable.
  - vm_compute; reflexivity.
Defined.

Lemma destroy_releases_witness :
  ∃ f0 : nat, ∀ d : nat, ∃ w',
    destroy (f0 + d) 2%positive (demo_world ITER) = Some (tt, w') ∧
    trees w' = delete 2%positive (trees (demo_world ITER)) ∧
    (∀ x, reaches (nodes (demo_world ITER)) (Some 6%positive) x →
          nodes w' !! x = None) ∧
    (∀ x, ¬ reaches (nodes (demo_world ITER)) (Some 6%positive) x →
          nodes w' !! x = nodes (demo_world ITER) !! x).
Proof.
  apply (destroy_releases ITER (demo_world ITER) 2%positive (Some 6%positive)).
  - apply demo_reachable.
  - vm_compute; reflexivity.
Defined.

Lemma assign_copies_witness :
  ∃ f0 : nat, ∀ d : nat, ∃ w' r',
    assign (f0 + d) 2%positive 1%positive (demo_world REC) = Some (tt, w') ∧
    trees w' = <[2%positive := r']> (trees (demo_world REC)) ∧
    prints w' 2%positive demo_grades ∧ has_height w' 2%positive 3 ∧
    prints w' 1%positive demo_grades ∧ has_height w' 1%positive 3 ∧
    (∀ j es', j ≠ 2%positive → prints (demo_world REC) j es' → prints w' j es') ∧
    (∀ x, reaches (nodes (demo_world REC)) (Some 6%positive) x →
          nodes w' !! x = None) ∧
    (∀ x, reaches (nodes w') r' x → nodes (demo_world REC) !! x = None) ∧
    (∀ x, is_Some (nodes (demo_world REC) !! x) →
          ¬ reaches (nodes (demo_world REC)) (Some 6%positive) x →
          nodes w' !! x = nodes (demo_world REC) !! x).
Proof.
  apply (assign_copies REC (demo_world REC) 2%positive 1%positive
           (Some 6%positive) (Some 1%positive) 6 6 demo_grades 3%Z).
  - apply demo_reachable.
  - vm_compute; reflexivity.
  - vm_compute; reflexivity.
  - vm_compute; reflexivity.
  - vm_compute; reflexivity.
Defined.

Lemma parent_link_mirrors_child_witness :
  (parent_ demo_kevin = None ↔ Some 1%positive = Some 4%positive) ∧
  (∀ u : loc, parent_ demo_kevin = Some u →
     reaches (nodes (demo_world REC)) (Some 1%positive) u ∧
     ∃ ud, nodes (demo_world REC) !! u = Some ud ∧
           (left_ ud = Some 4%positive ∨ right_ ud = Some 4%positive)).
Proof.
  apply (parent_link_mirrors_child REC (demo_world REC) 1%positive (Some 1%positive)
           4%positive demo_kevin).
  - apply demo_reachable.
  - vm_compute; reflexivity.
  - apply demo_kevin_reached.
  - vm_compute; reflexivity.
Defined.

Lemma no_node_is_leaked_witness :
  (∀ x, is_Some (nodes (demo_world ITER) !! x) →
     ∃ this, owner (demo_world ITER) this x ∧
             ∀ j, owner (demo_world ITER) j x → j = this) ∧
  (trees (demo_world ITER) = ∅ → nodes (demo_world ITER) = ∅).
Proof. apply (no_node_is_leaked ITER (demo_world ITER)), demo_reachable. Defined.

Lemma replaceChild_splices_witness :
  ∃ (u : loc) ud w',
    parent_ demo_kevin = Some u ∧ nodes (demo_world REC) !! u = Some ud ∧
    replaceChild (parent_ demo_kevin) (Some 4%positive) (Some 5%positive)
      (demo_world REC) = Some (true, w') ∧
    trees w' = trees (demo_world REC) ∧
    nodes w' !! u = Some (if decide (left_ ud = Some 4%positive)
                          then with_left ud (Some 5%positive)
                          else with_right ud (Some 5%positive)) ∧
    (∀ (c : loc) cd, Some 5%positive = Some c →
       nodes (demo_world REC) !! c = Some cd →
       nodes w' !! c = Some (with_parent cd (Some u))) ∧
    (∀ x, x ≠ u → Some 5%positive ≠ Some x →
          nodes w' !! x = nodes (demo_world REC) !! x).
Proof.
  apply (replaceChild_splices REC (demo_world REC) 1%positive (Some 1%positive)
           4%positive demo_kevin (Some 5%positive)).
  - apply demo_reachable.
  - vm_compute; reflexivity.
  - apply demo_kevin_reached.
  - vm_compute; reflexivity.
  - discriminate.
  - right. reflexivity.
Defined.

Lemma insert_height_step_witness :
  ∃ f0 : nat, ∀ d : nat, ∃ w' z',
    insert ITER (f0 + d) 2%positive "Zoe" 4%Q (demo_world ITER) = Some (tt, w') ∧
    has_height w' 2%positive z' ∧ (3 ≤ z' ≤ 3 + 1)%Z.
Proof.
  apply (insert_height_step ITER (demo_world ITER) 2%positive (Some 6%positive) 6
           3%Z "Zoe" 4%Q).
  - apply demo_reachable.
  - vm_compute; reflexivity.
  - vm_compute; reflexivity.
Defined.

End MoreFacts.
